(** * download.mjs: a batch controller around an external media downloader

    Shallow embedding of [src/download.mjs] and the properties of its
    argument parser, option resolver, job-descriptor builder, retry wrapper,
    bounded scheduler and final report.

    Conventions of the embedding.
    - A JavaScript string is a [string]; a character stands for the code unit
      of the same number (code units below 256).
    - A value that may be [null], [undefined] or a string is a [jsval].
    - A JavaScript number is a [jsnum]: NaN, the two infinities, or a
      rational (every finite double is one; rounding to doubles is not
      modelled).
    - [process.exit], exceptions and promise rejection are explicit results.
    - The event loop is a transition system over the scheduler's variables;
      the order in which jobs settle is a parameter of every run. *)

From Stdlib Require Import String Ascii List ZArith QArith Qround Bool Lia Permutation.
Import ListNotations.

Local Open Scope string_scope.
Local Open Scope list_scope.
Local Open Scope Z_scope.

(** ** Values of the host language *)

Inductive jsval : Type :=
| Undefined
| Null
| Str (s : string).

Inductive jsnum : Type :=
| NaN
| Fin (q : Q)
| PosInf
| NegInf.

(** ToBoolean, as used by [if (x)], [x ? a : b] and [x || y]. *)
Definition truthy (v : jsval) : bool :=
  match v with
  | Str s => negb (String.eqb s "")
  | _ => false
  end.

(** [x || y] on values. *)
Definition js_or (x y : jsval) : jsval := if truthy x then x else y.

(** [n <= x], [n >= x] and [n < x] for an integer-valued [n] and a number
    [x]; every comparison with NaN is false. *)
Definition int_le (n : Z) (x : jsnum) : bool :=
  match x with
  | NaN => false
  | Fin q => Qle_bool (inject_Z n) q
  | PosInf => true
  | NegInf => false
  end.

Definition int_ge (n : Z) (x : jsnum) : bool :=
  match x with
  | NaN => false
  | Fin q => Qle_bool q (inject_Z n)
  | PosInf => false
  | NegInf => true
  end.

Definition int_lt (n : Z) (x : jsnum) : bool :=
  match x with
  | NaN => false
  | Fin q => negb (Qle_bool q (inject_Z n))
  | PosInf => true
  | NegInf => false
  end.

(** ** Strings: [trim], [split(/\r?\n/)], [startsWith] *)

Definition LF : ascii := ascii_of_nat 10.
Definition CR : ascii := ascii_of_nat 13.

(** WhiteSpace and LineTerminator code units below 256:
    TAB, LF, VT, FF, CR, SP, NBSP. *)
Definition isWhiteSpace (c : ascii) : bool :=
  let n := nat_of_ascii c in
  (Nat.eqb n 9 || Nat.eqb n 10 || Nat.eqb n 11 || Nat.eqb n 12
   || Nat.eqb n 13 || Nat.eqb n 32 || Nat.eqb n 160)%bool.

Fixpoint trimStart (s : string) : string :=
  match s with
  | String c r => if isWhiteSpace c then trimStart r else s
  | EmptyString => EmptyString
  end.

(** [trimEnd s]: drop the trailing white space. *)
Fixpoint trimEnd (s : string) : string :=
  match s with
  | EmptyString => EmptyString
  | String c r =>
      match trimEnd r with
      | EmptyString => if isWhiteSpace c then EmptyString else String c EmptyString
      | r' => String c r'
      end
  end.

Definition trim (s : string) : string := trimEnd (trimStart s).

(** [data.split(/\r?\n/)]: the pieces between line breaks, a line break
    being LF or CR LF.  [cur] is the piece being read, reversed. *)
Fixpoint split_from (cur : list ascii) (s : string) : list string :=
  match s with
  | EmptyString => [string_of_list_ascii (rev cur)]
  | String c r =>
      if Ascii.eqb c LF then
        string_of_list_ascii (rev cur) :: split_from [] r
      else if Ascii.eqb c CR then
        match r with
        | String c' r' =>
            if Ascii.eqb c' LF
            then string_of_list_ascii (rev cur) :: split_from [] r'
            else split_from (c :: cur) r
        | EmptyString => split_from (c :: cur) r
        end
      else split_from (c :: cur) r
  end.

Definition split_lines (data : string) : list string := split_from [] data.

(** [v.startsWith("-")] *)
Definition startsWith_dash (v : string) : bool :=
  match v with
  | String c _ => Ascii.eqb c "-"
  | EmptyString => false
  end.

(** ** [Number(x)]

    The runtime's StringToNumber on the StringNumericLiteral grammar:
    optional white space around a signed decimal literal (digits, fraction,
    exponent), [Infinity], or an unsigned [0x]/[0o]/[0b] integer; the empty
    string is 0 and anything else is NaN.  A literal stands for its exact
    rational value; the runtime rounds it to the nearest double (so that
    [1e400] is [Infinity] and [1e-400] is 0 there), which is not modelled. *)

Definition digitVal (c : ascii) : option Z :=
  let n := nat_of_ascii c in
  if (Nat.leb 48 n && Nat.leb n 57)%bool then Some (Z.of_nat (n - 48)) else None.

Definition hexVal (c : ascii) : option Z :=
  let n := nat_of_ascii c in
  if (Nat.leb 48 n && Nat.leb n 57)%bool then Some (Z.of_nat (n - 48))
  else if (Nat.leb 65 n && Nat.leb n 70)%bool then Some (Z.of_nat (n - 55))
  else if (Nat.leb 97 n && Nat.leb n 102)%bool then Some (Z.of_nat (n - 87))
  else None.

(** Longest prefix of digits: its value in base [base], its length, the rest. *)
Fixpoint scanDigits (dv : ascii -> option Z) (base acc : Z) (len : nat)
         (l : list ascii) : Z * nat * list ascii :=
  match l with
  | c :: r =>
      match dv c with
      | Some d => if d <? base then scanDigits dv base (acc * base + d) (S len) r
                  else (acc, len, l)
      | None => (acc, len, l)
      end
  | [] => (acc, len, l)
  end.

Definition pow10 (e : Z) : Q :=
  if 0 <=? e then inject_Z (10 ^ e) else Qinv (inject_Z (10 ^ (- e))).

(** ExponentPart opt, then end of input. *)
Definition scanExponent (l : list ascii) : option Z :=
  match l with
  | [] => Some 0
  | c :: r =>
      if (Ascii.eqb c "e" || Ascii.eqb c "E")%bool then
        let '(neg, r1) :=
          match r with
          | s :: r' => if Ascii.eqb s "-" then (true, r')
                       else if Ascii.eqb s "+" then (false, r') else (false, r)
          | [] => (false, r)
          end in
        match scanDigits digitVal 10 0 0 r1 with
        | (_, O, _) => None
        | (e, _, []) => Some (if neg then - e else e)
        | _ => None
        end
      else None
  end.

(** StrUnsignedDecimalLiteral other than [Infinity]. *)
Definition unsignedDecimal (l : list ascii) : option Q :=
  let '(ip, ilen, r1) := scanDigits digitVal 10 0 0 l in
  let '(fp, flen, r2, dot) :=
    match r1 with
    | c :: r => if Ascii.eqb c "."
                then let '(f, n, r') := scanDigits digitVal 10 0 0 r in (f, n, r', true)
                else (0, O, r1, false)
    | [] => (0, O, r1, false)
    end in
  if (Nat.eqb ilen 0 && Nat.eqb flen 0)%bool then None
  else
    match scanExponent r2 with
    | Some e =>
        Some (Qred (Qmult (inject_Z (ip * 10 ^ Z.of_nat flen + fp))
                          (pow10 (e - Z.of_nat flen))))
    | None => None
    end.

Definition infinityLit : list ascii := list_ascii_of_string "Infinity".

Definition list_ascii_eqb (a b : list ascii) : bool :=
  String.eqb (string_of_list_ascii a) (string_of_list_ascii b).

Definition strUnsigned (neg : bool) (l : list ascii) : jsnum :=
  if list_ascii_eqb l infinityLit then (if neg then NegInf else PosInf)
  else match unsignedDecimal l with
       | Some q => Fin (if neg then Qred (Qopp q) else q)
       | None => NaN
       end.

Definition nonDecimal (dv : ascii -> option Z) (base : Z) (l : list ascii) : jsnum :=
  match scanDigits dv base 0 0 l with
  | (_, O, _) => NaN
  | (v, _, []) => Fin (inject_Z v)
  | _ => NaN
  end.

Definition StringToNumber (s : string) : jsnum :=
  match list_ascii_of_string (trim s) with
  | [] => Fin 0
  | c :: r =>
      if Ascii.eqb c "-" then strUnsigned true r
      else if Ascii.eqb c "+" then strUnsigned false r
      else
        match r with
        | p :: r' =>
            if Ascii.eqb c "0" then
              if (Ascii.eqb p "x" || Ascii.eqb p "X")%bool then nonDecimal hexVal 16 r'
              else if (Ascii.eqb p "o" || Ascii.eqb p "O")%bool then nonDecimal digitVal 8 r'
              else if (Ascii.eqb p "b" || Ascii.eqb p "B")%bool then nonDecimal digitVal 2 r'
              else strUnsigned false (c :: r)
            else strUnsigned false (c :: r)
        | [] => strUnsigned false (c :: r)
        end
  end.

(** [Number(x)] for [x] a value read from the argument iterator. *)
Definition Number (v : jsval) : jsnum :=
  match v with
  | Undefined => NaN
  | Null => Fin 0
  | Str s => StringToNumber s
  end.


(** ** Console output

    What the program writes, one constructor per [console.log] or
    [console.error] call site (time stamps are left out). *)

Inductive output : Type :=
| ErrUnknownOption (v : string)
| ErrUsage
| ErrUncaught                          (* [console.error(e)] of the top-level handler *)
| LogMenu
| AskChoice
| LogUnrecognisedChoice
| LogDownloading (url : string)
| LogOK (url : string)
| ErrAttempt (url : string) (attempt : Z) (limit : jsnum)   (* [limit] is [args.retries] *)
| ErrDetail (url : string) (attempt : Z)
| ErrCompletedWith (count : nat)
| ErrFailedUrl (url : string)
| LogAllCompleted.

(** ** The argument record built by [parseArgs] *)

Definition DEFAULT_OUTPUT_TEMPLATE : string := "%(uploader)s/%(title).200Bs-%(id)s.%(ext)s".
Definition DEFAULT_CONCURRENCY : jsnum := Fin 2.
Definition DEFAULT_SUB_LANG : string := "en".
Definition MAX_RETRIES : jsnum := Fin 2.

(** Default format if the user skips the prompt and provides nothing else. *)
Definition DEFAULT_FORMAT_FALLBACK : string :=
  "bestvideo[ext=mp4][height<=1080]+bestaudio[ext=m4a]/best[ext=mp4]".

Record Args : Type := mkArgs {
  urls : list string;
  format : jsval;
  formatProvided : bool;
  audioOnly : bool;
  audioFormat : jsval;
  outDir : jsval;
  outTemplate : jsval;
  playlist : bool;
  rateLimit : jsval;
  retries : jsnum;
  subs : bool;
  subsLang : jsval;
  subsEmbed : bool;
  fromFile : jsval;
  cookies : jsval;
  proxy : jsval;
  concurrent : jsnum;
  noMtime : bool;
  geoBypass : bool;
  extractorArgs : jsval;
  geoBypassCountry : jsval;
  verbose : bool;
  update : bool;
  noPrompt : bool
}.

(** Field assignments [args.f = v]. *)
Definition set_urls (v : list string) (a : Args) : Args :=
  mkArgs v (format a) (formatProvided a) (audioOnly a) (audioFormat a) (outDir a)
    (outTemplate a) (playlist a) (rateLimit a) (retries a) (subs a) (subsLang a)
    (subsEmbed a) (fromFile a) (cookies a) (proxy a) (concurrent a) (noMtime a)
    (geoBypass a) (extractorArgs a) (geoBypassCountry a) (verbose a) (update a)
    (noPrompt a).
Definition set_format (v : jsval) (a : Args) : Args :=
  mkArgs (urls a) v (formatProvided a) (audioOnly a) (audioFormat a) (outDir a)
    (outTemplate a) (playlist a) (rateLimit a) (retries a) (subs a) (subsLang a)
    (subsEmbed a) (fromFile a) (cookies a) (proxy a) (concurrent a) (noMtime a)
    (geoBypass a) (extractorArgs a) (geoBypassCountry a) (verbose a) (update a)
    (noPrompt a).
Definition set_formatProvided (v : bool) (a : Args) : Args :=
  mkArgs (urls a) (format a) v (audioOnly a) (audioFormat a) (outDir a) (outTemplate
    a) (playlist a) (rateLimit a) (retries a) (subs a) (subsLang a) (subsEmbed a)
    (fromFile a) (cookies a) (proxy a) (concurrent a) (noMtime a) (geoBypass a)
    (extractorArgs a) (geoBypassCountry a) (verbose a) (update a) (noPrompt a).
Definition set_audioOnly (v : bool) (a : Args) : Args :=
  mkArgs (urls a) (format a) (formatProvided a) v (audioFormat a) (outDir a)
    (outTemplate a) (playlist a) (rateLimit a) (retries a) (subs a) (subsLang a)
    (subsEmbed a) (fromFile a) (cookies a) (proxy a) (concurrent a) (noMtime a)
    (geoBypass a) (extractorArgs a) (geoBypassCountry a) (verbose a) (update a)
    (noPrompt a).
Definition set_audioFormat (v : jsval) (a : Args) : Args :=
  mkArgs (urls a) (format a) (formatProvided a) (audioOnly a) v (outDir a)
    (outTemplate a) (playlist a) (rateLimit a) (retries a) (subs a) (subsLang a)
    (subsEmbed a) (fromFile a) (cookies a) (proxy a) (concurrent a) (noMtime a)
    (geoBypass a) (extractorArgs a) (geoBypassCountry a) (verbose a) (update a)
    (noPrompt a).
Definition set_outDir (v : jsval) (a : Args) : Args :=
  mkArgs (urls a) (format a) (formatProvided a) (audioOnly a) (audioFormat a) v
    (outTemplate a) (playlist a) (rateLimit a) (retries a) (subs a) (subsLang a)
    (subsEmbed a) (fromFile a) (cookies a) (proxy a) (concurrent a) (noMtime a)
    (geoBypass a) (extractorArgs a) (geoBypassCountry a) (verbose a) (update a)
    (noPrompt a).
Definition set_outTemplate (v : jsval) (a : Args) : Args :=
  mkArgs (urls a) (format a) (formatProvided a) (audioOnly a) (audioFormat a) (outDir
    a) v (playlist a) (rateLimit a) (retries a) (subs a) (subsLang a) (subsEmbed a)
    (fromFile a) (cookies a) (proxy a) (concurrent a) (noMtime a) (geoBypass a)
    (extractorArgs a) (geoBypassCountry a) (verbose a) (update a) (noPrompt a).
Definition set_playlist (v : bool) (a : Args) : Args :=
  mkArgs (urls a) (format a) (formatProvided a) (audioOnly a) (audioFormat a) (outDir
    a) (outTemplate a) v (rateLimit a) (retries a) (subs a) (subsLang a) (subsEmbed a)
    (fromFile a) (cookies a) (proxy a) (concurrent a) (noMtime a) (geoBypass a)
    (extractorArgs a) (geoBypassCountry a) (verbose a) (update a) (noPrompt a).
Definition set_rateLimit (v : jsval) (a : Args) : Args :=
  mkArgs (urls a) (format a) (formatProvided a) (audioOnly a) (audioFormat a) (outDir
    a) (outTemplate a) (playlist a) v (retries a) (subs a) (subsLang a) (subsEmbed a)
    (fromFile a) (cookies a) (proxy a) (concurrent a) (noMtime a) (geoBypass a)
    (extractorArgs a) (geoBypassCountry a) (verbose a) (update a) (noPrompt a).
Definition set_retries (v : jsnum) (a : Args) : Args :=
  mkArgs (urls a) (format a) (formatProvided a) (audioOnly a) (audioFormat a) (outDir
    a) (outTemplate a) (playlist a) (rateLimit a) v (subs a) (subsLang a) (subsEmbed
    a) (fromFile a) (cookies a) (proxy a) (concurrent a) (noMtime a) (geoBypass a)
    (extractorArgs a) (geoBypassCountry a) (verbose a) (update a) (noPrompt a).
Definition set_subs (v : bool) (a : Args) : Args :=
  mkArgs (urls a) (format a) (formatProvided a) (audioOnly a) (audioFormat a) (outDir
    a) (outTemplate a) (playlist a) (rateLimit a) (retries a) v (subsLang a)
    (subsEmbed a) (fromFile a) (cookies a) (proxy a) (concurrent a) (noMtime a)
    (geoBypass a) (extractorArgs a) (geoBypassCountry a) (verbose a) (update a)
    (noPrompt a).
Definition set_subsLang (v : jsval) (a : Args) : Args :=
  mkArgs (urls a) (format a) (formatProvided a) (audioOnly a) (audioFormat a) (outDir
    a) (outTemplate a) (playlist a) (rateLimit a) (retries a) (subs a) v (subsEmbed a)
    (fromFile a) (cookies a) (proxy a) (concurrent a) (noMtime a) (geoBypass a)
    (extractorArgs a) (geoBypassCountry a) (verbose a) (update a) (noPrompt a).
Definition set_subsEmbed (v : bool) (a : Args) : Args :=
  mkArgs (urls a) (format a) (formatProvided a) (audioOnly a) (audioFormat a) (outDir
    a) (outTemplate a) (playlist a) (rateLimit a) (retries a) (subs a) (subsLang a) v
    (fromFile a) (cookies a) (proxy a) (concurrent a) (noMtime a) (geoBypass a)
    (extractorArgs a) (geoBypassCountry a) (verbose a) (update a) (noPrompt a).
Definition set_fromFile (v : jsval) (a : Args) : Args :=
  mkArgs (urls a) (format a) (formatProvided a) (audioOnly a) (audioFormat a) (outDir
    a) (outTemplate a) (playlist a) (rateLimit a) (retries a) (subs a) (subsLang a)
    (subsEmbed a) v (cookies a) (proxy a) (concurrent a) (noMtime a) (geoBypass a)
    (extractorArgs a) (geoBypassCountry a) (verbose a) (update a) (noPrompt a).
Definition set_cookies (v : jsval) (a : Args) : Args :=
  mkArgs (urls a) (format a) (formatProvided a) (audioOnly a) (audioFormat a) (outDir
    a) (outTemplate a) (playlist a) (rateLimit a) (retries a) (subs a) (subsLang a)
    (subsEmbed a) (fromFile a) v (proxy a) (concurrent a) (noMtime a) (geoBypass a)
    (extractorArgs a) (geoBypassCountry a) (verbose a) (update a) (noPrompt a).
Definition set_proxy (v : jsval) (a : Args) : Args :=
  mkArgs (urls a) (format a) (formatProvided a) (audioOnly a) (audioFormat a) (outDir
    a) (outTemplate a) (playlist a) (rateLimit a) (retries a) (subs a) (subsLang a)
    (subsEmbed a) (fromFile a) (cookies a) v (concurrent a) (noMtime a) (geoBypass a)
    (extractorArgs a) (geoBypassCountry a) (verbose a) (update a) (noPrompt a).
Definition set_concurrent (v : jsnum) (a : Args) : Args :=
  mkArgs (urls a) (format a) (formatProvided a) (audioOnly a) (audioFormat a) (outDir
    a) (outTemplate a) (playlist a) (rateLimit a) (retries a) (subs a) (subsLang a)
    (subsEmbed a) (fromFile a) (cookies a) (proxy a) v (noMtime a) (geoBypass a)
    (extractorArgs a) (geoBypassCountry a) (verbose a) (update a) (noPrompt a).
Definition set_noMtime (v : bool) (a : Args) : Args :=
  mkArgs (urls a) (format a) (formatProvided a) (audioOnly a) (audioFormat a) (outDir
    a) (outTemplate a) (playlist a) (rateLimit a) (retries a) (subs a) (subsLang a)
    (subsEmbed a) (fromFile a) (cookies a) (proxy a) (concurrent a) v (geoBypass a)
    (extractorArgs a) (geoBypassCountry a) (verbose a) (update a) (noPrompt a).
Definition set_geoBypass (v : bool) (a : Args) : Args :=
  mkArgs (urls a) (format a) (formatProvided a) (audioOnly a) (audioFormat a) (outDir
    a) (outTemplate a) (playlist a) (rateLimit a) (retries a) (subs a) (subsLang a)
    (subsEmbed a) (fromFile a) (cookies a) (proxy a) (concurrent a) (noMtime a) v
    (extractorArgs a) (geoBypassCountry a) (verbose a) (update a) (noPrompt a).
Definition set_extractorArgs (v : jsval) (a : Args) : Args :=
  mkArgs (urls a) (format a) (formatProvided a) (audioOnly a) (audioFormat a) (outDir
    a) (outTemplate a) (playlist a) (rateLimit a) (retries a) (subs a) (subsLang a)
    (subsEmbed a) (fromFile a) (cookies a) (proxy a) (concurrent a) (noMtime a)
    (geoBypass a) v (geoBypassCountry a) (verbose a) (update a) (noPrompt a).
Definition set_geoBypassCountry (v : jsval) (a : Args) : Args :=
  mkArgs (urls a) (format a) (formatProvided a) (audioOnly a) (audioFormat a) (outDir
    a) (outTemplate a) (playlist a) (rateLimit a) (retries a) (subs a) (subsLang a)
    (subsEmbed a) (fromFile a) (cookies a) (proxy a) (concurrent a) (noMtime a)
    (geoBypass a) (extractorArgs a) v (verbose a) (update a) (noPrompt a).
Definition set_verbose (v : bool) (a : Args) : Args :=
  mkArgs (urls a) (format a) (formatProvided a) (audioOnly a) (audioFormat a) (outDir
    a) (outTemplate a) (playlist a) (rateLimit a) (retries a) (subs a) (subsLang a)
    (subsEmbed a) (fromFile a) (cookies a) (proxy a) (concurrent a) (noMtime a)
    (geoBypass a) (extractorArgs a) (geoBypassCountry a) v (update a) (noPrompt a).
Definition set_update (v : bool) (a : Args) : Args :=
  mkArgs (urls a) (format a) (formatProvided a) (audioOnly a) (audioFormat a) (outDir
    a) (outTemplate a) (playlist a) (rateLimit a) (retries a) (subs a) (subsLang a)
    (subsEmbed a) (fromFile a) (cookies a) (proxy a) (concurrent a) (noMtime a)
    (geoBypass a) (extractorArgs a) (geoBypassCountry a) (verbose a) v (noPrompt a).
Definition set_noPrompt (v : bool) (a : Args) : Args :=
  mkArgs (urls a) (format a) (formatProvided a) (audioOnly a) (audioFormat a) (outDir
    a) (outTemplate a) (playlist a) (rateLimit a) (retries a) (subs a) (subsLang a)
    (subsEmbed a) (fromFile a) (cookies a) (proxy a) (concurrent a) (noMtime a)
    (geoBypass a) (extractorArgs a) (geoBypassCountry a) (verbose a) (update a) v.

Definition initialArgs : Args :=
  {| urls := [];
     format := Null;
     formatProvided := false;
     audioOnly := false;
     audioFormat := Str "m4a";
     outDir := Str "./downloads";
     outTemplate := Str DEFAULT_OUTPUT_TEMPLATE;
     playlist := true;
     rateLimit := Null;
     retries := MAX_RETRIES;
     subs := false;
     subsLang := Str DEFAULT_SUB_LANG;
     subsEmbed := true;
     fromFile := Null;
     cookies := Null;
     proxy := Null;
     concurrent := DEFAULT_CONCURRENCY;
     noMtime := true;
     geoBypass := true;
     extractorArgs := Null;
     geoBypassCountry := Null;
     verbose := false;
     update := false;
     noPrompt := false |}.

(** ** [parseArgs] *)

(** How a call can end: it returns, the process exits with a status after
    writing to the console, or an exception propagates to the caller. *)
Inductive result (A : Type) : Type :=
| Ok (a : A)
| Exit (code : Z) (out : list output)
| Throw.
Arguments Ok {A} a.
Arguments Exit {A} code out.
Arguments Throw {A}.

(** The argument iterator [it] is the list of the arguments not yet read:
    [it.next().value] is its head, or [undefined] once it is exhausted, and
    the call leaves the iterator one step further. *)
Definition next_value (it : list string) : jsval :=
  match it with
  | x :: _ => Str x
  | [] => Undefined
  end.

Definition advance (it : list string) : list string :=
  match it with
  | _ :: r => r
  | [] => it
  end.

(** The [for] loop over the iterator with its [switch]. *)
Fixpoint parseLoop (args : Args) (it : list string) : result Args :=
  match it with
  | [] => Ok args
  | v :: it1 =>
      if String.eqb v "--format" then
        parseLoop (set_formatProvided true (set_format (next_value it1) args)) (advance it1)
      else if String.eqb v "--audio" then
        parseLoop (set_audioOnly true args) it1
      else if String.eqb v "--audioFormat" then
        parseLoop (set_audioFormat (next_value it1) args) (advance it1)
      else if String.eqb v "--outDir" then
        parseLoop (set_outDir (next_value it1) args) (advance it1)
      else if String.eqb v "--outTemplate" then
        parseLoop (set_outTemplate (next_value it1) args) (advance it1)
      else if String.eqb v "--noPlaylist" then
        parseLoop (set_playlist false args) it1
      else if String.eqb v "--rateLimit" then
        parseLoop (set_rateLimit (next_value it1) args) (advance it1)
      else if String.eqb v "--retries" then
        parseLoop (set_retries (Number (next_value it1)) args) (advance it1)
      else if String.eqb v "--subs" then
        parseLoop (set_subs true args) it1
      else if String.eqb v "--lang" then
        parseLoop (set_subsLang (next_value it1) args) (advance it1)
      else if String.eqb v "--noEmbedSubs" then
        parseLoop (set_subsEmbed false args) it1
      else if String.eqb v "--fromFile" then
        parseLoop (set_fromFile (next_value it1) args) (advance it1)
      else if String.eqb v "--cookies" then
        parseLoop (set_cookies (next_value it1) args) (advance it1)
      else if String.eqb v "--proxy" then
        parseLoop (set_proxy (next_value it1) args) (advance it1)
      else if String.eqb v "--concurrent" then
        parseLoop (set_concurrent (Number (next_value it1)) args) (advance it1)
      else if String.eqb v "--noMtime" then
        parseLoop (set_noMtime true args) it1
      else if String.eqb v "--keepMtime" then
        parseLoop (set_noMtime false args) it1
      else if String.eqb v "--noGeoBypass" then
        parseLoop (set_geoBypass false args) it1
      else if String.eqb v "--geo" then
        parseLoop (set_geoBypassCountry (next_value it1) args) (advance it1)
      else if String.eqb v "--extractorArgs" then
        parseLoop (set_extractorArgs (next_value it1) args) (advance it1)
      else if String.eqb v "--verbose" then
        parseLoop (set_verbose true args) it1
      else if String.eqb v "--update" then
        parseLoop (set_update true args) it1
      else if String.eqb v "--noPrompt" then
        parseLoop (set_noPrompt true args) it1
      else if startsWith_dash v then Exit 1 [ErrUnknownOption v]
      else parseLoop (set_urls (urls args ++ [v]) args) it1
  end.

(** [readFileSync(path, "utf8")]: the text of the file, or [None] where the
    call throws. *)
Definition FileSystem : Type := string -> option string.

(** [data.split(/\r?\n/).map(s => s.trim()).filter(Boolean)] *)
Definition batchLines (data : string) : list string :=
  filter (fun s => negb (String.eqb s "")) (map trim (split_lines data)).

(** The [if (args.fromFile)] block. *)
Definition readBatch (fs : FileSystem) (args : Args) : result Args :=
  if truthy (fromFile args) then
    match fromFile args with
    | Str path =>
        match fs path with
        | Some data => Ok (set_urls (urls args ++ batchLines data) args)
        | None => Throw
        end
    | _ => Ok args
    end
  else Ok args.

Definition parseArgs (fs : FileSystem) (argv : list string) : result Args :=
  match parseLoop initialArgs (advance (advance argv)) with
  | Ok args =>
      match readBatch fs args with
      | Ok args' =>
          if Nat.eqb (length (urls args')) 0 then Exit 1 [ErrUsage] else Ok args'
      | other => other
      end
  | other => other
  end.

(** ** [ensureDir]

    [resolve(p)] throws on a value that is not a string; [dirs p] tells
    whether the directory exists or can be created. *)
Definition ensureDir (dirs : string -> bool) (p : jsval) : result string :=
  match p with
  | Str s => if dirs s then Ok s else Throw
  | _ => Throw
  end.

(** ** [chooseFormatInteractive]

    [answer] is the line the user types at the question.  The function
    returns the updated record and what it wrote: the menu and the question,
    when it prompts. *)
Definition FORMAT_1080 : string :=
  "bestvideo[ext=mp4][height<=1080]+bestaudio[ext=m4a]/best[ext=mp4]".
Definition FORMAT_720 : string :=
  "bestvideo[ext=mp4][height<=720]+bestaudio[ext=m4a]/best[ext=mp4]".
Definition FORMAT_480 : string :=
  "bestvideo[ext=mp4][height<=480]+bestaudio[ext=m4a]/best[ext=mp4]".

Definition chooseFormatInteractive (answer : string) (args : Args)
  : Args * list output :=
  if (noPrompt args || formatProvided args || audioOnly args)%bool then (args, [])
  else
    let choice := if String.eqb (trim answer) "" then "1" else trim answer in
    if String.eqb choice "1" then (set_format (Str FORMAT_1080) args, [LogMenu; AskChoice])
    else if String.eqb choice "2" then (set_format (Str FORMAT_720) args, [LogMenu; AskChoice])
    else if String.eqb choice "3" then (set_format (Str FORMAT_480) args, [LogMenu; AskChoice])
    else if String.eqb choice "4" then (set_audioOnly true args, [LogMenu; AskChoice])
    else (set_format (Str FORMAT_1080) args, [LogMenu; AskChoice; LogUnrecognisedChoice]).

(** ** The option bag handed to the external downloader

    The object literal [ytdlpArgs] of [downloadOne], as the list of its
    properties in the order they are written; each spread contributes the
    properties of the object it spreads. *)
Inductive optvalue : Type :=
| OTrue
| ONum (n : Z)
| OVal (v : jsval)
| OList (l : list string)
| OPath (dir template : string).   (* what [join(dir, template)] returns *)

Definition descriptor : Type := list (string * optvalue).

Definition spread_if (v : jsval) (key : string) : descriptor :=
  if truthy v then [(key, OVal v)] else [].

(** [None]: [join] throws a TypeError (a segment is not a string), before
    the [try] block is entered. *)
Definition ytdlpArgs (args : Args) : option descriptor :=
  match outDir args, outTemplate args with
  | Str dir, Str template =>
      Some
        ((if audioOnly args
          then [("extractAudio", OTrue);
                ("audioFormat", OVal (audioFormat args));
                ("audioQuality", OVal (Str "0"))]
          else [("format", OVal (js_or (format args) (Str DEFAULT_FORMAT_FALLBACK)))])
         ++ [("output", OPath dir template)]
         ++ (if noMtime args then [("no-mtime", OTrue)] else [])
         ++ [("fragment-retries", ONum 10);
             ("retries", ONum 5);
             ("concurrent-fragments", ONum 4)]
         ++ (if playlist args then [("yes-playlist", OTrue)] else [("no-playlist", OTrue)])
         ++ (if subs args
             then [("writeauto", OTrue);
                   ("subLangs", OVal (subsLang args));
                   ("subFormat", OVal (Str "srt/best"))]
                  ++ (if subsEmbed args then [("embedSubs", OTrue)] else [])
             else [])
         ++ spread_if (rateLimit args) "limitRate"
         ++ spread_if (cookies args) "cookies"
         ++ spread_if (proxy args) "proxy"
         ++ [("addHeader", OList ["User-Agent: Mozilla/5.0";
                                  "Accept-Language: en-US,en;q=0.9"])]
         ++ (if geoBypass args then [("geoBypass", OTrue)] else [("noGeoBypass", OTrue)])
         ++ spread_if (geoBypassCountry args) "geoBypassCountry"
         ++ spread_if (extractorArgs args) "extractorArgs"
         ++ (if update args then [("update", OTrue)] else [("no-update", OTrue)])
         ++ [("newline", OTrue)])
  | _, _ => None
  end.

Definition keys (d : descriptor) : list string := map fst d.

Definition has_key (k : string) (d : descriptor) : bool :=
  existsb (String.eqb k) (keys d).

Fixpoint lookup (k : string) (d : descriptor) : option optvalue :=
  match d with
  | (k', v) :: r => if String.eqb k k' then Some v else lookup k r
  | [] => None
  end.

(** ** [downloadOne]

    What one job does, in order: console output, calls of the external
    downloader and timer waits. *)
Inductive effect : Type :=
| Out (o : output)
| Invoke (url : string) (d : descriptor)
| Sleep (ms : Z).

(** [ext attempt] tells whether the call of the external downloader made at
    that attempt resolves.  The result is [Some (true, _)] when the promise
    of [downloadOne] fulfils, [Some (false, _)] when it rejects, with the
    effects up to then; [None] when [fuel] nested calls were not enough. *)
Fixpoint downloadOne (fuel : nat) (ext : Z -> bool) (url : string) (args : Args)
         (attempt : Z) : option (bool * list effect) :=
  match fuel with
  | O => None
  | S fuel' =>
      match ytdlpArgs args with
      | None => Some (false, [])
      | Some d =>
          if ext attempt then
            Some (true, [Out (LogDownloading url); Invoke url d; Out (LogOK url)])
          else
            let failed :=
              [Out (LogDownloading url); Invoke url d;
               Out (ErrAttempt url attempt (retries args))]
              ++ (if verbose args then [Out (ErrDetail url attempt)] else []) in
            if int_le attempt (retries args) then
              match downloadOne fuel' ext url args (attempt + 1) with
              | Some (ok, rest) => Some (ok, failed ++ Sleep (1500 * attempt) :: rest)
              | None => None
              end
            else Some (false, failed)
      end
  end.

(** ** The scheduler of [run]

    The variables [queue], [active] and [failures] of [run], and the promise
    chains [downloadOne(url, args).catch(..).finally(..)] that are pending.
    A chain is [Running] until the promise of [downloadOne] settles; its
    [catch] reaction then runs (the microtask queue is first in, first out,
    so the failures are pushed in the order the jobs settle) and the chain is
    [Settled] until its [finally] reaction runs.

    [started] and [outcomes] are history: the locators handed to
    [downloadOne] so far, and the jobs that have settled, with their result. *)

Inductive phase : Type := Running | Settled.

Record job : Type := mkJob {
  jid : nat;          (* position of the job in [started] *)
  jurl : string;
  jphase : phase
}.

Record Sched : Type := mkSched {
  queue : list string;
  active : Z;
  failures : list string;
  jobs : list job;
  started : list string;
  outcomes : list (string * bool)
}.

(** [const queue = [...args.urls]; let active = 0; const failures = [];] *)
Definition initSched (locators : list string) : Sched :=
  {| queue := locators; active := 0; failures := []; jobs := [];
     started := []; outcomes := [] |}.

(** [const url = queue.shift(); active += 1;
     downloadOne(url, args).catch(..).finally(..);]
    where [rest] is the queue after the shift. *)
Definition startJob (url : string) (rest : list string) (s : Sched) : Sched :=
  {| queue := rest;
     active := active s + 1;
     failures := failures s;
     jobs := jobs s ++ [mkJob (length (started s)) url Running];
     started := started s ++ [url];
     outcomes := outcomes s |}.

(** The [while (active < args.concurrent && queue.length > 0)] loop of
    [pump]; [q] is the queue. *)
Fixpoint pump_while (limit : jsnum) (q : list string) (s : Sched) : Sched :=
  match q with
  | nextUrl :: rest =>
      if int_lt (active s) limit
      then pump_while limit rest (startJob nextUrl rest s)
      else s
  | [] => s
  end.

Definition pump (limit : jsnum) (s : Sched) : Sched :=
  match queue s with
  | [] => s
  | url :: rest =>
      if int_ge (active s) limit then s
      else pump_while limit rest (startJob url rest s)
  end.

(** What the event loop delivers: the promise of the [i]-th pending chain
    settles (fulfilled when [ok]), or the [finally] reaction of the [i]-th
    pending chain runs. *)
Inductive event : Type :=
| Settle (i : nat) (ok : bool)
| Finally (i : nat).

Definition remove_nth {A : Type} (i : nat) (l : list A) : list A :=
  firstn i l ++ skipn (S i) l.

Definition replace_nth {A : Type} (i : nat) (x : A) (l : list A) : list A :=
  firstn i l ++ x :: skipn (S i) l.

(** [.catch(() => failures.push(url))] after the promise settled. *)
Definition settle (i : nat) (ok : bool) (s : Sched) : option Sched :=
  match nth_error (jobs s) i with
  | Some (mkJob id url Running) =>
      Some {| queue := queue s;
              active := active s;
              failures := if ok then failures s else failures s ++ [url];
              jobs := replace_nth i (mkJob id url Settled) (jobs s);
              started := started s;
              outcomes := outcomes s ++ [(url, ok)] |}
  | _ => None
  end.

(** [.finally(() => { active -= 1; pump(); })] *)
Definition finish (limit : jsnum) (i : nat) (s : Sched) : option Sched :=
  match nth_error (jobs s) i with
  | Some (mkJob _ _ Settled) =>
      Some (pump limit
              {| queue := queue s;
                 active := active s - 1;
                 failures := failures s;
                 jobs := remove_nth i (jobs s);
                 started := started s;
                 outcomes := outcomes s |})
  | _ => None
  end.

(** [allowed id url ok]: the job may settle that way; the scheduler itself
    lets every job settle either way. *)
Definition fire (allowed : nat -> string -> bool -> bool) (limit : jsnum)
           (e : event) (s : Sched) : option Sched :=
  match e with
  | Settle i ok =>
      match nth_error (jobs s) i with
      | Some j => if allowed (jid j) (jurl j) ok then settle i ok s else None
      | None => None
      end
  | Finally i => finish limit i s
  end.

Fixpoint exec (allowed : nat -> string -> bool -> bool) (limit : jsnum)
         (evs : list event) (s : Sched) : option Sched :=
  match evs with
  | [] => Some s
  | e :: r =>
      match fire allowed limit e s with
      | Some s' => exec allowed limit r s'
      | None => None
      end
  end.

Definition any_outcome : nat -> string -> bool -> bool := fun _ _ _ => true.

(** The states of a run with the given limit and locators: [await pump()],
    then any sequence of events. *)
Definition reachable (limit : jsnum) (locators : list string) (s : Sched) : Prop :=
  exists evs, exec any_outcome limit evs (pump limit (initSched locators)) = Some s.

(** The condition that ends [while (active > 0 || queue.length > 0)]. *)
Definition drained (s : Sched) : bool :=
  negb ((0 <? active s) || negb (Nat.eqb (length (queue s)) 0)).

(** ** The end of [run]: the summary and the exit status

    A run that returns normally leaves the process to end with status 0. *)
Definition report (failed : list string) : Z * list output :=
  if negb (Nat.eqb (length failed) 0)
  then (2, ErrCompletedWith (length failed) :: map ErrFailedUrl failed)
  else (0, [LogAllCompleted]).

(** ** [run]

    The world a run meets: the file system, the line [askQuestion] reads
    when the question is asked, the behaviour of the external downloader for
    the job started [id]-th at each attempt, and the order of the events.
    [run] is the program in a world whose standard input gives that line;
    [runOn] below adds the input that ends before a line is read. *)
Record World : Type := mkWorld {
  fs : FileSystem;
  dirs : string -> bool;
  answer : string;
  ext : nat -> Z -> bool;
  fuel : nat;
  events : list event
}.

Inductive RunResult : Type :=
| Exited (code : Z) (out : list output)   (* console output of [run] itself *)
| Waiting (s : Sched)                     (* still in the drain loop *)
| NoSuchRun.                              (* [events] is not a run of the program *)

Definition job_settles (w : World) (args : Args) (id : nat) (url : string)
           (ok : bool) : bool :=
  match downloadOne (fuel w) (ext w id) url args 1 with
  | Some (ok', _) => Bool.eqb ok ok'
  | None => false
  end.

(** [run().catch(e => { console.error(e); process.exit(1); })]: an exception
    of [parseArgs] or [ensureDir] ends the process with status 1.  The output
    of the jobs themselves, which interleaves freely, is left out of [out]. *)
Definition run (w : World) (argv : list string) : RunResult :=
  match parseArgs (fs w) argv with
  | Exit code out => Exited code out
  | Throw => Exited 1 [ErrUncaught]
  | Ok args0 =>
      match ensureDir (dirs w) (outDir args0) with
      | Ok _ =>
          let '(args, out1) := chooseFormatInteractive (answer w) args0 in
          let s0 := pump (concurrent args) (initSched (urls args)) in
          match exec (job_settles w args) (concurrent args) (events w) s0 with
          | Some s =>
              if drained s
              then let '(code, out2) := report (failures s) in
                   Exited code (out1 ++ out2)
              else Waiting s
          | None => NoSuchRun
          end
      | _ => Exited 1 [ErrUncaught]
      end
  end.


(** ** The command line, read as the usage text describes it

    The flags that take a value, the switches, and the reading of an argument
    list as a sequence of tokens.  [parseLoop] is compared with this reading
    in [parseLoop_tokens]. *)

Inductive valueFlag : Type :=
| F_format | F_audioFormat | F_outDir | F_outTemplate | F_rateLimit | F_retries
| F_lang | F_fromFile | F_cookies | F_proxy | F_concurrent | F_geo | F_extractorArgs.

Inductive switchFlag : Type :=
| F_audio | F_noPlaylist | F_subs | F_noEmbedSubs | F_noMtime | F_keepMtime
| F_noGeoBypass | F_verbose | F_update | F_noPrompt.

Definition valueFlag_name (f : valueFlag) : string :=
  match f with
  | F_format => "--format" | F_audioFormat => "--audioFormat"
  | F_outDir => "--outDir" | F_outTemplate => "--outTemplate"
  | F_rateLimit => "--rateLimit" | F_retries => "--retries"
  | F_lang => "--lang" | F_fromFile => "--fromFile"
  | F_cookies => "--cookies" | F_proxy => "--proxy"
  | F_concurrent => "--concurrent" | F_geo => "--geo"
  | F_extractorArgs => "--extractorArgs"
  end.

Definition switchFlag_name (f : switchFlag) : string :=
  match f with
  | F_audio => "--audio" | F_noPlaylist => "--noPlaylist" | F_subs => "--subs"
  | F_noEmbedSubs => "--noEmbedSubs" | F_noMtime => "--noMtime"
  | F_keepMtime => "--keepMtime" | F_noGeoBypass => "--noGeoBypass"
  | F_verbose => "--verbose" | F_update => "--update" | F_noPrompt => "--noPrompt"
  end.

Definition all_valueFlags : list valueFlag :=
  [F_format; F_audioFormat; F_outDir; F_outTemplate; F_rateLimit; F_retries;
   F_lang; F_fromFile; F_cookies; F_proxy; F_concurrent; F_geo; F_extractorArgs].

Definition all_switchFlags : list switchFlag :=
  [F_audio; F_noPlaylist; F_subs; F_noEmbedSubs; F_noMtime; F_keepMtime;
   F_noGeoBypass; F_verbose; F_update; F_noPrompt].

Definition valueFlag_of (v : string) : option valueFlag :=
  find (fun f => String.eqb v (valueFlag_name f)) all_valueFlags.

Definition switchFlag_of (v : string) : option switchFlag :=
  find (fun f => String.eqb v (switchFlag_name f)) all_switchFlags.

Inductive token : Type :=
| TValue (f : valueFlag) (v : jsval)   (* a flag and the argument after it *)
| TSwitch (f : switchFlag)
| TUnknown (v : string)                (* starts with a dash, not a flag *)
| TLocator (v : string).

Fixpoint tokens (it : list string) : list token :=
  match it with
  | [] => []
  | v :: it1 =>
      match valueFlag_of v with
      | Some f => TValue f (next_value it1) :: tokens (advance it1)
      | None =>
          match switchFlag_of v with
          | Some f => TSwitch f :: tokens it1
          | None =>
              if startsWith_dash v then TUnknown v :: tokens it1
              else TLocator v :: tokens it1
          end
      end
  end.

(** What each flag stores, by the usage text. *)
Definition assign (f : valueFlag) (v : jsval) (a : Args) : Args :=
  match f with
  | F_format => set_formatProvided true (set_format v a)
  | F_audioFormat => set_audioFormat v a
  | F_outDir => set_outDir v a
  | F_outTemplate => set_outTemplate v a
  | F_rateLimit => set_rateLimit v a
  | F_retries => set_retries (Number v) a
  | F_lang => set_subsLang v a
  | F_fromFile => set_fromFile v a
  | F_cookies => set_cookies v a
  | F_proxy => set_proxy v a
  | F_concurrent => set_concurrent (Number v) a
  | F_geo => set_geoBypassCountry v a
  | F_extractorArgs => set_extractorArgs v a
  end.

Definition toggle (f : switchFlag) (a : Args) : Args :=
  match f with
  | F_audio => set_audioOnly true a
  | F_noPlaylist => set_playlist false a
  | F_subs => set_subs true a
  | F_noEmbedSubs => set_subsEmbed false a
  | F_noMtime => set_noMtime true a
  | F_keepMtime => set_noMtime false a
  | F_noGeoBypass => set_geoBypass false a
  | F_verbose => set_verbose true a
  | F_update => set_update true a
  | F_noPrompt => set_noPrompt true a
  end.

Fixpoint applyTokens (a : Args) (ts : list token) : result Args :=
  match ts with
  | [] => Ok a
  | TValue f v :: r => applyTokens (assign f v a) r
  | TSwitch f :: r => applyTokens (toggle f a) r
  | TUnknown v :: _ => Exit 1 [ErrUnknownOption v]
  | TLocator v :: r => applyTokens (set_urls (urls a ++ [v]) a) r
  end.

(** The value stored for a flag that takes one: a string, [null] or
    [undefined], or a number for the two numeric flags. *)
Definition stored (f : valueFlag) (a : Args) : jsval + jsnum :=
  match f with
  | F_format => inl (format a)
  | F_audioFormat => inl (audioFormat a)
  | F_outDir => inl (outDir a)
  | F_outTemplate => inl (outTemplate a)
  | F_rateLimit => inl (rateLimit a)
  | F_retries => inr (retries a)
  | F_lang => inl (subsLang a)
  | F_fromFile => inl (fromFile a)
  | F_cookies => inl (cookies a)
  | F_proxy => inl (proxy a)
  | F_concurrent => inr (concurrent a)
  | F_geo => inl (geoBypassCountry a)
  | F_extractorArgs => inl (extractorArgs a)
  end.

Definition numeric (f : valueFlag) : bool :=
  match f with
  | F_retries | F_concurrent => true
  | _ => false
  end.

Definition as_stored (f : valueFlag) (v : jsval) : jsval + jsnum :=
  if numeric f then inr (Number v) else inl v.

Definition valueFlag_eqb (f g : valueFlag) : bool :=
  String.eqb (valueFlag_name f) (valueFlag_name g).

Definition switchFlag_eqb (f g : switchFlag) : bool :=
  String.eqb (switchFlag_name f) (switchFlag_name g).

(** The value given to flag [f]: the one of its last occurrence. *)
Fixpoint given (f : valueFlag) (ts : list token) : option jsval :=
  match ts with
  | [] => None
  | t :: r =>
      match given f r with
      | Some v => Some v
      | None =>
          match t with
          | TValue g v => if valueFlag_eqb f g then Some v else None
          | _ => None
          end
      end
  end.

(** Whether flag [f] is given at all. *)
Definition is_given (f : valueFlag) (ts : list token) : bool :=
  match given f ts with
  | Some _ => true
  | None => false
  end.

Definition switched (f : switchFlag) (ts : list token) : bool :=
  existsb (fun t => match t with TSwitch g => switchFlag_eqb f g | _ => false end) ts.

Definition has_unknown (ts : list token) : bool :=
  existsb (fun t => match t with TUnknown _ => true | _ => false end) ts.

Definition locators (ts : list token) : list string :=
  flat_map (fun t => match t with TLocator v => [v] | _ => [] end) ts.

(** The tokens of a command line: what follows the interpreter and the
    script. *)
Definition commandLine (argv : list string) : list token :=
  tokens (advance (advance argv)).

(** The locators read from the batch file named by [v]. *)
Definition batchOf (fs : FileSystem) (v : jsval) : list string :=
  match v with
  | Str path =>
      if String.eqb path "" then []
      else match fs path with
           | Some data => batchLines data
           | None => []
           end
  | _ => []
  end.

(** Lines joined by line feeds. *)
Fixpoint unlines (ls : list string) : string :=
  match ls with
  | [] => ""
  | [l] => l
  | l :: r => (l ++ String LF (unlines r))%string
  end.

Fixpoint no_line_break (s : string) : bool :=
  match s with
  | EmptyString => true
  | String c r => negb (Ascii.eqb c LF) && negb (Ascii.eqb c CR) && no_line_break r
  end.

(** ** Worlds and scenarios *)

Definition quiet : FileSystem := fun _ => None.
Definition argv0 : list string := ["node"; "download.mjs"].

(** The calls and the waits of one job that makes [n] attempts, the first
    of them numbered [k]: a call, then for each further attempt a wait of
    1500 ms times the number of the attempt that failed, and a call. *)
Fixpoint attemptPattern (url : string) (d : descriptor) (k : Z) (n : nat)
  : list effect :=
  match n with
  | O => []
  | S O => [Invoke url d]
  | S n' => Invoke url d :: Sleep (1500 * k) :: attemptPattern url d (k + 1) n'
  end.

Definition callsAndWaits (tr : list effect) : list effect :=
  filter (fun e => match e with Out _ => false | _ => true end) tr.

(** [subseq l m]: [l] is [m] with some elements left out, order kept. *)
Inductive subseq {A : Type} : list A -> list A -> Prop :=
| subseq_nil : subseq [] []
| subseq_skip x l m : subseq l m -> subseq l (x :: m)
| subseq_keep x l m : subseq l m -> subseq (x :: l) (x :: m).

(** A blank line: white space only. *)
Fixpoint blank (s : string) : bool :=
  match s with
  | EmptyString => true
  | String c r => isWhiteSpace c && blank r
  end.

(** The record [parseArgs] returns, from the one the loop leaves. *)
Definition withBatch (fs : FileSystem) (a0 : Args) : Args :=
  set_urls (urls a0 ++ batchOf fs (fromFile a0)) a0.

(** The value of [args.fromFile] after the loop. *)
Definition batchFile (ts : list token) : jsval :=
  match given F_fromFile ts with
  | Some v => v
  | None => Null
  end.

(** The locators a command line resolves to, where the batch file, if one is
    named, can be read. *)
Definition resolved (fs : FileSystem) (ts : list token) : list string :=
  locators ts ++ batchOf fs (batchFile ts).

Definition batchReadable (fs : FileSystem) (ts : list token) : bool :=
  match batchFile ts with
  | Str path =>
      if String.eqb path "" then true
      else match fs path with Some _ => true | None => false end
  | _ => true
  end.

(** A configuration the specification calls erroneous: no locator resolved,
    a value of [--retries] or [--concurrent] that is not a number, an unknown
    flag, or a concurrency that is not positive. *)
Definition configError (fs : FileSystem) (ts : list token) : Prop :=
  resolved fs ts = []
  \/ (exists v, (given F_retries ts = Some v \/ given F_concurrent ts = Some v)
                /\ Number v = NaN)
  \/ has_unknown ts = true
  \/ (exists v q, given F_concurrent ts = Some v /\ Number v = Fin q /\ (q <= 0)%Q).

(** A world where every directory can be made, no file can be read, the
    user just presses return and every download succeeds at once. *)
Definition calm (evs : list event) : World :=
  mkWorld quiet (fun _ => true) "" (fun _ _ => true) 10 evs.

(** A batch file [urls.txt] with a blank line, padding and a repeated line. *)
Definition batchText : string :=
  unlines ["https://a.example/1"; ""; "  https://b.example/2  "; "https://a.example/1"].

Definition withUrlsTxt : FileSystem :=
  fun path => if String.eqb path "urls.txt" then Some batchText else None.

Fixpoint distinct (l : list string) : bool :=
  match l with
  | [] => true
  | x :: r => negb (existsb (String.eqb x) r) && distinct r
  end.

Definition allKeys : list string :=
  ["extractAudio"; "audioFormat"; "audioQuality"; "format"]
  ++ ["output"]
  ++ ["no-mtime"]
  ++ ["fragment-retries"; "retries"; "concurrent-fragments"]
  ++ ["yes-playlist"; "no-playlist"]
  ++ ["writeauto"; "subLangs"; "subFormat"; "embedSubs"]
  ++ ["limitRate"]
  ++ ["cookies"]
  ++ ["proxy"]
  ++ ["addHeader"]
  ++ ["geoBypass"; "noGeoBypass"]
  ++ ["geoBypassCountry"]
  ++ ["extractorArgs"]
  ++ ["update"; "no-update"]
  ++ ["newline"].

(** The number of calls of the external downloader and the timer waits, in
    order, of a job. *)
Definition calls (tr : list effect) : nat :=
  length (filter (fun e => match e with Invoke _ _ => true | _ => false end) tr).

Definition waits (tr : list effect) : list Z :=
  flat_map (fun e => match e with Sleep ms => [ms] | _ => [] end) tr.

(** ** Invariants of the scheduler *)

Definition is_running (j : job) : bool :=
  match jphase j with
  | Running => true
  | Settled => false
  end.

Definition runningUrls (js : list job) : list string :=
  map jurl (filter is_running js).

Definition failedUrls (os : list (string * bool)) : list string :=
  map fst (filter (fun o => negb (snd o)) os).

(** Every locator is in the queue or has been started, once; the counter
    counts the pending chains; a started job has settled or is running; the
    failures are the jobs that rejected. *)
Definition Accounted (locs : list string) (s : Sched) : Prop :=
  started s ++ queue s = locs
  /\ active s = Z.of_nat (length (jobs s))
  /\ Permutation (started s) (map fst (outcomes s) ++ runningUrls (jobs s))
  /\ failures s = failedUrls (outcomes s).

(** While locators wait, the loop of [pump] would not start another job. *)
Definition Saturated (limit : jsnum) (s : Sched) : Prop :=
  queue s <> [] -> int_lt (active s) limit = false.

(** The last job started found the counter below the limit. *)
Definition Within (limit : jsnum) (s : Sched) : Prop :=
  0 < active s -> int_ge (active s - 1) limit = false.

(** While locators wait, some job is pending. *)
Definition Busy (s : Sched) : Prop :=
  queue s <> [] -> 0 < active s.

(** What holds after [await pump()] and after every event. *)
Definition Stable (limit : jsnum) (locs : list string) (s : Sched) : Prop :=
  Accounted locs s /\ Saturated limit s /\ Within limit s.

(** The second scenario of the specification: two locators, one job at a
    time, one retry; every call for the first job fails. *)
Definition firstFails : World :=
  mkWorld quiet (fun _ => true) "" (fun id _ => negb (Nat.eqb id 0)) 10
          [Settle 0 false; Finally 0; Settle 0 true; Finally 0].

Definition twoLocators : list string :=
  argv0 ++ ["--concurrent"; "1"; "--retries"; "1"; "--noPrompt"; "A"; "B"].

(** ** Further readings of a command line and of a run *)

(** The first argument that is read as an unknown flag. *)
Fixpoint firstUnknown (ts : list token) : option string :=
  match ts with
  | [] => None
  | TUnknown v :: _ => Some v
  | _ :: r => firstUnknown r
  end.

(** The last of [--noMtime] ([true]) and [--keepMtime] ([false]) given. *)
Fixpoint lastMtime (ts : list token) : option bool :=
  match ts with
  | [] => None
  | t :: r =>
      match lastMtime r with
      | Some b => Some b
      | None =>
          match t with
          | TSwitch F_noMtime => Some true
          | TSwitch F_keepMtime => Some false
          | _ => None
          end
      end
  end.

(** How many calls of the external downloader a job makes at most, by the
    value of [args.retries]; [None]: there is no bound. *)
Definition maxAttempts (r : jsnum) : option Z :=
  match r with
  | NaN => Some 1
  | NegInf => Some 1
  | PosInf => None
  | Fin q => Some (Z.max 1 (Qfloor q + 1))
  end.

(** Lines each ended by CR LF but the last. *)
Fixpoint unlinesCRLF (ls : list string) : string :=
  match ls with
  | [] => ""
  | [l] => l
  | l :: r => (l ++ String CR (String LF (unlinesCRLF r)))%string
  end.

(** The three selectors of the menu. *)
Definition menuFormats : list string := [FORMAT_1080; FORMAT_720; FORMAT_480].

(** The answers the menu knows, after trimming. *)
Definition knownChoice (c : string) : bool :=
  existsb (String.eqb c) [""; "1"; "2"; "3"; "4"].

(** The number of events a state has seen: one per outcome, and one per job
    that was started and is no longer pending. *)
Definition eventsSoFar (s : Sched) : Z :=
  Z.of_nat (length (outcomes s)) + Z.of_nat (length (started s))
  - Z.of_nat (length (jobs s)).

(** ** The program on any standard input *)

(** Whether [chooseFormatInteractive] asks its question. *)
Definition asks (a : Args) : bool :=
  negb (noPrompt a || formatProvided a || audioOnly a).

(** The world [w] with [line] as the line read at the question. *)
Definition withAnswer (line : string) (w : World) : World :=
  mkWorld (fs w) (dirs w) line (ext w) (fuel w) (events w).

(** [input] is the line [askQuestion] reads, or [None] when standard input
    ends before a line: [rl.question] then never calls back, the promise of
    [askQuestion] never settles, and with nothing else pending the process
    ends with status 0, the menu and the question written and no job started.
    When nothing is asked the input plays no part. *)
Definition runOn (input : option string) (w : World) (argv : list string) : RunResult :=
  match input with
  | Some line => run (withAnswer line w) argv
  | None =>
      match parseArgs (fs w) argv with
      | Ok args0 =>
          match ensureDir (dirs w) (outDir args0) with
          | Ok _ => if asks args0 then Exited 0 [LogMenu; AskChoice] else run w argv
          | _ => run w argv
          end
      | _ => run w argv
      end
  end.

(** * Properties *)

(** ** The argument loop against the token reading *)

Lemma iterator_ind (P : list string -> Prop) :
  P [] ->
  (forall v it1, P it1 -> P (advance it1) -> P (v :: it1)) ->
  forall it, P it.
Proof.
  intros Hnil Hcons it.
  assert (H : P it /\ P (advance it)).
  { induction it as [|v it1 [IH1 IH2]]; simpl; split; auto. }
  exact (proj1 H).
Qed.

Local Arguments String.eqb : simpl never.

Ltac flag_case v lit :=
  let E := fresh "E" in
  destruct (String.eqb v lit) eqn:E;
  [ apply String.eqb_eq in E; subst v; vm_compute find | ].

Lemma parseLoop_tokens (it : list string) :
  forall a, parseLoop a it = applyTokens a (tokens it).
Proof.
  induction it as [|v it1 IH1 IH2] using iterator_ind; intros a; [reflexivity|].
  cbn [parseLoop tokens]. unfold valueFlag_of, switchFlag_of.
  repeat match goal with
         | |- context [if String.eqb v ?lit then _ else _] =>
             flag_case v lit; [cbn [applyTokens assign toggle]; first [apply IH1 | apply IH2] |]
         end.
  cbn [find all_valueFlags all_switchFlags valueFlag_name switchFlag_name].
  repeat match goal with
         | H : String.eqb v _ = false |- _ => rewrite H; clear H
         end.
  destruct (startsWith_dash v); cbn [applyTokens]; [reflexivity | apply IH1].
Qed.

(** ** What the tokens do to the record *)

Lemma stored_assign f g v a :
  stored f (assign g v a) = if valueFlag_eqb f g then as_stored f v else stored f a.
Proof. destruct f, g; reflexivity. Qed.

Lemma stored_toggle f g a : stored f (toggle g a) = stored f a.
Proof. destruct f, g; reflexivity. Qed.

Lemma applyTokens_stored ts :
  forall a a' f,
    applyTokens a ts = Ok a' ->
    stored f a' = match given f ts with
                  | Some v => as_stored f v
                  | None => stored f a
                  end.
Proof.
  induction ts as [|t r IH]; intros a a' f H; cbn [applyTokens given] in *.
  - injection H as <-. reflexivity.
  - destruct t as [g v|g|v|v]; try discriminate;
      rewrite (IH _ _ f H); destruct (given f r); try reflexivity.
    + rewrite stored_assign. destruct (valueFlag_eqb f g); reflexivity.
    + apply stored_toggle.
Qed.

Lemma applyTokens_urls ts :
  forall a a', applyTokens a ts = Ok a' -> urls a' = urls a ++ locators ts.
Proof.
  induction ts as [|t r IH]; intros a a' H; cbn [applyTokens] in *.
  - injection H as <-. symmetry. apply app_nil_r.
  - destruct t as [g v|g|v|v]; try discriminate; rewrite (IH _ _ H).
    + destruct g; reflexivity.
    + destruct g; reflexivity.
    + cbn. rewrite <- app_assoc. reflexivity.
Qed.

Lemma applyTokens_audioOnly ts :
  forall a a', applyTokens a ts = Ok a' ->
               audioOnly a' = (audioOnly a || switched F_audio ts)%bool.
Proof.
  induction ts as [|t r IH]; intros a a' H; cbn [applyTokens] in *.
  - injection H as <-. symmetry. apply orb_false_r.
  - destruct t as [g v|g|v|v]; try discriminate; rewrite (IH _ _ H).
    + destruct g; reflexivity.
    + destruct g; cbn; try reflexivity. now rewrite orb_true_r.
    + reflexivity.
Qed.

Lemma applyTokens_noPrompt ts :
  forall a a', applyTokens a ts = Ok a' ->
               noPrompt a' = (noPrompt a || switched F_noPrompt ts)%bool.
Proof.
  induction ts as [|t r IH]; intros a a' H; cbn [applyTokens] in *.
  - injection H as <-. symmetry. apply orb_false_r.
  - destruct t as [g v|g|v|v]; try discriminate; rewrite (IH _ _ H).
    + destruct g; reflexivity.
    + destruct g; cbn; try reflexivity. now rewrite orb_true_r.
    + reflexivity.
Qed.

Lemma is_given_cons f t r :
  is_given f (t :: r)
  = (match t with TValue g _ => valueFlag_eqb f g | _ => false end || is_given f r)%bool.
Proof.
  unfold is_given. cbn [given]. destruct (given f r).
  - now rewrite orb_true_r.
  - rewrite orb_false_r. destruct t as [g v| | |]; try reflexivity.
    destruct (valueFlag_eqb f g); reflexivity.
Qed.

Lemma applyTokens_formatProvided ts :
  forall a a', applyTokens a ts = Ok a' ->
               formatProvided a' = (formatProvided a || is_given F_format ts)%bool.
Proof.
  induction ts as [|t r IH]; intros a a' H; cbn [applyTokens] in *.
  - injection H as <-. symmetry. apply orb_false_r.
  - rewrite is_given_cons.
    destruct t as [g v|g|v|v]; try discriminate; rewrite (IH _ _ H).
    + destruct g; cbn; try reflexivity. now rewrite orb_true_r.
    + destruct g; reflexivity.
    + reflexivity.
Qed.

Lemma applyTokens_unknown ts :
  forall a,
    if has_unknown ts
    then exists v, In (TUnknown v) ts /\ applyTokens a ts = Exit 1 [ErrUnknownOption v]
    else exists a', applyTokens a ts = Ok a'.
Proof.
  induction ts as [|t r IH]; intros a; cbn [applyTokens has_unknown existsb].
  - eauto.
  - destruct t as [g v|g|v|v]; cbn [orb].
    + specialize (IH (assign g v a)). unfold has_unknown in IH.
      destruct (existsb _ r).
      * destruct IH as (u & Hin & ->). exists u. split; [now right | reflexivity].
      * exact IH.
    + specialize (IH (toggle g a)). unfold has_unknown in IH.
      destruct (existsb _ r).
      * destruct IH as (u & Hin & ->). exists u. split; [now right | reflexivity].
      * exact IH.
    + exists v. split; [now left | reflexivity].
    + specialize (IH (set_urls (urls a ++ [v]) a)). unfold has_unknown in IH.
      destruct (existsb _ r).
      * destruct IH as (u & Hin & ->). exists u. split; [now right | reflexivity].
      * exact IH.
Qed.

(** ** [parseArgs] in terms of the tokens *)

Lemma set_urls_same a : set_urls (urls a) a = a.
Proof. destruct a; reflexivity. Qed.

Lemma readBatch_cases fs a0 :
  readBatch fs a0
  = if batchReadable fs [TValue F_fromFile (fromFile a0)]
    then Ok (withBatch fs a0) else Throw.
Proof.
  unfold readBatch, batchReadable, batchFile, withBatch, batchOf, truthy.
  cbn [given valueFlag_eqb].
  replace (valueFlag_eqb F_fromFile F_fromFile) with true by reflexivity.
  destruct (fromFile a0) as [| |path]; cbn [negb];
    try (rewrite app_nil_r, set_urls_same; reflexivity).
  destruct (String.eqb path ""); cbn [negb].
  - rewrite app_nil_r, set_urls_same; reflexivity.
  - destruct (fs path); reflexivity.
Qed.

Lemma applyTokens_fromFile ts a0 :
  applyTokens initialArgs ts = Ok a0 -> fromFile a0 = batchFile ts.
Proof.
  intros H. pose proof (applyTokens_stored ts _ _ F_fromFile H) as S.
  unfold batchFile. cbn [stored] in S.
  destruct (given F_fromFile ts); cbn in S; congruence.
Qed.

(** The three ways [parseArgs] ends. *)
Lemma parseArgs_cases fs argv :
  let ts := commandLine argv in
  if has_unknown ts then
    exists v, In (TUnknown v) ts /\ parseArgs fs argv = Exit 1 [ErrUnknownOption v]
  else
    exists a0,
      applyTokens initialArgs ts = Ok a0 /\
      parseArgs fs argv
      = if batchReadable fs ts then
          if Nat.eqb (length (resolved fs ts)) 0 then Exit 1 [ErrUsage]
          else Ok (withBatch fs a0)
        else Throw.
Proof.
  intros ts. unfold parseArgs. rewrite parseLoop_tokens. fold (commandLine argv). fold ts.
  pose proof (applyTokens_unknown ts initialArgs) as U.
  destruct (has_unknown ts).
  - destruct U as (v & Hin & ->). eauto.
  - destruct U as (a0 & Ha0). exists a0. split; [exact Ha0|]. rewrite Ha0.
    rewrite readBatch_cases.
    pose proof (applyTokens_fromFile _ _ Ha0) as F.
    pose proof (applyTokens_urls _ _ _ Ha0) as Us. cbn [urls initialArgs app] in Us.
    unfold batchReadable at 1. unfold batchFile at 1. cbn [given].
    replace (valueFlag_eqb F_fromFile F_fromFile) with true by reflexivity.
    fold (batchReadable fs ts). rewrite F.
    change (match batchFile ts with
            | Str path => if String.eqb path "" then true
                          else match fs path with Some _ => true | None => false end
            | _ => true end) with (batchReadable fs ts).
    destruct (batchReadable fs ts); [|reflexivity].
    unfold withBatch at 1. cbn [urls set_urls]. rewrite Us, F. reflexivity.
Qed.

Lemma parseArgs_Ok fs argv a :
  parseArgs fs argv = Ok a ->
  exists a0,
    applyTokens initialArgs (commandLine argv) = Ok a0 /\
    a = withBatch fs a0 /\
    urls a = resolved fs (commandLine argv) /\
    urls a <> [].
Proof.
  intros H. pose proof (parseArgs_cases fs argv) as C. cbv zeta in C.
  destruct (has_unknown (commandLine argv)).
  - destruct C as (v & _ & E). congruence.
  - destruct C as (a0 & Ha0 & E). exists a0. rewrite E in H.
    destruct (batchReadable fs (commandLine argv)); [|discriminate].
    destruct (Nat.eqb (length (resolved fs (commandLine argv))) 0) eqn:L; [discriminate|].
    injection H as <-. repeat split; auto.
    + unfold withBatch, resolved. cbn [urls set_urls].
      rewrite (applyTokens_urls _ _ _ Ha0), (applyTokens_fromFile _ _ Ha0). reflexivity.
    + unfold withBatch. cbn [urls set_urls].
      rewrite (applyTokens_urls _ _ _ Ha0), (applyTokens_fromFile _ _ Ha0).
      cbn [urls initialArgs app]. fold (resolved fs (commandLine argv)).
      intros Z0. rewrite Z0 in L. discriminate.
Qed.

(** ** Lines of the batch file *)

Lemma split_from_line l :
  no_line_break l = true ->
  forall cur rest,
    split_from cur (l ++ String LF rest)%string
    = string_of_list_ascii (rev cur ++ list_ascii_of_string l) :: split_from [] rest.
Proof.
  induction l as [|c r IH]; intros H cur rest; cbn [String.append split_from].
  - rewrite Ascii.eqb_refl. cbn. now rewrite app_nil_r.
  - cbn [no_line_break] in H. apply andb_true_iff in H as [H Hr].
    apply andb_true_iff in H as [H1 H2].
    apply negb_true_iff in H1, H2. rewrite H1, H2.
    rewrite (IH Hr). cbn [rev list_ascii_of_string]. now rewrite <- app_assoc.
Qed.

Lemma split_from_last l :
  no_line_break l = true ->
  forall cur, split_from cur l = [string_of_list_ascii (rev cur ++ list_ascii_of_string l)].
Proof.
  induction l as [|c r IH]; intros H cur; cbn [split_from].
  - cbn. now rewrite app_nil_r.
  - cbn [no_line_break] in H. apply andb_true_iff in H as [H Hr].
    apply andb_true_iff in H as [H1 H2].
    apply negb_true_iff in H1, H2. rewrite H1, H2.
    rewrite (IH Hr). cbn [rev list_ascii_of_string]. now rewrite <- app_assoc.
Qed.

Lemma split_lines_unlines ls :
  ls <> [] ->
  Forall (fun l => no_line_break l = true) ls ->
  split_lines (unlines ls) = ls.
Proof.
  unfold split_lines. induction ls as [|l r IH]; intros Hne HF; [congruence|].
  inversion HF as [|? ? Hl Hr]; subst.
  destruct r as [|l' r'].
  - cbn [unlines]. rewrite split_from_last by assumption. cbn [rev app].
    now rewrite string_of_list_ascii_of_string.
  - change (unlines (l :: l' :: r')) with (l ++ String LF (unlines (l' :: r')))%string.
    rewrite split_from_line by assumption. cbn [rev app].
    rewrite string_of_list_ascii_of_string. f_equal. apply IH; [discriminate | assumption].
Qed.

Lemma trimEnd_blank s : blank s = true -> trimEnd s = "".
Proof.
  induction s as [|c r IH]; cbn [blank trimEnd]; [reflexivity|].
  intros H. apply andb_true_iff in H as [Hc Hr]. now rewrite (IH Hr), Hc.
Qed.

Lemma trimEnd_not_blank s : blank s = false -> trimEnd s <> "".
Proof.
  induction s as [|c r IH]; cbn [blank trimEnd]; [discriminate|].
  intros H. destruct (trimEnd r) eqn:E; [|discriminate].
  destruct (isWhiteSpace c); [|discriminate].
  cbn [andb] in H. now apply IH in H.
Qed.

Lemma blank_trimStart s : blank (trimStart s) = blank s.
Proof.
  induction s as [|c r IH]; cbn [blank trimStart]; [reflexivity|].
  destruct (isWhiteSpace c) eqn:E; cbn [blank andb]; [exact IH | now rewrite E].
Qed.

(** A line trims to the empty string exactly when it is blank. *)
Lemma trim_empty_blank s : String.eqb (trim s) "" = blank s.
Proof.
  unfold trim. destruct (blank s) eqn:B.
  - rewrite trimEnd_blank; [reflexivity | now rewrite blank_trimStart].
  - apply String.eqb_neq, trimEnd_not_blank. now rewrite blank_trimStart.
Qed.

Lemma batchLines_unlines ls :
  Forall (fun l => no_line_break l = true) ls ->
  batchLines (unlines ls) = map trim (filter (fun l => negb (blank l)) ls).
Proof.
  intros HF. unfold batchLines. destruct ls as [|l r]; [reflexivity|].
  rewrite split_lines_unlines by (assumption || discriminate).
  generalize (l :: r). clear. intros ls.
  induction ls as [|x xs IH]; cbn [map filter]; [reflexivity|].
  rewrite trim_empty_blank. destruct (blank x); cbn [negb map]; now rewrite IH.
Qed.

Lemma locators_subseq it : subseq (locators (tokens it)) it.
Proof.
  induction it as [|v it1 IH1 IH2] using iterator_ind; [constructor|].
  cbn [tokens].
  destruct (valueFlag_of v).
  - cbn [locators flat_map app]. fold (locators (tokens (advance it1))).
    constructor. destruct it1 as [|x r]; [exact IH2 | constructor; exact IH2].
  - destruct (switchFlag_of v); [constructor; exact IH1|].
    destruct (startsWith_dash v); cbn [locators flat_map app];
      fold (locators (tokens it1)); constructor; exact IH1.
Qed.

Lemma subseq_refl {A : Type} (l : list A) : subseq l l.
Proof. induction l; constructor; assumption. Qed.

Lemma subseq_trans {A : Type} (l m n : list A) :
  subseq l m -> subseq m n -> subseq l n.
Proof.
  intros H1 H2. revert l H1.
  induction H2 as [|x m n H2 IH|x m n H2 IH]; intros l H1.
  - exact H1.
  - constructor. now apply IH.
  - inversion H1; subst; constructor; now apply IH.
Qed.

Lemma advance_subseq (it : list string) : subseq (advance it) it.
Proof. destruct it; [constructor | constructor; apply subseq_refl]. Qed.

(** ** The locator list *)

Lemma withBatch_fromFile fs a0 : fromFile (withBatch fs a0) = fromFile a0.
Proof. reflexivity. Qed.

(** C9.  The locator list of a successful parse is the positional arguments,
    in the order they stand on the command line, followed by the lines of the
    batch file in file order, each trimmed, the blank ones dropped; nothing is
    deduplicated: every locator occurs as often as in the two sources
    together. *)
Theorem locators_arguments_then_batch (fs : FileSystem) (argv : list string) (a : Args) :
  parseArgs fs argv = Ok a ->
  urls a = locators (commandLine argv) ++ batchOf fs (fromFile a)
  /\ subseq (locators (commandLine argv)) argv
  /\ (forall path ls,
        fromFile a = Str path -> path <> "" -> fs path = Some (unlines ls) ->
        Forall (fun l => no_line_break l = true) ls ->
        batchOf fs (fromFile a) = map trim (filter (fun l => negb (blank l)) ls))
  /\ (forall u,
        count_occ string_dec (urls a) u
        = (count_occ string_dec (locators (commandLine argv)) u
           + count_occ string_dec (batchOf fs (fromFile a)) u)%nat).
Proof.
  intros H. destruct (parseArgs_Ok _ _ _ H) as (a0 & Ha0 & -> & Hu & _).
  rewrite withBatch_fromFile.
  assert (E : urls (withBatch fs a0)
              = locators (commandLine argv) ++ batchOf fs (fromFile a0)).
  { rewrite Hu. unfold resolved. now rewrite (applyTokens_fromFile _ _ Ha0). }
  split; [exact E|]. split.
  - unfold commandLine.
    eapply subseq_trans; [apply locators_subseq|].
    eapply subseq_trans; apply advance_subseq.
  - split.
    + intros path ls Hp Hne Hfs HF. rewrite Hp. cbn [batchOf].
      apply String.eqb_neq in Hne. rewrite Hne, Hfs.
      now apply batchLines_unlines.
    + intros u. rewrite E. apply count_occ_app.
Qed.

Lemma locators_arguments_then_batch_witness :
  exists a,
    parseArgs withUrlsTxt
      (argv0 ++ ["u1"; "--fromFile"; "urls.txt"; "u2"; "--noPlaylist"; "u1"]) = Ok a
    /\ urls a = ["u1"; "u2"; "u1";
                 "https://a.example/1"; "https://b.example/2"; "https://a.example/1"].
Proof.
  eexists. split; [vm_compute; reflexivity|].
  match goal with
  | |- urls ?a = _ =>
      exact (proj1 (locators_arguments_then_batch withUrlsTxt
                      (argv0 ++ ["u1"; "--fromFile"; "urls.txt"; "u2"; "--noPlaylist"; "u1"])
                      a eq_refl))
  end.
Defined.

(** ** Configuration errors *)

Lemma run_of_exit w argv code out :
  parseArgs (fs w) argv = Exit code out -> run w argv = Exited code out.
Proof. intros H. unfold run. now rewrite H. Qed.

(** C4, as the program has it.  An unknown flag, or a command line that
    resolves to no locator, makes [parseArgs] report the error and end the
    process with status 1, before [run] reaches the scheduler.  [parseArgs]
    ends the process for no other reason: the values of [--retries] and
    [--concurrent] are stored as [Number] returns them, NaN, zero and
    negative numbers included, and the parse succeeds. *)
Theorem usage_errors_exit_1 (w : World) (argv : list string) :
  let ts := commandLine argv in
  (has_unknown ts = true ->
   exists v, In (TUnknown v) ts
             /\ parseArgs (fs w) argv = Exit 1 [ErrUnknownOption v]
             /\ run w argv = Exited 1 [ErrUnknownOption v])
  /\ (has_unknown ts = false -> batchReadable (fs w) ts = true ->
      resolved (fs w) ts = [] ->
      parseArgs (fs w) argv = Exit 1 [ErrUsage] /\ run w argv = Exited 1 [ErrUsage])
  /\ (forall code out,
        parseArgs (fs w) argv = Exit code out ->
        code = 1 /\ (has_unknown ts = true \/ resolved (fs w) ts = []))
  /\ (has_unknown ts = false -> batchReadable (fs w) ts = true ->
      resolved (fs w) ts <> [] ->
      exists a, parseArgs (fs w) argv = Ok a
                /\ (forall v, given F_retries ts = Some v -> retries a = Number v)
                /\ (forall v, given F_concurrent ts = Some v -> concurrent a = Number v)).
Proof.
  intros ts. pose proof (parseArgs_cases (fs w) argv) as C. cbv zeta in C. fold ts in C.
  split; [|split; [|split]].
  - intros U. rewrite U in C. destruct C as (v & Hin & E).
    exists v. repeat split; auto using run_of_exit.
  - intros U R N. rewrite U in C. destruct C as (a0 & _ & E).
    rewrite R, N in E. cbn [length Nat.eqb] in E. auto using run_of_exit.
  - intros code out H. destruct (has_unknown ts).
    + destruct C as (v & _ & E). split; [congruence | now left].
    + destruct C as (a0 & _ & E). rewrite E in H.
      destruct (batchReadable (fs w) ts); [|discriminate].
      destruct (Nat.eqb (length (resolved (fs w) ts)) 0) eqn:L; [|discriminate].
      split; [congruence|]. right.
      apply Nat.eqb_eq in L. now apply length_zero_iff_nil.
  - intros U R N. rewrite U in C. destruct C as (a0 & Ha0 & E).
    rewrite R in E.
    destruct (Nat.eqb (length (resolved (fs w) ts)) 0) eqn:L.
    { apply Nat.eqb_eq, length_zero_iff_nil in L. contradiction. }
    exists (withBatch (fs w) a0). split; [exact E|]. split; intros v G.
    + pose proof (applyTokens_stored _ _ _ F_retries Ha0) as S.
      fold ts in S. rewrite G in S. cbn in S. now injection S.
    + pose proof (applyTokens_stored _ _ _ F_concurrent Ha0) as S.
      fold ts in S. rewrite G in S. cbn in S. now injection S.
Qed.

Lemma usage_errors_exit_1_witness :
  exists v,
    In (TUnknown v) (commandLine (argv0 ++ ["u"; "--bogus"]))
    /\ parseArgs quiet (argv0 ++ ["u"; "--bogus"]) = Exit 1 [ErrUnknownOption v]
    /\ run (calm []) (argv0 ++ ["u"; "--bogus"]) = Exited 1 [ErrUnknownOption v].
Proof.
  exact (proj1 (usage_errors_exit_1 (calm []) (argv0 ++ ["u"; "--bogus"])) eq_refl).
Defined.

(** C4 as the specification states it fails: with [--retries abc] the
    configuration is erroneous, yet the run downloads and ends with status 0;
    with [--concurrent 0] it is erroneous too, yet no run ever exits. *)
Lemma unchecked_numbers_counterexample :
  (configError quiet (commandLine (argv0 ++ ["--retries"; "abc"; "--noPrompt"; "u"]))
   /\ run (calm [Settle 0 true; Finally 0])
          (argv0 ++ ["--retries"; "abc"; "--noPrompt"; "u"])
      = Exited 0 [LogAllCompleted])
  /\ (configError quiet (commandLine (argv0 ++ ["--concurrent"; "0"; "--noPrompt"; "u"]))
      /\ forall evs code out,
           run (calm evs) (argv0 ++ ["--concurrent"; "0"; "--noPrompt"; "u"])
           <> Exited code out).
Proof.
  split; split.
  - right; left. exists (Str "abc"). split; [left|]; reflexivity.
  - reflexivity.
  - right; right; right. exists (Str "0"), 0%Q. repeat split. discriminate.
  - intros evs code out.
    destruct evs as [|[[|i] ok|[|i]] r]; vm_compute; discriminate.
Qed.

(** ** The option bag *)

Lemma distinct_NoDup l : distinct l = true -> NoDup l.
Proof.
  induction l as [|x r IH]; cbn [distinct]; intros H; constructor.
  - apply andb_true_iff in H as [H _]. apply negb_true_iff in H.
    intros Hin. assert (E : existsb (String.eqb x) r = true).
    { apply existsb_exists. exists x. split; [exact Hin | apply String.eqb_refl]. }
    congruence.
  - apply IH. now apply andb_true_iff in H as [_ H].
Qed.

Lemma map_if {A B : Type} (f : A -> B) (b : bool) (x y : list A) :
  map f (if b then x else y) = if b then map f x else map f y.
Proof. now destruct b. Qed.

Lemma Some_inj {A : Type} (x y : A) : Some x = Some y -> x = y.
Proof. congruence. Qed.

(** The keys of the bag depend on the switches only. *)
Lemma ytdlpArgs_keys args d :
  ytdlpArgs args = Some d ->
  keys d
  = (if audioOnly args then ["extractAudio"; "audioFormat"; "audioQuality"] else ["format"])
    ++ ["output"]
    ++ (if noMtime args then ["no-mtime"] else [])
    ++ ["fragment-retries"; "retries"; "concurrent-fragments"]
    ++ (if playlist args then ["yes-playlist"] else ["no-playlist"])
    ++ (if subs args
        then ["writeauto"; "subLangs"; "subFormat"]
             ++ (if subsEmbed args then ["embedSubs"] else [])
        else [])
    ++ (if truthy (rateLimit args) then ["limitRate"] else [])
    ++ (if truthy (cookies args) then ["cookies"] else [])
    ++ (if truthy (proxy args) then ["proxy"] else [])
    ++ ["addHeader"]
    ++ (if geoBypass args then ["geoBypass"] else ["noGeoBypass"])
    ++ (if truthy (geoBypassCountry args) then ["geoBypassCountry"] else [])
    ++ (if truthy (extractorArgs args) then ["extractorArgs"] else [])
    ++ (if update args then ["update"] else ["no-update"])
    ++ ["newline"].
Proof.
  unfold ytdlpArgs, spread_if, keys.
  destruct (outDir args); try discriminate. destruct (outTemplate args); try discriminate.
  intros H. apply Some_inj in H. subst d.
  unfold descriptor. repeat (rewrite ?map_app, ?map_if).
  cbn [map fst]. reflexivity.
Qed.

Lemma existsb_if {A : Type} (f : A -> bool) (b : bool) (x y : list A) :
  existsb f (if b then x else y) = if b then existsb f x else existsb f y.
Proof. now destruct b. Qed.

Lemma if_same {A : Type} (b : bool) (x : A) : (if b then x else x) = x.
Proof. now destruct b. Qed.

(** Decides [has_key k d] for a literal key [k], given
    [H : ytdlpArgs args = Some d], down to the switches it depends on. *)
Ltac key_eval H :=
  unfold has_key; rewrite (ytdlpArgs_keys _ _ H);
  repeat (rewrite ?existsb_app, ?existsb_if);
  repeat match goal with
         | |- context [existsb ?f ?l] =>
             let r := eval vm_compute in (existsb f l) in
             change (existsb f l) with r
         end;
  rewrite ?if_same; cbn [orb];
  repeat match goal with
         | |- context [if ?b then _ else _] => destruct b
         end;
  reflexivity.

Lemma lookup_has_key k d : has_key k d = false -> lookup k d = None.
Proof.
  unfold has_key, keys. induction d as [|[k' v] r IH]; cbn [map existsb lookup fst]; [reflexivity|].
  intros H. apply orb_false_iff in H as [H1 H2]. rewrite H1. now apply IH.
Qed.

(** What the first entries of the bag are. *)
Lemma ytdlpArgs_selector args d :
  ytdlpArgs args = Some d ->
  if audioOnly args
  then lookup "extractAudio" d = Some OTrue
       /\ lookup "audioFormat" d = Some (OVal (audioFormat args))
       /\ lookup "audioQuality" d = Some (OVal (Str "0"))
       /\ lookup "format" d = None
  else lookup "format" d = Some (OVal (js_or (format args) (Str DEFAULT_FORMAT_FALLBACK)))
       /\ lookup "extractAudio" d = None.
Proof.
  intros H.
  assert (K1 : has_key "format" d = negb (audioOnly args)) by key_eval H.
  assert (K2 : has_key "extractAudio" d = audioOnly args) by key_eval H.
  unfold ytdlpArgs in H.
  destruct (outDir args); try discriminate. destruct (outTemplate args); try discriminate.
  apply Some_inj in H.
  destruct (audioOnly args); subst d.
  - repeat split; try reflexivity. now apply lookup_has_key.
  - split; [reflexivity | now apply lookup_has_key].
Qed.

Lemma subseq_app {A : Type} (l1 m1 l2 m2 : list A) :
  subseq l1 m1 -> subseq l2 m2 -> subseq (l1 ++ l2) (m1 ++ m2).
Proof.
  intros H1 H2. induction H1; cbn [app]; try constructor; assumption.
Qed.

Lemma subseq_In {A : Type} (l m : list A) x : subseq l m -> In x l -> In x m.
Proof.
  induction 1 as [|y l m H IH|y l m H IH]; cbn [In]; intuition.
Qed.

Lemma subseq_NoDup {A : Type} (l m : list A) : subseq l m -> NoDup m -> NoDup l.
Proof.
  induction 1 as [|y l m H IH|y l m H IH]; intros N.
  - constructor.
  - inversion N; subst. auto.
  - inversion N; subst. constructor; [|auto].
    intros Hin. eauto using subseq_In.
Qed.

Ltac pick_subseq :=
  repeat first [apply subseq_keep | apply subseq_skip | apply subseq_nil].

(** Every key the bag can hold, in the order of the object literal. *)
Lemma ytdlpArgs_keys_subseq args d :
  ytdlpArgs args = Some d ->
  subseq (keys d) allKeys.
Proof.
  intros H. rewrite (ytdlpArgs_keys _ _ H). unfold allKeys.
  repeat (apply subseq_app;
          [ repeat match goal with
                   | |- context [if ?b then _ else _] => destruct b
                   end; cbn [app]; pick_subseq | ]).
  pick_subseq.
Qed.

(** C7, as the program has it.  The bag holds exactly one of [geoBypass] and
    [noGeoBypass], and it holds [geoBypassCountry] exactly when a country
    code is set, whatever the first two are.  Of each complementary pair
    ([geoBypass]/[noGeoBypass], [yes-playlist]/[no-playlist],
    [update]/[no-update], [format]/[extractAudio]) it holds exactly one
    member, and no key twice. *)
Theorem descriptor_complementary_pairs (args : Args) (d : descriptor) :
  ytdlpArgs args = Some d ->
  has_key "geoBypass" d = geoBypass args
  /\ has_key "noGeoBypass" d = negb (geoBypass args)
  /\ has_key "geoBypassCountry" d = truthy (geoBypassCountry args)
  /\ has_key "yes-playlist" d = playlist args
  /\ has_key "no-playlist" d = negb (playlist args)
  /\ has_key "update" d = update args
  /\ has_key "no-update" d = negb (update args)
  /\ has_key "format" d = negb (audioOnly args)
  /\ has_key "extractAudio" d = audioOnly args
  /\ NoDup (keys d).
Proof.
  intros H.
  repeat match goal with
         | |- _ /\ _ => split
         | |- has_key _ _ = _ => key_eval H
         end.
  apply (subseq_NoDup _ _ (ytdlpArgs_keys_subseq _ _ H)).
  apply distinct_NoDup. reflexivity.
Qed.

Lemma descriptor_complementary_pairs_witness :
  exists d,
    ytdlpArgs initialArgs = Some d
    /\ has_key "geoBypass" d = true
    /\ has_key "noGeoBypass" d = false
    /\ has_key "geoBypassCountry" d = false.
Proof.
  eexists. split; [reflexivity|].
  match goal with
  | |- has_key _ ?d = _ /\ _ =>
      pose proof (descriptor_complementary_pairs initialArgs d eq_refl) as (H1 & H2 & H3 & _)
  end.
  exact (conj H1 (conj H2 H3)).
Defined.

(** C7 as the specification states it fails: with [--geo AU] the bag holds
    the enable flag [geoBypass] and the country code together. *)
Lemma geo_flag_and_country_counterexample :
  exists a d,
    parseArgs quiet (argv0 ++ ["--geo"; "AU"; "https://a.example/1"]) = Ok a
    /\ ytdlpArgs a = Some d
    /\ lookup "geoBypass" d = Some OTrue
    /\ lookup "geoBypassCountry" d = Some (OVal (Str "AU")).
Proof. do 2 eexists. repeat split; reflexivity. Qed.

(** ** Option resolution *)

Lemma parsed_fields fs argv a :
  parseArgs fs argv = Ok a ->
  let ts := commandLine argv in
  audioOnly a = switched F_audio ts
  /\ noPrompt a = switched F_noPrompt ts
  /\ formatProvided a = is_given F_format ts
  /\ (forall f, stored f a = match given f ts with
                             | Some v => as_stored f v
                             | None => stored f initialArgs
                             end).
Proof.
  intros H ts. destruct (parseArgs_Ok _ _ _ H) as (a0 & Ha0 & -> & _). fold ts in Ha0.
  repeat split.
  - exact (applyTokens_audioOnly _ _ _ Ha0).
  - exact (applyTokens_noPrompt _ _ _ Ha0).
  - exact (applyTokens_formatProvided _ _ _ Ha0).
  - intros f. rewrite <- (applyTokens_stored _ _ _ f Ha0). destruct f; reflexivity.
Qed.

Lemma no_prompt_when_bypassed answer a :
  (noPrompt a || formatProvided a || audioOnly a)%bool = true ->
  chooseFormatInteractive answer a = (a, []).
Proof. unfold chooseFormatInteractive. now intros ->. Qed.

Lemma pair_inj {A B : Type} (a c : A) (b d : B) : (a, b) = (c, d) -> a = c /\ b = d.
Proof. intros H. split; congruence. Qed.

Lemma ytdlpArgs_exists args dir template :
  outDir args = Str dir -> outTemplate args = Str template ->
  exists d, ytdlpArgs args = Some d.
Proof. intros D T. unfold ytdlpArgs. rewrite D, T. eauto. Qed.

(** A job that returns has called the external downloader with the bag of
    its configuration. *)
Lemma downloadOne_calls n ext url args k ok tr d :
  ytdlpArgs args = Some d ->
  downloadOne n ext url args k = Some (ok, tr) ->
  In (Invoke url d) tr.
Proof.
  intros Hd H. destruct n as [|n]; [discriminate|]. cbn [downloadOne] in H.
  rewrite Hd in H. destruct (ext k).
  - apply Some_inj, pair_inj in H. destruct H as [_ <-]. right. now left.
  - destruct (int_le k (retries args)).
    + destruct (downloadOne n ext url args (k + 1)) as [[ok' rest]|]; [|discriminate].
      apply Some_inj, pair_inj in H. destruct H as [_ <-].
      apply in_or_app. left. apply in_or_app. left. right. now left.
    + apply Some_inj, pair_inj in H. destruct H as [_ <-].
      apply in_or_app. left. right. now left.
Qed.

(** C5.  After a successful parse: with [--audio] nothing is asked; with
    [--format X] nothing is asked and the selector of the resolved
    configuration is [X] (the one of the last [--format]); with neither, and
    [--noPrompt], nothing is asked.  In the last two cases, [--audio] absent
    and the output directory and template being strings, the option bag
    exists, every job that returns has called the external downloader with
    it, and its selector is [X] when [X] is not empty, the 1080p fallback
    with [--noPrompt] alone. *)
Theorem prompt_bypass (fs : FileSystem) (argv : list string) (a : Args) (answer : string) :
  parseArgs fs argv = Ok a ->
  let ts := commandLine argv in
  let resolvedArgs := fst (chooseFormatInteractive answer a) in
  let shown := snd (chooseFormatInteractive answer a) in
  (switched F_audio ts = true -> shown = [])
  /\ (forall X, given F_format ts = Some X -> shown = [] /\ format resolvedArgs = X)
  /\ (forall X,
        given F_format ts = Some (Str X) -> X <> "" -> switched F_audio ts = false ->
        (forall d, ytdlpArgs resolvedArgs = Some d ->
                   lookup "format" d = Some (OVal (Str X)))
        /\ (forall dir template,
              outDir a = Str dir -> outTemplate a = Str template ->
              exists d,
                ytdlpArgs resolvedArgs = Some d
                /\ lookup "format" d = Some (OVal (Str X))
                /\ forall n ext url k ok tr,
                     downloadOne n ext url resolvedArgs k = Some (ok, tr) ->
                     In (Invoke url d) tr))
  /\ (given F_format ts = None -> switched F_audio ts = false ->
      switched F_noPrompt ts = true ->
      shown = []
      /\ (forall d, ytdlpArgs resolvedArgs = Some d ->
                    lookup "format" d = Some (OVal (Str DEFAULT_FORMAT_FALLBACK))
                    /\ lookup "extractAudio" d = None)
      /\ (forall dir template,
            outDir a = Str dir -> outTemplate a = Str template ->
            exists d,
              ytdlpArgs resolvedArgs = Some d
              /\ lookup "format" d = Some (OVal (Str DEFAULT_FORMAT_FALLBACK))
              /\ lookup "extractAudio" d = None
              /\ forall n ext url k ok tr,
                   downloadOne n ext url resolvedArgs k = Some (ok, tr) ->
                   In (Invoke url d) tr)).
Proof.
  intros H ts resolvedArgs shown.
  destruct (parsed_fields _ _ _ H) as (HA & HN & HF & HS). fold ts in HA, HN, HF, HS.
  pose proof (HS F_format) as Hfmt. cbn [stored] in Hfmt. unfold is_given in HF.
  subst resolvedArgs shown.
  split; [|split; [|split]].
  - intros E. rewrite no_prompt_when_bypassed; [reflexivity|].
    rewrite HA, E. now rewrite !orb_true_r.
  - intros X G. rewrite G in HF, Hfmt.
    rewrite no_prompt_when_bypassed by (rewrite HF; now rewrite orb_true_r).
    cbn in *. split; congruence.
  - intros X G Hne NA. rewrite G in HF, Hfmt.
    rewrite no_prompt_when_bypassed by (rewrite HF; now rewrite orb_true_r).
    cbn [fst].
    assert (Sel : forall d, ytdlpArgs a = Some d ->
                            lookup "format" d = Some (OVal (Str X))).
    { intros d Hd. pose proof (ytdlpArgs_selector _ _ Hd) as S.
      rewrite HA, NA in S. destruct S as [S _]. rewrite S.
      cbn in Hfmt. injection Hfmt as ->. unfold js_or, truthy.
      apply String.eqb_neq in Hne. now rewrite Hne. }
    split; [exact Sel|]. intros dir template D T.
    destruct (ytdlpArgs_exists _ _ _ D T) as (d & Hd).
    exists d. split; [exact Hd|]. split; [now apply Sel|].
    intros n ext url k ok tr. now apply downloadOne_calls.
  - intros G NA NP. rewrite G in Hfmt. cbn in Hfmt.
    rewrite no_prompt_when_bypassed by now rewrite HN, NP.
    split; [reflexivity|]. cbn [fst].
    assert (Sel : forall d, ytdlpArgs a = Some d ->
                            lookup "format" d = Some (OVal (Str DEFAULT_FORMAT_FALLBACK))
                            /\ lookup "extractAudio" d = None).
    { intros d Hd. pose proof (ytdlpArgs_selector _ _ Hd) as S.
      rewrite HA, NA in S. destruct S as [S1 S2]. split; [|exact S2].
      rewrite S1. injection Hfmt as ->. reflexivity. }
    split; [exact Sel|]. intros dir template D T.
    destruct (ytdlpArgs_exists _ _ _ D T) as (d & Hd).
    exists d. split; [exact Hd|]. destruct (Sel d Hd) as [S1 S2].
    split; [exact S1|]. split; [exact S2|].
    intros n ext url k ok tr. now apply downloadOne_calls.
Qed.

(** ** The retry wrapper *)

Lemma int_le_whole j r : int_le j (Fin (inject_Z r)) = (j <=? r).
Proof.
  cbn [int_le]. destruct (j <=? r) eqn:E.
  - apply Qle_bool_iff. rewrite <- Zle_Qle. now apply Z.leb_le.
  - destruct (Qle_bool (inject_Z j) (inject_Z r)) eqn:Q; [|reflexivity].
    apply Qle_bool_iff in Q. rewrite <- Zle_Qle in Q. apply Z.leb_gt in E. lia.
Qed.

Lemma callsAndWaits_failed url d k lim (v : bool) rest :
  callsAndWaits
    (([Out (LogDownloading url); Invoke url d; Out (ErrAttempt url k lim)]
      ++ (if v then [Out (ErrDetail url k)] else []))
     ++ rest)
  = Invoke url d :: callsAndWaits rest.
Proof. destruct v; reflexivity. Qed.

Lemma attemptPattern_next url d k n :
  attemptPattern url d k (S (S n))
  = Invoke url d :: Sleep (1500 * k) :: attemptPattern url d (k + 1) (S n).
Proof. reflexivity. Qed.

(** The first [m] attempts from [k] on fail and the next one succeeds. *)
Lemma downloadOne_succeeds url args d r ext (m : nat) :
  ytdlpArgs args = Some d ->
  retries args = Fin (inject_Z r) ->
  forall k fuel,
    (m < fuel)%nat ->
    k + Z.of_nat m <= r + 1 ->
    (forall j, k <= j < k + Z.of_nat m -> ext j = false) ->
    ext (k + Z.of_nat m) = true ->
    exists tr,
      downloadOne fuel ext url args k = Some (true, tr)
      /\ callsAndWaits tr = attemptPattern url d k (S m).
Proof.
  intros Hd Hr. induction m as [|m IH]; intros k fuel Hf Hk Hfail Hok.
  - destruct fuel as [|fuel]; [lia|]. cbn [downloadOne]. rewrite Hd.
    replace (k + Z.of_nat 0) with k in Hok by lia. rewrite Hok.
    eexists. split; reflexivity.
  - destruct fuel as [|fuel]; [lia|]. cbn [downloadOne]. rewrite Hd.
    rewrite (Hfail k) by lia. rewrite Hr, int_le_whole.
    replace (k <=? r) with true by (symmetry; apply Z.leb_le; lia).
    destruct (IH (k + 1) fuel) as (tr & E & P); try lia.
    + intros j Hj. apply Hfail. lia.
    + replace (k + 1 + Z.of_nat m) with (k + Z.of_nat (S m)) by lia. exact Hok.
    + rewrite E. eexists. split; [reflexivity|].
      rewrite <- Hr.
      change (?x ++ Sleep ?ms :: tr) with (x ++ [Sleep ms] ++ tr).
      rewrite callsAndWaits_failed. cbn [callsAndWaits filter app].
      fold (callsAndWaits tr). rewrite P. reflexivity.
Qed.

(** All the [m + 1] attempts from [k] up to [retries + 1] fail. *)
Lemma downloadOne_exhausts url args d r ext (m : nat) :
  ytdlpArgs args = Some d ->
  retries args = Fin (inject_Z r) ->
  forall k fuel,
    (m < fuel)%nat ->
    k + Z.of_nat m = r + 1 ->
    (forall j, k <= j <= r + 1 -> ext j = false) ->
    exists tr,
      downloadOne fuel ext url args k = Some (false, tr)
      /\ callsAndWaits tr = attemptPattern url d k (S m).
Proof.
  intros Hd Hr. induction m as [|m IH]; intros k fuel Hf Hk Hfail.
  - destruct fuel as [|fuel]; [lia|]. cbn [downloadOne]. rewrite Hd.
    rewrite (Hfail k) by lia. rewrite Hr, int_le_whole.
    replace (k <=? r) with false by (symmetry; apply Z.leb_gt; lia).
    eexists. split; [reflexivity|]. rewrite <- Hr.
    rewrite <- (app_nil_r (_ ++ _)). rewrite callsAndWaits_failed. reflexivity.
  - destruct fuel as [|fuel]; [lia|]. cbn [downloadOne]. rewrite Hd.
    rewrite (Hfail k) by lia. rewrite Hr, int_le_whole.
    replace (k <=? r) with true by (symmetry; apply Z.leb_le; lia).
    destruct (IH (k + 1) fuel) as (tr & E & P); try lia.
    + intros j Hj. apply Hfail. lia.
    + rewrite E. eexists. split; [reflexivity|].
      rewrite <- Hr.
      change (?x ++ Sleep ?ms :: tr) with (x ++ [Sleep ms] ++ tr).
      rewrite callsAndWaits_failed. cbn [callsAndWaits filter app].
      fold (callsAndWaits tr). rewrite P. reflexivity.
Qed.

Lemma calls_callsAndWaits tr : calls (callsAndWaits tr) = calls tr.
Proof.
  unfold calls, callsAndWaits.
  induction tr as [|[o|u d|ms] r IH]; cbn [filter length]; auto.
Qed.

Lemma waits_callsAndWaits tr : waits (callsAndWaits tr) = waits tr.
Proof.
  unfold waits, callsAndWaits.
  induction tr as [|[o|u d|ms] r IH]; cbn [filter flat_map app]; auto.
  now rewrite IH.
Qed.

Lemma calls_attemptPattern url d n : forall k, calls (attemptPattern url d k n) = n.
Proof.
  induction n as [|[|n] IH]; intros k; try reflexivity.
  rewrite attemptPattern_next. unfold calls in *. cbn [filter length].
  now rewrite IH.
Qed.

Lemma waits_attemptPattern url d n :
  forall k,
    waits (attemptPattern url d k (S n))
    = map (fun i => 1500 * (k + Z.of_nat i)) (seq 0 n).
Proof.
  induction n as [|n IH]; intros k; [reflexivity|].
  rewrite attemptPattern_next. unfold waits in *. cbn [flat_map app].
  rewrite IH. cbn [seq map]. rewrite <- seq_shift, map_map.
  f_equal; [f_equal; lia|]. apply map_ext. intros i. f_equal. lia.
Qed.

(** C3.  With a whole retry limit [r >= 0] and enough fuel.  If the external
    call fails at every attempt, [downloadOne] makes exactly [r + 1] calls,
    waits 1500 ms times the attempt number after each but the last (1500,
    3000, ...), and rejects.  If the call first succeeds at attempt
    [k <= r + 1], it makes exactly [k] calls, with the same waits between
    them, and fulfils. *)
Theorem retry_wrapper_attempts
        (url : string) (args : Args) (d : descriptor) (r : Z) (ext : Z -> bool)
        (fuel : nat) :
  ytdlpArgs args = Some d ->
  retries args = Fin (inject_Z r) ->
  0 <= r ->
  (Z.to_nat r < fuel)%nat ->
  ((forall j, 1 <= j <= r + 1 -> ext j = false) ->
   exists tr,
     downloadOne fuel ext url args 1 = Some (false, tr)
     /\ callsAndWaits tr = attemptPattern url d 1 (Z.to_nat (r + 1))
     /\ calls tr = Z.to_nat (r + 1)
     /\ waits tr = map (fun i => 1500 * (1 + Z.of_nat i)) (seq 0 (Z.to_nat r)))
  /\ (forall k,
        1 <= k <= r + 1 ->
        (forall j, 1 <= j < k -> ext j = false) ->
        ext k = true ->
        exists tr,
          downloadOne fuel ext url args 1 = Some (true, tr)
          /\ callsAndWaits tr = attemptPattern url d 1 (Z.to_nat k)
          /\ calls tr = Z.to_nat k
          /\ waits tr = map (fun i => 1500 * (1 + Z.of_nat i)) (seq 0 (Z.to_nat k - 1))).
Proof.
  intros Hd Hr Hr0 Hf. split.
  - intros Hfail.
    destruct (downloadOne_exhausts url args d r ext (Z.to_nat r) Hd Hr 1 fuel)
      as (tr & E & P); try lia; [exact Hfail|].
    exists tr. replace (Z.to_nat (r + 1)) with (S (Z.to_nat r)) by lia.
    repeat split; [exact E | exact P | |].
    + rewrite <- calls_callsAndWaits, P. apply calls_attemptPattern.
    + rewrite <- waits_callsAndWaits, P. apply waits_attemptPattern.
  - intros k Hk Hfail Hok.
    destruct (downloadOne_succeeds url args d r ext (Z.to_nat (k - 1)) Hd Hr 1 fuel)
      as (tr & E & P); try lia.
    + intros j Hj. apply Hfail. lia.
    + replace (1 + Z.of_nat (Z.to_nat (k - 1))) with k by lia. exact Hok.
    + exists tr. replace (Z.to_nat k) with (S (Z.to_nat (k - 1))) by lia.
      replace (S (Z.to_nat (k - 1)) - 1)%nat with (Z.to_nat (k - 1)) by lia.
      repeat split; [exact E | exact P | |].
      * rewrite <- calls_callsAndWaits, P. apply calls_attemptPattern.
      * rewrite <- waits_callsAndWaits, P. apply waits_attemptPattern.
Qed.

Lemma retry_wrapper_attempts_witness :
  (exists tr,
     downloadOne 5 (fun _ => false) "https://a.example/1" initialArgs 1 = Some (false, tr)
     /\ calls tr = 3%nat /\ waits tr = [1500; 3000])
  /\ (exists tr,
        downloadOne 5 (fun k => k =? 2) "https://a.example/1" initialArgs 1 = Some (true, tr)
        /\ calls tr = 2%nat /\ waits tr = [1500]).
Proof.
  destruct (ytdlpArgs initialArgs) as [d|] eqn:Hd; [|discriminate].
  split.
  - destruct (proj1 (retry_wrapper_attempts "https://a.example/1" initialArgs d 2
                       (fun _ => false) 5 Hd eq_refl ltac:(lia) ltac:(cbn; lia))
                    (fun _ _ => eq_refl))
      as (tr & E & _ & C & W).
    exists tr. exact (conj E (conj C W)).
  - destruct (proj2 (retry_wrapper_attempts "https://a.example/1" initialArgs d 2
                       (fun k => k =? 2) 5 Hd eq_refl ltac:(lia) ltac:(cbn; lia))
                    2 ltac:(lia)
                    ltac:(intros j Hj; apply Z.eqb_neq; lia) eq_refl)
      as (tr & E & _ & C & W).
    exists tr. exact (conj E (conj C W)).
Defined.

Lemma downloadOne_invokes fuel :
  forall ext url args k ok tr u d,
    downloadOne fuel ext url args k = Some (ok, tr) ->
    In (Invoke u d) tr ->
    u = url /\ ytdlpArgs args = Some d.
Proof.
  induction fuel as [|fuel IH]; intros ext url args k ok tr u d H Hin; [discriminate|].
  cbn [downloadOne] in H.
  destruct (ytdlpArgs args) as [d0|] eqn:Hd.
  2:{ injection H as <- <-. destruct Hin. }
  destruct (ext k).
  - injection H as <- <-. cbn in Hin.
    destruct Hin as [E|[E|[E|[]]]]; try discriminate. injection E as <- <-. auto.
  - assert (Hv : ~ In (Invoke u d) (if verbose args then [Out (ErrDetail url k)] else [])).
    { destruct (verbose args); cbn; intuition discriminate. }
    assert (Hf : forall l,
               In (Invoke u d)
                  ([Out (LogDownloading url); Invoke url d0;
                    Out (ErrAttempt url k (retries args))] ++ l) ->
               (u = url /\ Some d0 = Some d) \/ In (Invoke u d) l).
    { intros l [E|[E|[E|E]]]; try discriminate; [injection E as <- <-|]; auto. }
    destruct (int_le k (retries args)).
    + destruct (downloadOne fuel ext url args (k + 1)) as [[ok' rest]|] eqn:R; [|discriminate].
      apply Some_inj, pair_inj in H. destruct H as [<- <-].
      rewrite <- app_assoc in Hin. apply Hf in Hin as [?|Hin]; [assumption|].
      apply in_app_or in Hin as [Hin|Hin]; [contradiction|].
      destruct Hin as [E|Hin]; [discriminate|]. rewrite <- Hd. eapply IH; eauto.
    + apply Some_inj, pair_inj in H. destruct H as [<- <-].
      apply Hf in Hin as [?|Hin]; [assumption|contradiction].
Qed.

Lemma prompt_bypass_witness :
  (exists a,
     parseArgs quiet (argv0 ++ ["--format"; "best"; "https://a.example/1"]) = Ok a
     /\ snd (chooseFormatInteractive "3" a) = []
     /\ format (fst (chooseFormatInteractive "3" a)) = Str "best")
  /\ (exists a d tr,
        parseArgs quiet (argv0 ++ ["--noPrompt"; "https://a.example/1"]) = Ok a
        /\ ytdlpArgs (fst (chooseFormatInteractive "3" a)) = Some d
        /\ lookup "format" d = Some (OVal (Str DEFAULT_FORMAT_FALLBACK))
        /\ downloadOne 3 (fun _ => true) "https://a.example/1"
                       (fst (chooseFormatInteractive "3" a)) 1 = Some (true, tr)
        /\ In (Invoke "https://a.example/1" d) tr).
Proof.
  split.
  - eexists. split; [vm_compute; reflexivity|].
    match goal with
    | |- snd (chooseFormatInteractive _ ?a) = _ /\ _ =>
        exact (proj1 (proj2 (prompt_bypass quiet
                               (argv0 ++ ["--format"; "best"; "https://a.example/1"])
                               a "3" eq_refl))
                     (Str "best") eq_refl)
    end.
  - destruct (parseArgs quiet (argv0 ++ ["--noPrompt"; "https://a.example/1"]))
      as [a| |] eqn:HP; try (exfalso; vm_compute in HP; discriminate).
    assert (Ha : Ok a = parseArgs quiet (argv0 ++ ["--noPrompt"; "https://a.example/1"]))
      by (now rewrite HP).
    vm_compute in Ha. injection Ha as Ha.
    destruct (proj2 (proj2 (proj2 (prompt_bypass quiet
                                     (argv0 ++ ["--noPrompt"; "https://a.example/1"])
                                     a "3" HP)))
                    eq_refl eq_refl eq_refl) as (_ & _ & Ex).
    destruct (Ex "./downloads" DEFAULT_OUTPUT_TEMPLATE) as (d & Hd & L & _ & Calls);
      [rewrite Ha; reflexivity | rewrite Ha; reflexivity |].
    destruct (downloadOne 3 (fun _ => true) "https://a.example/1"
                          (fst (chooseFormatInteractive "3" a)) 1) as [[ok tr]|] eqn:E;
      [|exfalso; rewrite Ha in E; vm_compute in E; discriminate].
    assert (ok = true).
    { destruct ok; [reflexivity|]. exfalso. rewrite Ha in E. vm_compute in E. discriminate. }
    subst ok. exists a, d, tr.
    exact (conj eq_refl (conj Hd (conj L (conj E (Calls _ _ _ _ _ _ E))))).
Defined.

(** C8.  When [--audio] and [--format] are both given, nothing is asked, and
    the bag of every call of the external downloader holds the audio
    extraction entries and no [format] entry. *)
Theorem audio_precedes_format
        (fs : FileSystem) (argv : list string) (a : Args) (answer : string) :
  parseArgs fs argv = Ok a ->
  switched F_audio (commandLine argv) = true ->
  is_given F_format (commandLine argv) = true ->
  chooseFormatInteractive answer a = (a, [])
  /\ forall fuel ext url k ok tr u d,
       downloadOne fuel ext url a k = Some (ok, tr) ->
       In (Invoke u d) tr ->
       lookup "extractAudio" d = Some OTrue
       /\ lookup "audioFormat" d = Some (OVal (audioFormat a))
       /\ lookup "audioQuality" d = Some (OVal (Str "0"))
       /\ lookup "format" d = None.
Proof.
  intros H HA HF.
  destruct (parsed_fields _ _ _ H) as (EA & _ & _ & _). rewrite HA in EA.
  split.
  - apply no_prompt_when_bypassed. rewrite EA. now rewrite orb_true_r.
  - intros fuel ext url k ok tr u d Hrun Hin.
    destruct (downloadOne_invokes _ _ _ _ _ _ _ _ _ Hrun Hin) as [_ Hd].
    pose proof (ytdlpArgs_selector _ _ Hd) as S. now rewrite EA in S.
Qed.

Lemma audio_precedes_format_witness :
  exists a tr d,
    parseArgs quiet (argv0 ++ ["--format"; "best"; "--audio"; "https://a.example/1"]) = Ok a
    /\ downloadOne 3 (fun _ => true) "https://a.example/1" a 1 = Some (true, tr)
    /\ In (Invoke "https://a.example/1" d) tr
    /\ lookup "extractAudio" d = Some OTrue
    /\ lookup "format" d = None.
Proof.
  do 3 eexists. split; [vm_compute; reflexivity|].
  split; [vm_compute; reflexivity|].
  split; [right; left; reflexivity|].
  match goal with
  | |- lookup _ ?d = _ /\ _ =>
      destruct (proj2 (audio_precedes_format quiet
                         (argv0 ++ ["--format"; "best"; "--audio"; "https://a.example/1"])
                         _ "" eq_refl eq_refl eq_refl)
                      3%nat (fun _ => true) "https://a.example/1" 1 true _
                      "https://a.example/1" d eq_refl (or_intror (or_introl eq_refl)))
        as (E1 & _ & _ & E4)
  end.
  exact (conj E1 E4).
Defined.

(** ** A flag left without its value *)

Lemma given_last f v ts : given f (ts ++ [TValue f v]) = Some v.
Proof.
  induction ts as [|t r IH]; cbn [app given].
  - unfold valueFlag_eqb. now rewrite String.eqb_refl.
  - now rewrite IH.
Qed.

Lemma has_unknown_last f v ts : has_unknown (ts ++ [TValue f v]) = has_unknown ts.
Proof. unfold has_unknown. rewrite existsb_app. cbn. now rewrite !orb_false_r. Qed.

Lemma switched_last g f v ts : switched g (ts ++ [TValue f v]) = switched g ts.
Proof. unfold switched. rewrite existsb_app. cbn. now rewrite !orb_false_r. Qed.

Lemma valueFlag_eqb_eq f g : valueFlag_eqb f g = true -> f = g.
Proof.
  destruct f, g; intros H; try reflexivity; vm_compute in H; discriminate.
Qed.

Lemma given_In f ts v : given f ts = Some v -> In (TValue f v) ts.
Proof.
  induction ts as [|t r IH]; cbn [given]; [discriminate|].
  destruct (given f r) as [v'|].
  - intros H. right. now apply IH.
  - destruct t as [g x| | |]; try discriminate.
    destruct (valueFlag_eqb f g) eqn:E; [|discriminate].
    intros H. injection H as ->. apply valueFlag_eqb_eq in E. subst g. now left.
Qed.

Lemma given_app_other g f v ts :
  valueFlag_eqb g f = false -> given g (ts ++ [TValue f v]) = given g ts.
Proof.
  intros E. induction ts as [|t r IH]; cbn [app given].
  - now rewrite E.
  - now rewrite IH.
Qed.

(** Only the last token can lack its value. *)
Lemma tokens_inner_values it :
  forall ts t,
    tokens it = ts ++ [t] ->
    forall g v, In (TValue g v) ts -> exists x, v = Str x.
Proof.
  induction it as [|v0 it1 IH1 IH2] using iterator_ind; intros ts t H g v Hin.
  - cbn in H. destruct ts; discriminate.
  - cbn [tokens] in H. destruct ts as [|t0 ts']; [destruct Hin|].
    cbn [app] in H.
    destruct (valueFlag_of v0) as [f|].
    + injection H as H0 H. destruct Hin as [E|Hin].
      * subst t0. injection E as _ <-. destruct it1 as [|x r]; [|cbn; eauto].
        cbn in H. destruct ts'; discriminate.
      * eapply IH2; eauto.
    + assert (Hc : exists t1, t1 :: tokens it1 = t0 :: ts' ++ [t]
                              /\ forall g v, t1 <> TValue g v).
      { destruct (switchFlag_of v0); [|destruct (startsWith_dash v0)];
          eexists; (split; [exact H | intros; discriminate]). }
      destruct Hc as (t1 & Hc & Nv). injection Hc as H0 H1. subst t1.
      destruct Hin as [E|Hin]; [elim (Nv g v); now symmetry|].
      eapply IH1; eauto.
Qed.

(** After a successful parse whose last token is a flag without its value,
    every other flag that takes a value holds a string or its default. *)
Lemma inner_value_is_string fs argv a f ts g :
  parseArgs fs argv = Ok a ->
  commandLine argv = ts ++ [TValue f Undefined] ->
  valueFlag_eqb g f = false ->
  numeric g = false ->
  (exists x, stored g initialArgs = inl (Str x)) ->
  exists x, stored g a = inl (Str x).
Proof.
  intros H Hts E Nn (x0 & D).
  destruct (parsed_fields _ _ _ H) as (_ & _ & _ & S).
  rewrite (S g), Hts, given_app_other by exact E.
  destruct (given g ts) as [v|] eqn:G; [|eauto].
  apply given_In in G.
  destruct (tokens_inner_values _ _ _ Hts _ _ G) as (x & ->).
  exists x. unfold as_stored. now rewrite Nn.
Qed.

(** C10.  When the last token of the command line is a flag that takes a
    value and nothing follows it: the loop does not fail on it; it stores
    [undefined], or NaN for [--retries] and [--concurrent]; the parse
    succeeds whenever the rest of the command line is in order.  For a
    trailing [--format]: [formatProvided] is set, nothing is asked, and,
    [--audio] absent, the option bag exists, its selector is the 1080p
    fallback, and every job that returns has called the external downloader
    with it. *)
Theorem trailing_value_flag
        (fs : FileSystem) (argv : list string) (f : valueFlag) (ts : list token) :
  commandLine argv = ts ++ [TValue f Undefined] ->
  (has_unknown ts = false ->
   exists a0, parseLoop initialArgs (advance (advance argv)) = Ok a0
              /\ stored f a0 = as_stored f Undefined)
  /\ (has_unknown ts = false -> batchReadable fs (commandLine argv) = true ->
      resolved fs (commandLine argv) <> [] ->
      exists a, parseArgs fs argv = Ok a)
  /\ (forall a,
        parseArgs fs argv = Ok a ->
        stored f a = (if numeric f then inr NaN else inl Undefined))
  /\ (f = F_format ->
      forall a answer,
        parseArgs fs argv = Ok a ->
        formatProvided a = true
        /\ format a = Undefined
        /\ chooseFormatInteractive answer a = (a, [])
        /\ (switched F_audio ts = false ->
            (forall d, ytdlpArgs a = Some d ->
                       lookup "format" d = Some (OVal (Str DEFAULT_FORMAT_FALLBACK)))
            /\ exists d,
                 ytdlpArgs a = Some d
                 /\ lookup "format" d = Some (OVal (Str DEFAULT_FORMAT_FALLBACK))
                 /\ forall n ext url k ok tr,
                      downloadOne n ext url a k = Some (ok, tr) ->
                      In (Invoke url d) tr)).
Proof.
  intros Hts.
  assert (Hstored : forall a, parseArgs fs argv = Ok a ->
                              stored f a = as_stored f Undefined).
  { intros a H. destruct (parsed_fields _ _ _ H) as (_ & _ & _ & S).
    rewrite (S f), Hts, given_last. reflexivity. }
  split; [|split; [|split]].
  - intros U. rewrite parseLoop_tokens. fold (commandLine argv).
    pose proof (applyTokens_unknown (commandLine argv) initialArgs) as A.
    rewrite Hts, has_unknown_last, U in A. destruct A as (a0 & Ha0).
    exists a0. rewrite Hts. split; [exact Ha0|].
    rewrite (applyTokens_stored _ _ _ f Ha0), given_last. reflexivity.
  - intros U R N.
    pose proof (parseArgs_cases fs argv) as C. cbv zeta in C.
    rewrite Hts, has_unknown_last, U in C. rewrite <- Hts in C.
    destruct C as (a0 & _ & E). rewrite R in E.
    destruct (Nat.eqb (length (resolved fs (commandLine argv))) 0) eqn:L.
    { apply Nat.eqb_eq, length_zero_iff_nil in L. contradiction. }
    eauto.
  - intros a H. rewrite (Hstored a H). destruct f; reflexivity.
  - intros -> a answer H.
    pose proof (Hstored a H) as S. cbn in S.
    destruct (parsed_fields _ _ _ H) as (A & _ & F & _).
    unfold is_given in F. rewrite Hts, given_last in F.
    rewrite Hts, switched_last in A.
    split; [exact F|]. split; [congruence|]. split.
    + apply no_prompt_when_bypassed. rewrite F. now rewrite orb_true_r.
    + intros NA. rewrite NA in A.
      assert (Sel : forall d, ytdlpArgs a = Some d ->
                              lookup "format" d
                              = Some (OVal (Str DEFAULT_FORMAT_FALLBACK))).
      { intros d Hd. pose proof (ytdlpArgs_selector _ _ Hd) as Sl. rewrite A in Sl.
        destruct Sl as [Sl _]. rewrite Sl. injection S as ->. reflexivity. }
      split; [exact Sel|].
      destruct (inner_value_is_string fs argv a F_format ts F_outDir H Hts
                  eq_refl eq_refl (ex_intro _ _ eq_refl)) as (dir & D).
      destruct (inner_value_is_string fs argv a F_format ts F_outTemplate H Hts
                  eq_refl eq_refl (ex_intro _ _ eq_refl)) as (template & T).
      cbn [stored] in D, T. injection D as D. injection T as T.
      destruct (ytdlpArgs_exists _ _ _ D T) as (d & Hd).
      exists d. split; [exact Hd|]. split; [now apply Sel|].
      intros n ext url k ok tr. now apply downloadOne_calls.
Qed.

Lemma trailing_value_flag_witness :
  exists a d tr,
    parseArgs quiet (argv0 ++ ["https://a.example/1"; "--format"]) = Ok a
    /\ formatProvided a = true
    /\ format a = Undefined
    /\ chooseFormatInteractive "2" a = (a, [])
    /\ ytdlpArgs a = Some d
    /\ lookup "format" d = Some (OVal (Str DEFAULT_FORMAT_FALLBACK))
    /\ downloadOne 3 (fun _ => true) "https://a.example/1" a 1 = Some (true, tr)
    /\ In (Invoke "https://a.example/1" d) tr.
Proof.
  destruct (parseArgs quiet (argv0 ++ ["https://a.example/1"; "--format"]))
    as [a| |] eqn:HP; try (exfalso; vm_compute in HP; discriminate).
  assert (Ha : Ok a = parseArgs quiet (argv0 ++ ["https://a.example/1"; "--format"]))
    by (now rewrite HP).
  vm_compute in Ha. injection Ha as Ha.
  destruct (proj2 (proj2 (proj2
              (trailing_value_flag quiet
                 (argv0 ++ ["https://a.example/1"; "--format"]) F_format
                 [TLocator "https://a.example/1"] eq_refl)))
              eq_refl a "2" HP)
    as (E1 & E2 & E3 & E4).
  destruct (E4 eq_refl) as (_ & d & Hd & L & Calls).
  destruct (downloadOne 3 (fun _ => true) "https://a.example/1" a 1)
    as [[ok tr]|] eqn:E;
    [|exfalso; rewrite Ha in E; vm_compute in E; discriminate].
  assert (ok = true).
  { destruct ok; [reflexivity|]. exfalso. rewrite Ha in E. vm_compute in E. discriminate. }
  subst ok. exists a, d, tr.
  exact (conj eq_refl (conj E1 (conj E2 (conj E3 (conj Hd (conj L
           (conj E (Calls _ _ _ _ _ _ E)))))))).
Defined.

(** ** The scheduler *)

Lemma int_ge_lt n x : int_ge n x = true -> int_lt n x = false.
Proof. destruct x; cbn; try congruence. now intros ->. Qed.

Lemma int_lt_ge n x : int_lt n x = true -> int_ge n x = false.
Proof. destruct x; cbn; try congruence. intros H. now apply negb_true_iff in H. Qed.

Lemma int_ge_down n x : int_ge n x = false -> int_ge (n - 1) x = false.
Proof.
  destruct x; cbn; try congruence. intros H.
  destruct (Qle_bool q (inject_Z (n - 1))) eqn:E; [|reflexivity].
  apply Qle_bool_iff in E.
  assert (L : (q <= inject_Z n)%Q).
  { eapply Qle_trans; [exact E|]. rewrite <- Zle_Qle. lia. }
  apply Qle_bool_iff in L. congruence.
Qed.

Lemma runningUrls_app js1 js2 : runningUrls (js1 ++ js2) = runningUrls js1 ++ runningUrls js2.
Proof. unfold runningUrls. now rewrite filter_app, map_app. Qed.

Lemma nth_error_split {A : Type} (l : list A) i x :
  nth_error l i = Some x -> l = firstn i l ++ x :: skipn (S i) l.
Proof.
  revert l. induction i as [|i IH]; intros [|y l] H; try discriminate.
  - now injection H as ->.
  - cbn [firstn skipn app]. f_equal. now apply IH.
Qed.

Lemma remove_nth_length {A : Type} (l : list A) i x :
  nth_error l i = Some x -> S (length (remove_nth i l)) = length l.
Proof.
  intros H. rewrite (nth_error_split l i x H) at 2. unfold remove_nth.
  rewrite !length_app. cbn [length]. lia.
Qed.

Lemma replace_nth_length {A : Type} (l : list A) i x y :
  nth_error l i = Some x -> length (replace_nth i y l) = length l.
Proof.
  intros H. rewrite (nth_error_split l i x H) at 2. unfold replace_nth.
  now rewrite !length_app.
Qed.

Lemma startJob_Accounted locs u rest s :
  Accounted locs s -> queue s = u :: rest -> Accounted locs (startJob u rest s).
Proof.
  intros (I1 & I2 & I3 & I4) Q. unfold Accounted, startJob.
  cbn [queue active failures jobs started outcomes].
  repeat split.
  - rewrite <- app_assoc. cbn [app]. now rewrite <- Q.
  - rewrite length_app. cbn [length]. lia.
  - rewrite runningUrls_app. cbn. rewrite app_assoc.
    now apply Permutation_app_tail.
  - exact I4.
Qed.

Section Limit.

Variable limit : jsnum.
Variable locs : list string.

Lemma pump_while_Accounted q :
  forall s, queue s = q -> Accounted locs s -> Accounted locs (pump_while limit q s).
Proof.
  induction q as [|u rest IH]; intros s Q A; cbn [pump_while]; [exact A|].
  destruct (int_lt (active s) limit); [|exact A].
  apply IH; [reflexivity | now apply startJob_Accounted].
Qed.

Lemma pump_while_Saturated q :
  forall s, queue s = q -> Saturated limit (pump_while limit q s).
Proof.
  induction q as [|u rest IH]; intros s Q; cbn [pump_while].
  - intros N. congruence.
  - destruct (int_lt (active s) limit) eqn:E.
    + apply IH. reflexivity.
    + intros _. exact E.
Qed.

Lemma pump_while_Within q :
  forall s, queue s = q -> Within limit s -> Within limit (pump_while limit q s).
Proof.
  induction q as [|u rest IH]; intros s Q W; cbn [pump_while]; [exact W|].
  destruct (int_lt (active s) limit) eqn:E; [|exact W].
  apply IH; [reflexivity|]. intros _. cbn.
  replace (active s + 1 - 1) with (active s) by lia. now apply int_lt_ge.
Qed.

Lemma pump_while_active q :
  forall s, active s <= active (pump_while limit q s).
Proof.
  induction q as [|u rest IH]; intros s; cbn [pump_while]; [lia|].
  destruct (int_lt (active s) limit); [|lia].
  specialize (IH (startJob u rest s)). cbn in IH. lia.
Qed.

Lemma pump_while_total q :
  forall s, queue s = q ->
            (length (queue (pump_while limit q s)) + length (jobs (pump_while limit q s))
             = length q + length (jobs s))%nat.
Proof.
  induction q as [|u rest IH]; intros s Q; cbn [pump_while].
  - now rewrite Q.
  - destruct (int_lt (active s) limit).
    + rewrite IH by reflexivity. cbn. rewrite length_app. cbn. lia.
    + now rewrite Q.
Qed.

Lemma pump_Accounted s : Accounted locs s -> Accounted locs (pump limit s).
Proof.
  intros A. unfold pump. destruct (queue s) as [|u rest] eqn:Q; [exact A|].
  destruct (int_ge (active s) limit); [exact A|].
  apply pump_while_Accounted; [reflexivity | now apply startJob_Accounted].
Qed.

Lemma pump_Saturated s : Saturated limit (pump limit s).
Proof.
  unfold pump. destruct (queue s) as [|u rest] eqn:Q.
  - intros N. congruence.
  - destruct (int_ge (active s) limit) eqn:E.
    + intros _. now apply int_ge_lt.
    + apply pump_while_Saturated. reflexivity.
Qed.

Lemma pump_Within s : Within limit s -> Within limit (pump limit s).
Proof.
  intros W. unfold pump. destruct (queue s) as [|u rest] eqn:Q; [exact W|].
  destruct (int_ge (active s) limit) eqn:E; [exact W|].
  apply pump_while_Within; [reflexivity|]. intros _. cbn.
  now replace (active s + 1 - 1) with (active s) by lia.
Qed.

Lemma pump_Busy s :
  int_ge 0 limit = false -> 0 <= active s -> Busy (pump limit s).
Proof.
  intros P N. unfold pump, Busy. destruct (queue s) as [|u rest] eqn:Q.
  - rewrite Q. congruence.
  - destruct (int_ge (active s) limit) eqn:E.
    + intros _. destruct (Z.eq_dec (active s) 0) as [Z0|]; [|lia].
      rewrite Z0 in E. congruence.
    + intros _. pose proof (pump_while_active rest (startJob u rest s)) as M.
      cbn in M. lia.
Qed.

Lemma pump_total s :
  (length (queue (pump limit s)) + length (jobs (pump limit s))
   = length (queue s) + length (jobs s))%nat.
Proof.
  unfold pump. destruct (queue s) as [|u rest] eqn:Q; [now rewrite Q|].
  destruct (int_ge (active s) limit); [now rewrite Q|].
  rewrite pump_while_total by reflexivity. cbn. rewrite length_app. cbn. lia.
Qed.

End Limit.

Lemma settle_inv i ok s s' :
  settle i ok s = Some s' ->
  exists id url,
    nth_error (jobs s) i = Some (mkJob id url Running)
    /\ s' = {| queue := queue s;
               active := active s;
               failures := if ok then failures s else failures s ++ [url];
               jobs := replace_nth i (mkJob id url Settled) (jobs s);
               started := started s;
               outcomes := outcomes s ++ [(url, ok)] |}.
Proof.
  unfold settle. destruct (nth_error (jobs s) i) as [[id url [|]]|] eqn:E; try discriminate.
  intros H. apply Some_inj in H. subst s'. eauto.
Qed.

Lemma finish_inv limit i s s' :
  finish limit i s = Some s' ->
  exists id url,
    nth_error (jobs s) i = Some (mkJob id url Settled)
    /\ s' = pump limit {| queue := queue s;
                          active := active s - 1;
                          failures := failures s;
                          jobs := remove_nth i (jobs s);
                          started := started s;
                          outcomes := outcomes s |}.
Proof.
  unfold finish. destruct (nth_error (jobs s) i) as [[id url [|]]|] eqn:E; try discriminate.
  intros H. apply Some_inj in H. subst s'. eauto.
Qed.

Lemma failedUrls_snoc os url ok :
  failedUrls (os ++ [(url, ok)]) = if ok then failedUrls os else failedUrls os ++ [url].
Proof.
  unfold failedUrls. rewrite filter_app, map_app. destruct ok; cbn; [apply app_nil_r | reflexivity].
Qed.

Lemma settle_Accounted locs i ok s s' :
  settle i ok s = Some s' -> Accounted locs s -> Accounted locs s'.
Proof.
  intros H (I1 & I2 & I3 & I4). destruct (settle_inv _ _ _ _ H) as (id & url & N & ->).
  unfold Accounted. cbn [queue active failures jobs started outcomes].
  repeat split.
  - exact I1.
  - now rewrite (replace_nth_length _ _ _ _ N).
  - rewrite (nth_error_split _ _ _ N) in I3. rewrite runningUrls_app in I3.
    unfold replace_nth. rewrite runningUrls_app, map_app.
    change (runningUrls (mkJob id url Running :: ?l)) with (url :: runningUrls l) in I3.
    change (runningUrls (mkJob id url Settled :: ?l)) with (runningUrls l).
    cbn [map fst]. rewrite <- app_assoc. cbn [app].
    eapply Permutation_trans; [exact I3|].
    apply Permutation_app_head. symmetry. apply Permutation_middle.
  - rewrite failedUrls_snoc, I4. reflexivity.
Qed.

Lemma settle_same i ok s s' :
  settle i ok s = Some s' -> queue s' = queue s /\ active s' = active s /\ started s' = started s.
Proof.
  intros H. destruct (settle_inv _ _ _ _ H) as (id & url & N & ->). now cbn.
Qed.

Section Run.

Variable limit : jsnum.
Variable locs : list string.

Lemma finish_Stable i s s' :
  finish limit i s = Some s' -> Stable limit locs s -> Stable limit locs s'.
Proof.
  intros H ((I1 & I2 & I3 & I4) & S & W).
  destruct (finish_inv _ _ _ _ H) as (id & url & N & ->).
  split; [|split].
  - apply pump_Accounted. unfold Accounted. cbn [queue active failures jobs started outcomes].
    repeat split; auto.
    + pose proof (remove_nth_length _ _ _ N). lia.
    + rewrite (nth_error_split _ _ _ N) in I3. rewrite runningUrls_app in I3.
      unfold remove_nth. now rewrite runningUrls_app.
  - apply pump_Saturated.
  - apply pump_Within. unfold Within. cbn [active]. intros P.
    apply int_ge_down. apply W. lia.
Qed.

Lemma fire_Stable allowed e s s' :
  fire allowed limit e s = Some s' -> Stable limit locs s -> Stable limit locs s'.
Proof.
  destruct e as [i ok|i]; cbn [fire].
  - destruct (nth_error (jobs s) i) as [j|]; [|discriminate].
    destruct (allowed (jid j) (jurl j) ok); [|discriminate].
    intros H (A & S & W). destruct (settle_same _ _ _ _ H) as (Q & Ac & _).
    split; [|split].
    + eapply settle_Accounted; eauto.
    + unfold Saturated. now rewrite Q, Ac.
    + unfold Within. now rewrite Ac.
  - apply finish_Stable.
Qed.

Lemma exec_Stable allowed evs :
  forall s s', exec allowed limit evs s = Some s' -> Stable limit locs s -> Stable limit locs s'.
Proof.
  induction evs as [|e r IH]; intros s s' H St; cbn [exec] in H.
  - now injection H as <-.
  - destruct (fire allowed limit e s) as [s1|] eqn:F; [|discriminate].
    eapply IH; [exact H|]. eapply fire_Stable; eauto.
Qed.

Lemma initial_Stable : Stable limit locs (pump limit (initSched locs)).
Proof.
  split; [|split].
  - apply pump_Accounted. unfold Accounted, initSched. cbn. repeat split; constructor.
  - apply pump_Saturated.
  - apply pump_Within. unfold Within, initSched. cbn. lia.
Qed.

Lemma reachable_Stable s : reachable limit locs s -> Stable limit locs s.
Proof. intros (evs & H). eapply exec_Stable; [exact H | apply initial_Stable]. Qed.

(** An event list the program can meet with some behaviour of the jobs is
    one it can meet when jobs may settle either way. *)
Lemma exec_any_outcome allowed evs :
  forall s s', exec allowed limit evs s = Some s' ->
               exec any_outcome limit evs s = Some s'.
Proof.
  induction evs as [|e r IH]; intros s s' H; cbn [exec] in *; [exact H|].
  destruct (fire allowed limit e s) as [s1|] eqn:F; [|discriminate].
  assert (F' : fire any_outcome limit e s = Some s1).
  { destruct e as [i ok|i]; cbn [fire] in *; [|exact F].
    destruct (nth_error (jobs s) i) as [j|]; [|discriminate].
    destruct (allowed (jid j) (jurl j) ok); [exact F | discriminate]. }
  rewrite F'. now apply IH.
Qed.

Lemma exec_app allowed evs1 :
  forall evs2 s s1 s2,
    exec allowed limit evs1 s = Some s1 ->
    exec allowed limit evs2 s1 = Some s2 ->
    exec allowed limit (evs1 ++ evs2) s = Some s2.
Proof.
  induction evs1 as [|e r IH]; intros evs2 s s1 s2 H1 H2; cbn [exec app] in *.
  - now injection H1 as ->.
  - destruct (fire allowed limit e s); [|discriminate]. eapply IH; eauto.
Qed.

End Run.

Lemma pump_while_stop limit q s :
  int_lt (active s) limit = false -> pump_while limit q s = s.
Proof. intros H. destruct q; cbn [pump_while]; [reflexivity | now rewrite H]. Qed.

Lemma nth_error_nonempty {A : Type} (l : list A) i x :
  nth_error l i = Some x -> (0 < length l)%nat.
Proof. destruct l; [destruct i; discriminate | cbn; lia]. Qed.

(** A [finally] reaction that finds locators waiting starts exactly the
    first of them. *)
Lemma finish_refills limit locs s i s' u rest :
  Stable limit locs s ->
  queue s = u :: rest ->
  finish limit i s = Some s' ->
  queue s' = rest
  /\ started s' = started s ++ [u]
  /\ In (mkJob (length (started s)) u Running) (jobs s')
  /\ active s' = active s.
Proof.
  intros ((_ & I2 & _ & _) & S & W) Q H.
  destruct (finish_inv _ _ _ _ H) as (id & url & N & ->).
  pose proof (nth_error_nonempty _ _ _ N) as L.
  assert (G : int_ge (active s - 1) limit = false) by (apply W; lia).
  assert (T : int_lt (active s) limit = false) by (apply S; congruence).
  unfold pump. cbn [queue active]. rewrite Q, G.
  rewrite pump_while_stop
    by (cbn [startJob active]; now replace (active s - 1 + 1) with (active s) by lia).
  cbn [startJob queue started jobs active]. repeat split.
  - apply in_or_app. right. now left.
  - lia.
Qed.

Lemma within_ceiling q n :
  (1 <= q)%Q ->
  (0 < n -> int_ge (n - 1) (Fin q) = false) ->
  n <= Qceiling q.
Proof.
  intros Hq W.
  assert (C1 : 1 <= Qceiling q).
  { rewrite Zle_Qle. eapply Qle_trans; [exact Hq | apply Qle_ceiling]. }
  destruct (Z_lt_le_dec 0 n) as [P|P]; [|lia].
  specialize (W P). cbn [int_ge] in W.
  assert (L : (inject_Z (n - 1) < q)%Q).
  { apply Qnot_le_lt. intros E. apply Qle_bool_iff in E. congruence. }
  assert (L' : (inject_Z (n - 1) < inject_Z (Qceiling q))%Q).
  { eapply Qlt_le_trans; [exact L | apply Qle_ceiling]. }
  rewrite <- Zlt_Qlt in L'. lia.
Qed.

(** C1.  In every state of a run the counter [active] is the number of
    pending jobs, and with a limit [C >= 1] it is at most [C] when [C] is
    whole (at most [C] rounded up otherwise).  A job that finishes while
    locators wait starts the first of them in the same step, and the counter
    is back at its value. *)
Theorem in_flight_bounded (limit : jsnum) (locs : list string) (s : Sched) :
  reachable limit locs s ->
  active s = Z.of_nat (length (jobs s))
  /\ (forall c : Z, limit = Fin (inject_Z c) -> 1 <= c -> active s <= c)
  /\ (forall q : Q, limit = Fin q -> (1 <= q)%Q -> active s <= Qceiling q)
  /\ (forall i u rest s',
        queue s = u :: rest ->
        fire any_outcome limit (Finally i) s = Some s' ->
        queue s' = rest
        /\ started s' = started s ++ [u]
        /\ In (mkJob (length (started s)) u Running) (jobs s')
        /\ active s' = active s).
Proof.
  intros R. pose proof (reachable_Stable _ _ _ R) as St.
  destruct St as ((I1 & I2 & I3 & I4) & S & W).
  split; [exact I2|]. split; [|split].
  - intros c -> Hc. rewrite <- (Qceiling_Z c). apply within_ceiling; [|exact W].
    change (inject_Z 1 <= inject_Z c)%Q. now rewrite <- Zle_Qle.
  - intros q -> Hq. now apply within_ceiling.
  - intros i u rest s' Q F. cbn [fire] in F.
    eapply finish_refills; eauto. repeat split; assumption.
Qed.

Lemma in_flight_bounded_witness :
  exists s,
    exec any_outcome (Fin 2) [Settle 1 true; Finally 1]
         (pump (Fin 2) (initSched ["A"; "B"; "C"; "D"])) = Some s
    /\ active s = 2
    /\ active s <= 2
    /\ started s = ["A"; "B"; "C"]
    /\ queue s = ["D"].
Proof.
  eexists. split; [vm_compute; reflexivity|].
  match goal with
  | |- active ?s = _ /\ _ =>
      pose proof (in_flight_bounded (Fin 2) ["A"; "B"; "C"; "D"] s
                    (ex_intro _ [Settle 1 true; Finally 1] eq_refl)) as (_ & B & _)
  end.
  specialize (B 2 eq_refl ltac:(lia)).
  split; [reflexivity|]. split; [exact B|]. split; reflexivity.
Defined.

Lemma drained_iff s : drained s = true <-> active s <= 0 /\ queue s = [].
Proof.
  unfold drained. rewrite negb_true_iff, orb_false_iff, negb_false_iff, Nat.eqb_eq.
  rewrite Z.ltb_ge, length_zero_iff_nil. reflexivity.
Qed.

(** Once drained, nothing is pending any more: no event can follow. *)
Lemma drained_final limit locs s e allowed :
  Stable limit locs s -> drained s = true -> fire allowed limit e s = None.
Proof.
  intros ((_ & I2 & _ & _) & _ & _) D. apply drained_iff in D as [D _].
  assert (J : jobs s = []).
  { destruct (jobs s); [reflexivity | cbn [length] in I2; lia]. }
  destruct e as [[|i] ok|[|i]]; unfold fire, finish; rewrite J; reflexivity.
Qed.

Section Progress.

Variable limit : jsnum.
Variable locs : list string.
Hypothesis starts : int_ge 0 limit = false.

Lemma finish_Busy i s s' :
  Stable limit locs s -> finish limit i s = Some s' -> Busy s'.
Proof.
  intros ((_ & I2 & _ & _) & _ & _) H.
  destruct (finish_inv _ _ _ _ H) as (id & url & N & ->).
  apply pump_Busy; [exact starts|]. cbn [active].
  pose proof (nth_error_nonempty _ _ _ N). lia.
Qed.

Lemma finish_total i s s' :
  finish limit i s = Some s' ->
  (S (length (queue s') + length (jobs s')) = length (queue s) + length (jobs s))%nat.
Proof.
  intros H. destruct (finish_inv _ _ _ _ H) as (id & url & N & ->).
  rewrite pump_total. cbn [queue jobs].
  pose proof (remove_nth_length _ _ _ N). lia.
Qed.

(** Letting the oldest pending job settle and finish, again and again,
    drains the scheduler. *)
Lemma drains n :
  forall s,
    Stable limit locs s -> Busy s ->
    (length (queue s) + length (jobs s) <= n)%nat ->
    exists evs s', exec any_outcome limit evs s = Some s' /\ drained s' = true.
Proof.
  induction n as [|n IH]; intros s St B M.
  - exists [], s. split; [reflexivity|]. apply drained_iff.
    destruct St as ((_ & I2 & _ & _) & _ & _).
    assert (length (queue s) = 0%nat /\ length (jobs s) = 0%nat) as [Q J] by lia.
    rewrite J in I2. split; [lia | now apply length_zero_iff_nil].
  - destruct (jobs s) as [|[id url ph] js] eqn:J.
    + exists [], s. split; [reflexivity|]. apply drained_iff.
      destruct St as ((_ & I2 & _ & _) & _ & _). rewrite J in I2. cbn in I2.
      split; [lia|]. destruct (queue s) eqn:Q; [reflexivity|].
      assert (0 < active s) by (apply B; congruence). lia.
    + assert (Hs : exists evs0 s1,
                 exec any_outcome limit evs0 s = Some s1
                 /\ Stable limit locs s1 /\ queue s1 = queue s
                 /\ jobs s1 = mkJob id url Settled :: js).
      { destruct ph.
        - destruct (settle 0 true s) as [s1|] eqn:E.
          2:{ unfold settle in E. rewrite J in E. discriminate. }
          exists [Settle 0 true], s1.
          assert (F : fire any_outcome limit (Settle 0 true) s = Some s1).
          { cbn [fire]. rewrite J. cbn. exact E. }
          split; [cbn [exec]; now rewrite F|].
          split; [eapply fire_Stable; eauto|].
          destruct (settle_inv _ _ _ _ E) as (id' & url' & N & ->).
          rewrite J in N. cbn in N. injection N as <- <-.
          cbn [queue jobs]. rewrite J. split; reflexivity.
        - exists [], s. split; [reflexivity|]. split; [exact St|]. split; [reflexivity | exact J]. }
      destruct Hs as (evs0 & s1 & E0 & St1 & Q1 & J1).
      destruct (finish limit 0 s1) as [s2|] eqn:F.
      2:{ unfold finish in F. rewrite J1 in F. discriminate. }
      pose proof (finish_total _ _ _ F) as T. rewrite Q1, J1 in T.
      cbn [length] in M, T.
      destruct (IH s2) as (evs & s' & E & D).
      * eapply finish_Stable; eauto.
      * eapply finish_Busy; eauto.
      * lia.
      * exists (evs0 ++ Finally 0 :: evs), s'. split; [|exact D].
        eapply exec_app; [exact E0|]. cbn [exec fire]. now rewrite F.
Qed.

Lemma run_can_drain :
  exists s, reachable limit locs s /\ drained s = true.
Proof.
  destruct (drains (length locs) (pump limit (initSched locs))) as (evs & s & E & D).
  - apply initial_Stable.
  - apply pump_Busy; [exact starts | cbn; lia].
  - rewrite pump_total. cbn. lia.
  - exists s. split; [exists evs; exact E | exact D].
Qed.

End Progress.

Lemma reachable_accounted limit locs s :
  reachable limit locs s ->
  started s ++ queue s = locs
  /\ Permutation (started s) (map fst (outcomes s) ++ runningUrls (jobs s))
  /\ failures s = failedUrls (outcomes s)
  /\ (drained s = true ->
      started s = locs
      /\ length (outcomes s) = length locs
      /\ Permutation (map fst (outcomes s)) locs).
Proof.
  intros R. destruct (reachable_Stable _ _ _ R) as ((I1 & I2 & I3 & I4) & _ & _).
  split; [exact I1|]. split; [exact I3|]. split; [exact I4|].
  intros D. apply drained_iff in D as [A Q].
  assert (J : jobs s = [])
    by (destruct (jobs s); [reflexivity | cbn [length] in I2; lia]).
  rewrite Q, app_nil_r in I1. rewrite J in I3. cbn in I3. rewrite app_nil_r in I3.
  split; [exact I1|]. split.
  - rewrite <- I1. rewrite (Permutation_length I3). now rewrite length_map.
  - rewrite <- I1. now symmetry.
Qed.

(** C2.  In every state of a run the locators started so far, followed by
    the queue, are the submitted list: each locator leaves the queue once and
    one job is started for it.  Every started job has one outcome or is
    still running, and the failures are the locators whose job rejected.
    When the drain loop ends, every locator has been started and there are
    exactly as many outcomes as locators, one for each.  A run that starts
    jobs at all (the limit is not at or below 0) can always get there. *)
Theorem every_locator_one_outcome (limit : jsnum) (locs : list string) :
  (forall s,
     reachable limit locs s ->
     started s ++ queue s = locs
     /\ Permutation (started s) (map fst (outcomes s) ++ runningUrls (jobs s))
     /\ failures s = failedUrls (outcomes s)
     /\ (drained s = true ->
         started s = locs
         /\ length (outcomes s) = length locs
         /\ Permutation (map fst (outcomes s)) locs))
  /\ (int_ge 0 limit = false ->
      exists s, reachable limit locs s /\ drained s = true).
Proof.
  split.
  - intros s. apply reachable_accounted.
  - intros P. now apply run_can_drain.
Qed.

Lemma every_locator_one_outcome_witness :
  exists s,
    exec any_outcome (Fin 1) [Settle 0 false; Finally 0; Settle 0 true; Finally 0]
         (pump (Fin 1) (initSched ["A"; "B"])) = Some s
    /\ drained s = true
    /\ length (outcomes s) = 2%nat
    /\ failures s = ["A"].
Proof.
  eexists. split; [vm_compute; reflexivity|].
  match goal with
  | |- drained ?s = _ /\ _ =>
      destruct (proj1 (every_locator_one_outcome (Fin 1) ["A"; "B"]) s
                  (ex_intro _ [Settle 0 false; Finally 0; Settle 0 true; Finally 0] eq_refl))
        as (_ & _ & F & D)
  end.
  destruct (D eq_refl) as (_ & L & _).
  split; [reflexivity|]. split; [exact L | exact F].
Defined.

(** ** The summary *)

Lemma report_cases failed :
  (failed <> [] ->
   report failed = (2, ErrCompletedWith (length failed) :: map ErrFailedUrl failed))
  /\ (failed = [] -> report failed = (0, [LogAllCompleted])).
Proof.
  unfold report. destruct failed as [|u r]; split; intros H; try congruence; reflexivity.
Qed.

(** C6.  For a run that passed the argument parser and [ensureDir]: when the
    drain loop ends with failures, the program writes their count and each
    failed locator and exits with status 2; when it ends with none, it writes
    the success message and ends with status 0.  The failures are the
    locators whose job rejected, and such a run never ends with status 1. *)
Theorem run_summary (w : World) (argv : list string) (args0 : Args) (dir : string) :
  parseArgs (fs w) argv = Ok args0 ->
  ensureDir (dirs w) (outDir args0) = Ok dir ->
  let args := fst (chooseFormatInteractive (answer w) args0) in
  let asked := snd (chooseFormatInteractive (answer w) args0) in
  (forall s,
     exec (job_settles w args) (concurrent args) (events w)
          (pump (concurrent args) (initSched (urls args))) = Some s ->
     drained s = true ->
     (failures s <> [] ->
      run w argv
      = Exited 2 (asked ++ ErrCompletedWith (length (failures s))
                        :: map ErrFailedUrl (failures s)))
     /\ (failures s = [] -> run w argv = Exited 0 (asked ++ [LogAllCompleted]))
     /\ failures s = failedUrls (outcomes s)
     /\ Permutation (map fst (outcomes s)) (urls args))
  /\ (forall code out, run w argv = Exited code out -> code = 0 \/ code = 2).
Proof.
  intros HP HE args asked.
  assert (R : run w argv
              = match exec (job_settles w args) (concurrent args) (events w)
                           (pump (concurrent args) (initSched (urls args))) with
                | Some s =>
                    if drained s
                    then Exited (fst (report (failures s))) (asked ++ snd (report (failures s)))
                    else Waiting s
                | None => NoSuchRun
                end).
  { unfold run. rewrite HP, HE. subst args asked.
    destruct (chooseFormatInteractive (answer w) args0) as [a o]. cbn [fst snd].
    destruct (exec _ _ _ _) as [s|]; [|reflexivity].
    destruct (drained s); [|reflexivity]. now destruct (report (failures s)). }
  split.
  - intros s E D. rewrite R, E, D.
    destruct (report_cases (failures s)) as [RF RS].
    assert (Re : reachable (concurrent args) (urls args) s).
    { exists (events w). eapply exec_any_outcome. exact E. }
    destruct (reachable_accounted _ _ _ Re) as (_ & _ & F & Dn).
    destruct (Dn D) as (_ & _ & P).
    split; [|split; [|split]]; auto.
    + intros N. now rewrite (RF N).
    + intros N. now rewrite (RS N).
  - intros code out. rewrite R.
    destruct (exec _ _ _ _) as [s|]; [|discriminate].
    destruct (drained s); [|discriminate].
    unfold report. destruct (negb _); cbn [fst snd]; intros H; injection H as <- _; auto.
Qed.

Lemma run_summary_witness :
  exists a dir s,
    parseArgs (fs firstFails) twoLocators = Ok a
    /\ ensureDir (dirs firstFails) (outDir a) = Ok dir
    /\ exec (job_settles firstFails a) (concurrent a) (events firstFails)
            (pump (concurrent a) (initSched (urls a))) = Some s
    /\ drained s = true
    /\ run firstFails twoLocators = Exited 2 [ErrCompletedWith 1; ErrFailedUrl "A"].
Proof.
  destruct (parseArgs (fs firstFails) twoLocators) as [a| |] eqn:HP;
    try (exfalso; vm_compute in HP; discriminate).
  assert (Ha : Ok a = parseArgs (fs firstFails) twoLocators) by (now rewrite HP).
  vm_compute in Ha. injection Ha as Ha.
  assert (HE : ensureDir (dirs firstFails) (outDir a) = Ok "./downloads")
    by (rewrite Ha; reflexivity).
  assert (HA : fst (chooseFormatInteractive (answer firstFails) a) = a)
    by (rewrite Ha; reflexivity).
  destruct (exec (job_settles firstFails a) (concurrent a) (events firstFails)
                 (pump (concurrent a) (initSched (urls a)))) as [s|] eqn:E;
    [|exfalso; rewrite Ha in E; vm_compute in E; discriminate].
  assert (Hs : Some s = exec (job_settles firstFails a) (concurrent a) (events firstFails)
                             (pump (concurrent a) (initSched (urls a))))
    by (now rewrite E).
  rewrite Ha in Hs. vm_compute in Hs. injection Hs as Hs.
  assert (D : drained s = true) by (rewrite Hs; reflexivity).
  assert (N : failures s <> []) by (rewrite Hs; discriminate).
  pose proof (run_summary firstFails twoLocators a "./downloads" HP HE) as [T _].
  cbv zeta in T. rewrite HA in T.
  destruct (T s E D) as (T2 & _). specialize (T2 N).
  exists a, "./downloads", s. subst s a.
  exact (conj HP (conj HE (conj E (conj D T2)))).
Defined.

(** ** Worked examples *)

Example Number_2 : Number (Str "2") = Fin 2.
Proof. reflexivity. Qed.
Example Number_frac : Number (Str " 1.5 ") = Fin (3 # 2).
Proof. reflexivity. Qed.
Example Number_exp : Number (Str "-25e-1") = Fin (- 5 # 2).
Proof. reflexivity. Qed.
Example Number_hex : Number (Str "0x1f") = Fin 31.
Proof. reflexivity. Qed.
Example Number_empty : Number (Str "") = Fin 0.
Proof. reflexivity. Qed.
Example Number_word : Number (Str "abc") = NaN.
Proof. reflexivity. Qed.
Example Number_trailing : Number (Str "12px") = NaN.
Proof. reflexivity. Qed.
Example Number_dot : Number (Str ".") = NaN.
Proof. reflexivity. Qed.
Example Number_inf : Number (Str "-Infinity") = NegInf.
Proof. reflexivity. Qed.
Example split_crlf :
  split_lines ("a" ++ String CR (String LF "b") ++ String LF "" ++ String LF "c")%string
  = ["a"; "b"; ""; "c"].
Proof. reflexivity. Qed.
Example trim_both : trim "  a b  " = "a b".
Proof. reflexivity. Qed.

Example scenario_all_succeed :
  run (mkWorld quiet (fun _ => true) "" (fun _ _ => true) 10
         [Settle 1 true; Settle 0 true; Finally 1; Settle 1 true; Finally 0; Finally 0])
      (argv0 ++ ["A"; "B"; "C"])
  = Exited 0 [LogMenu; AskChoice; LogAllCompleted].
Proof. reflexivity. Qed.

Example scenario_one_fails :
  run (mkWorld quiet (fun _ => true) ""
         (fun id _ => negb (Nat.eqb id 0)) 10
         [Settle 0 false; Finally 0; Settle 0 true; Finally 0])
      (argv0 ++ ["--concurrent"; "1"; "--retries"; "1"; "--noPrompt"; "A"; "B"])
  = Exited 2 [ErrCompletedWith 1; ErrFailedUrl "A"].
Proof. reflexivity. Qed.

Example scenario_no_locators :
  run (mkWorld quiet (fun _ => true) "" (fun _ _ => true) 10 []) argv0
  = Exited 1 [ErrUsage].
Proof. reflexivity. Qed.

(** A limit that is not whole lets the counter pass it: with
    [--concurrent 1.5] two jobs run at once. *)
Example limit_one_and_a_half :
  active (pump (Number (Str "1.5")) (initSched ["A"; "B"; "C"])) = 2.
Proof. reflexivity. Qed.

(** With a limit that is not a number one job runs at a time. *)
Example limit_not_a_number :
  active (pump (Number (Str "two")) (initSched ["A"; "B"; "C"])) = 1.
Proof. reflexivity. Qed.

(** * Further properties of the program *)

(** ** The argument parser *)

Lemma valueFlag_of_dash v f : valueFlag_of v = Some f -> startsWith_dash v = true.
Proof.
  unfold valueFlag_of. intros H. apply find_some in H as [_ H].
  apply String.eqb_eq in H. subst v. destruct f; reflexivity.
Qed.

Lemma switchFlag_of_dash v f : switchFlag_of v = Some f -> startsWith_dash v = true.
Proof.
  unfold switchFlag_of. intros H. apply find_some in H as [_ H].
  apply String.eqb_eq in H. subst v. destruct f; reflexivity.
Qed.

Lemma tokens_positional rest :
  Forall (fun v => startsWith_dash v = false) rest ->
  tokens rest = map TLocator rest.
Proof.
  induction 1 as [|v r Hv _ IH]; [reflexivity|]. cbn [tokens map].
  destruct (valueFlag_of v) eqn:E1.
  { apply valueFlag_of_dash in E1. congruence. }
  destruct (switchFlag_of v) eqn:E2.
  { apply switchFlag_of_dash in E2. congruence. }
  rewrite Hv. now rewrite IH.
Qed.

Lemma applyTokens_locators rest :
  forall a, applyTokens a (map TLocator rest) = Ok (set_urls (urls a ++ rest) a).
Proof.
  induction rest as [|v r IH]; intros a; cbn [map applyTokens].
  - now rewrite app_nil_r, set_urls_same.
  - rewrite IH. destruct a. cbn. now rewrite <- app_assoc.
Qed.

(** X1.  A command line that holds locators only (no argument starts with a
    dash) and at least one of them parses to the default configuration with
    exactly these locators, in order, whatever the file system holds. *)
Theorem positional_only_defaults
        (fs : FileSystem) (node script : string) (rest : list string) :
  Forall (fun v => startsWith_dash v = false) rest ->
  rest <> [] ->
  parseArgs fs (node :: script :: rest) = Ok (set_urls rest initialArgs).
Proof.
  intros HF Hne. unfold parseArgs. cbn [advance].
  rewrite parseLoop_tokens, tokens_positional by assumption.
  rewrite applyTokens_locators. cbn [urls initialArgs app].
  unfold readBatch. cbn [fromFile set_urls truthy urls].
  destruct rest; [congruence | reflexivity].
Qed.

Lemma positional_only_defaults_witness :
  parseArgs quiet ["node"; "download.mjs"; "https://a.example/1"; "https://b.example/2"]
  = Ok (set_urls ["https://a.example/1"; "https://b.example/2"] initialArgs).
Proof.
  apply positional_only_defaults.
  - repeat constructor.
  - discriminate.
Defined.

Lemma inl_inj {A B : Type} (x y : A) : @inl A B x = inl y -> x = y.
Proof. congruence. Qed.

Lemma inr_inj {A B : Type} (x y : B) : @inr A B x = inr y -> x = y.
Proof. congruence. Qed.

Lemma applyTokens_switch (p : Args -> bool) (g : switchFlag) (b : bool) :
  (forall f v a, p (assign f v a) = p a) ->
  (forall v a, p (set_urls v a) = p a) ->
  (forall h a, p (toggle h a) = if switchFlag_eqb g h then b else p a) ->
  forall ts a a',
    applyTokens a ts = Ok a' -> p a' = if switched g ts then b else p a.
Proof.
  intros Ha Hu Ht. induction ts as [|t r IH]; intros a a' H; cbn [applyTokens] in H.
  - injection H as <-. reflexivity.
  - unfold switched in *. cbn [existsb].
    destruct t as [f v|h|v|v]; try discriminate; rewrite (IH _ _ H); cbn [orb].
    + now rewrite Ha.
    + rewrite Ht. destruct (switchFlag_eqb g h); cbn [orb]; [|reflexivity].
      now destruct (existsb _ r).
    + now rewrite Hu.
Qed.

Lemma applyTokens_noMtime ts :
  forall a a',
    applyTokens a ts = Ok a' ->
    noMtime a' = match lastMtime ts with Some b => b | None => noMtime a end.
Proof.
  induction ts as [|t r IH]; intros a a' H; cbn [applyTokens lastMtime] in *.
  - injection H as <-. reflexivity.
  - destruct t as [f v|h|v|v]; try discriminate; rewrite (IH _ _ H);
      destruct (lastMtime r); try reflexivity.
    + destruct f; reflexivity.
    + destruct h; reflexivity.
Qed.

(** X3.  After a successful parse every flag that takes a value holds the
    value of its last occurrence ([Number] of it for the two numeric flags),
    or its default when the flag is absent; a switch given once or more
    holds for the run; of [--noMtime] and [--keepMtime] the last one given
    decides, and [--noMtime] is the default. *)
Theorem last_occurrence_wins (fs : FileSystem) (argv : list string) (a : Args) :
  parseArgs fs argv = Ok a ->
  let ts := commandLine argv in
  (forall f, stored f a = match given f ts with
                          | Some v => as_stored f v
                          | None => stored f initialArgs
                          end)
  /\ playlist a = negb (switched F_noPlaylist ts)
  /\ subs a = switched F_subs ts
  /\ subsEmbed a = negb (switched F_noEmbedSubs ts)
  /\ geoBypass a = negb (switched F_noGeoBypass ts)
  /\ verbose a = switched F_verbose ts
  /\ update a = switched F_update ts
  /\ noMtime a = match lastMtime ts with Some b => b | None => true end.
Proof.
  intros H ts. destruct (parsed_fields _ _ _ H) as (_ & _ & _ & S).
  destruct (parseArgs_Ok _ _ _ H) as (a0 & Ha0 & -> & _). fold ts in Ha0, S.
  split; [exact S|].
  assert (Sw : forall (p : Args -> bool) g b,
             (forall f v a, p (assign f v a) = p a) ->
             (forall v a, p (set_urls v a) = p a) ->
             (forall h a, p (toggle h a) = if switchFlag_eqb g h then b else p a) ->
             p (withBatch fs a0) = if switched g ts then b else p initialArgs).
  { intros p g b Hp Hu Ht. unfold withBatch. rewrite Hu.
    exact (applyTokens_switch p g b Hp Hu Ht _ _ _ Ha0). }
  repeat split.
  - rewrite (Sw playlist F_noPlaylist false);
      [now destruct (switched F_noPlaylist ts) | intros f; now destruct f | reflexivity
       | intros h; now destruct h].
  - rewrite (Sw subs F_subs true);
      [now destruct (switched F_subs ts) | intros f; now destruct f | reflexivity
       | intros h; now destruct h].
  - rewrite (Sw subsEmbed F_noEmbedSubs false);
      [now destruct (switched F_noEmbedSubs ts) | intros f; now destruct f | reflexivity
       | intros h; now destruct h].
  - rewrite (Sw geoBypass F_noGeoBypass false);
      [now destruct (switched F_noGeoBypass ts) | intros f; now destruct f | reflexivity
       | intros h; now destruct h].
  - rewrite (Sw verbose F_verbose true);
      [now destruct (switched F_verbose ts) | intros f; now destruct f | reflexivity
       | intros h; now destruct h].
  - rewrite (Sw update F_update true);
      [now destruct (switched F_update ts) | intros f; now destruct f | reflexivity
       | intros h; now destruct h].
  - change (noMtime (withBatch fs a0)) with (noMtime a0).
    now rewrite (applyTokens_noMtime _ _ _ Ha0).
Qed.

Lemma last_occurrence_wins_witness :
  exists a,
    parseArgs quiet
      (argv0 ++ ["--retries"; "7"; "--keepMtime"; "u"; "--retries"; "0"; "--noMtime";
                 "--lang"; "de"; "--lang"; "fr"]) = Ok a
    /\ retries a = Fin 0
    /\ subsLang a = Str "fr"
    /\ noMtime a = true.
Proof.
  eexists. split; [vm_compute; reflexivity|].
  match goal with
  | |- retries ?a = _ /\ _ =>
      pose proof (last_occurrence_wins quiet
                    (argv0 ++ ["--retries"; "7"; "--keepMtime"; "u"; "--retries"; "0";
                               "--noMtime"; "--lang"; "de"; "--lang"; "fr"])
                    a eq_refl) as (S & _ & _ & _ & _ & _ & _ & M)
  end.
  exact (conj (inr_inj _ _ (S F_retries)) (conj (inl_inj _ _ (S F_lang)) M)).
Defined.

Lemma applyTokens_firstUnknown ts v :
  firstUnknown ts = Some v ->
  forall a, applyTokens a ts = Exit 1 [ErrUnknownOption v].
Proof.
  induction ts as [|t r IH]; cbn [firstUnknown applyTokens]; [discriminate|].
  destruct t as [f x|h|u|u]; intros H a; auto. now injection H as ->.
Qed.

(** X4.  When an argument is read as an unknown option the process names the
    first such argument and exits with status 1 at once: the batch file is
    not read, whether it exists or not, and missing locators are not
    reported. *)
Theorem first_unknown_option_reported (argv : list string) (v : string) :
  firstUnknown (commandLine argv) = Some v ->
  (forall fs, parseArgs fs argv = Exit 1 [ErrUnknownOption v])
  /\ (forall w, run w argv = Exited 1 [ErrUnknownOption v]).
Proof.
  intros H.
  assert (P : forall fs, parseArgs fs argv = Exit 1 [ErrUnknownOption v]).
  { intros fs. unfold parseArgs. rewrite parseLoop_tokens.
    fold (commandLine argv). now rewrite (applyTokens_firstUnknown _ _ H). }
  split; [exact P|]. intros w. apply run_of_exit, P.
Qed.

Lemma first_unknown_option_reported_witness :
  run (calm []) (argv0 ++ ["--fromFile"; "missing.txt"; "-x"; "--oops"])
  = Exited 1 [ErrUnknownOption "-x"].
Proof.
  exact (proj2 (first_unknown_option_reported
                  (argv0 ++ ["--fromFile"; "missing.txt"; "-x"; "--oops"]) "-x" eq_refl)
               (calm [])).
Defined.

(** X5.  A batch file that is named and cannot be read ends the process
    with status 1 through the top-level handler, also when locators were
    given as arguments.  An empty file name is no file name: the parse goes
    by the arguments alone. *)
Theorem batch_file_edges (w : World) (argv : list string) :
  let ts := commandLine argv in
  has_unknown ts = false ->
  (forall path,
     batchFile ts = Str path -> path <> "" -> fs w path = None ->
     parseArgs (fs w) argv = Throw /\ run w argv = Exited 1 [ErrUncaught])
  /\ (batchFile ts = Str "" -> locators ts <> [] ->
      exists a, parseArgs (fs w) argv = Ok a /\ urls a = locators ts).
Proof.
  intros ts U. pose proof (parseArgs_cases (fs w) argv) as C. cbv zeta in C.
  fold ts in C. rewrite U in C. destruct C as (a0 & Ha0 & E).
  split.
  - intros path B Hne Hfs.
    assert (R : batchReadable (fs w) ts = false).
    { unfold batchReadable. rewrite B. apply String.eqb_neq in Hne. now rewrite Hne, Hfs. }
    rewrite R in E. split; [exact E|]. unfold run. now rewrite E.
  - intros B Hne.
    assert (R : batchReadable (fs w) ts = true) by (unfold batchReadable; now rewrite B).
    assert (V : resolved (fs w) ts = locators ts).
    { unfold resolved. rewrite B. cbn. apply app_nil_r. }
    rewrite R, V in E.
    destruct (Nat.eqb (length (locators ts)) 0) eqn:L.
    { apply Nat.eqb_eq, length_zero_iff_nil in L. contradiction. }
    exists (withBatch (fs w) a0). split; [exact E|].
    unfold withBatch. cbn [urls set_urls].
    rewrite (applyTokens_urls _ _ _ Ha0), (applyTokens_fromFile _ _ Ha0), B.
    cbn. now rewrite app_nil_r.
Qed.

Lemma batch_file_edges_witness :
  run (calm []) (argv0 ++ ["https://a.example/1"; "--fromFile"; "missing.txt"])
  = Exited 1 [ErrUncaught].
Proof.
  exact (proj2 (proj1 (batch_file_edges (calm [])
                         (argv0 ++ ["https://a.example/1"; "--fromFile"; "missing.txt"])
                         eq_refl)
                      "missing.txt" eq_refl ltac:(discriminate) eq_refl)).
Defined.

(** X6.  A run whose output directory is not a string ([--outDir] given last,
    without a value) or cannot be made ends with status 1 through the
    top-level handler, before anything is asked or started. *)
Theorem output_directory_faults (w : World) (argv : list string) (a : Args) :
  parseArgs (fs w) argv = Ok a ->
  (given F_outDir (commandLine argv) = Some Undefined ->
   run w argv = Exited 1 [ErrUncaught])
  /\ (forall dir, outDir a = Str dir -> dirs w dir = false ->
                  run w argv = Exited 1 [ErrUncaught]).
Proof.
  intros H. split.
  - intros G. destruct (parsed_fields _ _ _ H) as (_ & _ & _ & S).
    pose proof (S F_outDir) as O. rewrite G in O. cbn in O. injection O as O.
    unfold run. rewrite H, O. reflexivity.
  - intros dir O D. unfold run. rewrite H, O. cbn [ensureDir]. now rewrite D.
Qed.

Lemma output_directory_faults_witness :
  run (calm []) (argv0 ++ ["https://a.example/1"; "--outDir"]) = Exited 1 [ErrUncaught].
Proof.
  destruct (parseArgs (fs (calm [])) (argv0 ++ ["https://a.example/1"; "--outDir"]))
    as [a| |] eqn:HP; try (exfalso; vm_compute in HP; discriminate).
  exact (proj1 (output_directory_faults (calm []) _ a HP) eq_refl).
Defined.

(** ** The prompt *)

Lemma trimEnd_idem s : trimEnd (trimEnd s) = trimEnd s.
Proof.
  induction s as [|c r IH]; [reflexivity|]. cbn [trimEnd].
  destruct (trimEnd r) as [|c' r'] eqn:E.
  - destruct (isWhiteSpace c) eqn:W; [reflexivity|]. cbn [trimEnd]. now rewrite W.
  - cbn [trimEnd]. cbn [trimEnd] in IH. rewrite IH. reflexivity.
Qed.

Lemma trimEnd_head c r :
  isWhiteSpace c = false -> exists r', trimEnd (String c r) = String c r'.
Proof.
  intros W. cbn [trimEnd]. destruct (trimEnd r); [rewrite W|]; eauto.
Qed.

Lemma trimStart_head s :
  trimStart s = "" \/ exists c r, trimStart s = String c r /\ isWhiteSpace c = false.
Proof.
  induction s as [|c r IH]; [now left|]. cbn [trimStart].
  destruct (isWhiteSpace c) eqn:W; [exact IH|]. right. eauto.
Qed.

Lemma trim_idem s : trim (trim s) = trim s.
Proof.
  unfold trim. destruct (trimStart_head s) as [E|(c & r & E & W)]; rewrite E.
  - reflexivity.
  - destruct (trimEnd_head c r W) as (r' & T). rewrite T.
    cbn [trimStart]. rewrite W. rewrite <- T. apply trimEnd_idem.
Qed.

Ltac menu_case E lit :=
  apply String.eqb_eq in E; rewrite E;
  replace (knownChoice lit) with true by reflexivity;
  cbn [fst snd app audioOnly format audioFormat set_format set_audioOnly].

(** X7.  When the prompt is shown (no [--noPrompt], [--format] or
    [--audio]): white space around the answer does not matter; answer 4 turns
    audio-only on and leaves the format as it was, with the audio codec of
    the configuration; every other answer leaves audio-only off and sets one
    of the three selectors of the menu; the warning is written exactly for
    the answers the menu does not know, which get the 1080p selector. *)
Theorem prompt_answers (answer : string) (a : Args) :
  (noPrompt a || formatProvided a || audioOnly a)%bool = false ->
  let a' := fst (chooseFormatInteractive answer a) in
  let shown := snd (chooseFormatInteractive answer a) in
  chooseFormatInteractive (trim answer) a = chooseFormatInteractive answer a
  /\ (trim answer = "4" ->
      audioOnly a' = true /\ format a' = format a /\ audioFormat a' = audioFormat a)
  /\ (trim answer <> "4" ->
      audioOnly a' = false /\ exists sel, In sel menuFormats /\ format a' = Str sel)
  /\ shown = [LogMenu; AskChoice]
              ++ (if knownChoice (trim answer) then [] else [LogUnrecognisedChoice])
  /\ (knownChoice (trim answer) = false -> format a' = Str FORMAT_1080).
Proof.
  intros B a' shown. subst a' shown. unfold chooseFormatInteractive. rewrite B.
  rewrite trim_idem.
  assert (A : audioOnly a = false).
  { apply orb_false_iff in B as [_ B]. exact B. }
  split; [reflexivity|].
  destruct (String.eqb (trim answer) "") eqn:E0.
  { menu_case E0 "". split; [discriminate|]. split; [|split; [reflexivity | discriminate]].
    intros _. split; [exact A|]. exists FORMAT_1080. split; [now left | reflexivity]. }
  destruct (String.eqb (trim answer) "1") eqn:E1.
  { menu_case E1 "1". split; [discriminate|]. split; [|split; [reflexivity | discriminate]].
    intros _. split; [exact A|]. exists FORMAT_1080. split; [now left | reflexivity]. }
  destruct (String.eqb (trim answer) "2") eqn:E2.
  { menu_case E2 "2". split; [discriminate|]. split; [|split; [reflexivity | discriminate]].
    intros _. split; [exact A|]. exists FORMAT_720. split; [right; now left | reflexivity]. }
  destruct (String.eqb (trim answer) "3") eqn:E3.
  { menu_case E3 "3". split; [discriminate|]. split; [|split; [reflexivity | discriminate]].
    intros _. split; [exact A|].
    exists FORMAT_480. split; [right; right; now left | reflexivity]. }
  destruct (String.eqb (trim answer) "4") eqn:E4.
  { menu_case E4 "4". split; [intros _; repeat split|].
    split; [intros N; now elim N|]. split; [reflexivity | discriminate]. }
  assert (K : knownChoice (trim answer) = false).
  { unfold knownChoice. cbn [existsb]. now rewrite E0, E1, E2, E3, E4. }
  rewrite K. cbn [fst snd app audioOnly format audioFormat set_format set_audioOnly].
  split; [intros N; rewrite N, String.eqb_refl in E4; discriminate|].
  split; [|split; reflexivity].
  intros _. split; [exact A|]. exists FORMAT_1080. split; [now left | reflexivity].
Qed.

Lemma prompt_answers_witness :
  fst (chooseFormatInteractive "  2 " initialArgs) = set_format (Str FORMAT_720) initialArgs
  /\ snd (chooseFormatInteractive "five" initialArgs)
     = [LogMenu; AskChoice; LogUnrecognisedChoice].
Proof.
  split.
  - rewrite <- (proj1 (prompt_answers "  2 " initialArgs eq_refl)). reflexivity.
  - exact (proj1 (proj2 (proj2 (proj2 (prompt_answers "five" initialArgs eq_refl))))).
Defined.

(** ** The batch file *)

(** X8.  Every locator read from the batch file is non-empty and has no
    white space at either end, whatever the file holds. *)
Theorem batch_locators_trimmed (data : string) :
  Forall (fun u => u <> "" /\ trim u = u) (batchLines data).
Proof.
  unfold batchLines. apply Forall_forall. intros u Hin.
  apply filter_In in Hin as [Hin Hne]. apply in_map_iff in Hin as (l & <- & _).
  split.
  - apply negb_true_iff in Hne. now apply String.eqb_neq.
  - apply trim_idem.
Qed.

Lemma split_from_line_crlf l :
  no_line_break l = true ->
  forall cur rest,
    split_from cur (l ++ String CR (String LF rest))%string
    = string_of_list_ascii (rev cur ++ list_ascii_of_string l) :: split_from [] rest.
Proof.
  induction l as [|c r IH]; intros H cur rest; cbn [String.append split_from].
  - replace (Ascii.eqb CR LF) with false by reflexivity.
    rewrite !Ascii.eqb_refl. cbn. now rewrite app_nil_r.
  - cbn [no_line_break] in H. apply andb_true_iff in H as [H Hr].
    apply andb_true_iff in H as [H1 H2].
    apply negb_true_iff in H1, H2. rewrite H1, H2.
    rewrite (IH Hr). cbn [rev list_ascii_of_string]. now rewrite <- app_assoc.
Qed.

Lemma split_lines_unlinesCRLF ls :
  ls <> [] ->
  Forall (fun l => no_line_break l = true) ls ->
  split_lines (unlinesCRLF ls) = ls.
Proof.
  unfold split_lines. induction ls as [|l r IH]; intros Hne HF; [congruence|].
  inversion HF as [|? ? Hl Hr]; subst.
  destruct r as [|l' r'].
  - cbn [unlinesCRLF]. rewrite split_from_last by assumption. cbn [rev app].
    now rewrite string_of_list_ascii_of_string.
  - change (unlinesCRLF (l :: l' :: r'))
      with (l ++ String CR (String LF (unlinesCRLF (l' :: r'))))%string.
    rewrite split_from_line_crlf by assumption. cbn [rev app].
    rewrite string_of_list_ascii_of_string. f_equal. apply IH; [discriminate | assumption].
Qed.

(** X9.  A batch file whose lines end in CR LF gives the same locators as
    the same lines ended by LF: the lines in file order, trimmed, the blank
    ones dropped. *)
Theorem batch_line_endings (ls : list string) :
  Forall (fun l => no_line_break l = true) ls ->
  batchLines (unlinesCRLF ls) = batchLines (unlines ls)
  /\ batchLines (unlinesCRLF ls) = map trim (filter (fun l => negb (blank l)) ls).
Proof.
  intros HF.
  assert (E : batchLines (unlinesCRLF ls) = batchLines (unlines ls)).
  { destruct ls as [|l r]; [reflexivity|]. unfold batchLines.
    rewrite split_lines_unlinesCRLF, split_lines_unlines
      by (assumption || discriminate).
    reflexivity. }
  split; [exact E|]. rewrite E. now apply batchLines_unlines.
Qed.

Lemma batch_line_endings_witness :
  batchLines (unlinesCRLF ["https://a.example/1"; ""; "  https://b.example/2  "])
  = ["https://a.example/1"; "https://b.example/2"].
Proof.
  rewrite (proj2 (batch_line_endings
                    ["https://a.example/1"; ""; "  https://b.example/2  "]
                    ltac:(repeat constructor))).
  reflexivity.
Defined.

(** ** The option bag *)

Lemma In_lookup k v (d : descriptor) :
  NoDup (keys d) -> In (k, v) d -> lookup k d = Some v.
Proof.
  unfold keys. induction d as [|[k' v'] r IH]; intros N Hin; [destruct Hin|].
  cbn [map fst] in N. inversion N as [|? ? Hnot Hr]; subst.
  cbn [lookup]. destruct Hin as [E|Hin].
  - injection E as -> ->. now rewrite String.eqb_refl.
  - destruct (String.eqb k k') eqn:E; [|now apply IH].
    apply String.eqb_eq in E. subst k'. elim Hnot.
    apply in_map_iff. exists (k, v). split; [reflexivity | exact Hin].
Qed.

Lemma ytdlpArgs_NoDup args d : ytdlpArgs args = Some d -> NoDup (keys d).
Proof.
  intros H. apply (subseq_NoDup _ _ (ytdlpArgs_keys_subseq _ _ H)).
  apply distinct_NoDup. reflexivity.
Qed.

Ltac find_entry :=
  repeat first
    [ solve [cbn [In app]; auto 8]
    | apply in_or_app; first [left; solve [cbn [In app]; auto 8] | right] ].

(** X10.  The entries every option bag holds: the output path made of the
    directory and the template, the two HTTP headers, the three fixed retry
    and fragment settings, and [newline]. *)
Theorem descriptor_fixed_entries (args : Args) (d : descriptor) :
  ytdlpArgs args = Some d ->
  exists dir template,
    outDir args = Str dir /\ outTemplate args = Str template
    /\ lookup "output" d = Some (OPath dir template)
    /\ lookup "addHeader" d
       = Some (OList ["User-Agent: Mozilla/5.0"; "Accept-Language: en-US,en;q=0.9"])
    /\ lookup "fragment-retries" d = Some (ONum 10)
    /\ lookup "retries" d = Some (ONum 5)
    /\ lookup "concurrent-fragments" d = Some (ONum 4)
    /\ lookup "newline" d = Some OTrue.
Proof.
  intros H. pose proof (ytdlpArgs_NoDup _ _ H) as N.
  unfold ytdlpArgs in H.
  destruct (outDir args) as [| |dir]; try discriminate.
  destruct (outTemplate args) as [| |template]; try discriminate.
  apply Some_inj in H. exists dir, template.
  split; [reflexivity|]. split; [reflexivity|].
  repeat split; apply In_lookup; try exact N; subst d; find_entry.
Qed.

Lemma descriptor_fixed_entries_witness :
  exists d,
    ytdlpArgs initialArgs = Some d
    /\ lookup "output" d = Some (OPath "./downloads" DEFAULT_OUTPUT_TEMPLATE).
Proof.
  eexists. split; [reflexivity|].
  match goal with
  | |- lookup _ ?d = _ =>
      destruct (descriptor_fixed_entries initialArgs d eq_refl)
        as (dir & template & E1 & E2 & O & _)
  end.
  injection E1 as <-. injection E2 as <-. exact O.
Defined.

(** X11.  The optional entries: the bag holds [no-mtime] exactly when
    [noMtime] is set; the rate limit, the cookies file, the proxy, the
    geo-bypass country and the extractor arguments exactly when the value is
    a non-empty string, and then with that value; the three subtitle entries
    exactly when subtitles are asked for, with the language of the
    configuration; [embedSubs] only together with them. *)
Theorem descriptor_optional_entries (args : Args) (d : descriptor) :
  ytdlpArgs args = Some d ->
  lookup "no-mtime" d = (if noMtime args then Some OTrue else None)
  /\ lookup "limitRate" d
     = (if truthy (rateLimit args) then Some (OVal (rateLimit args)) else None)
  /\ lookup "cookies" d
     = (if truthy (cookies args) then Some (OVal (cookies args)) else None)
  /\ lookup "proxy" d
     = (if truthy (proxy args) then Some (OVal (proxy args)) else None)
  /\ lookup "geoBypassCountry" d
     = (if truthy (geoBypassCountry args)
        then Some (OVal (geoBypassCountry args)) else None)
  /\ lookup "extractorArgs" d
     = (if truthy (extractorArgs args) then Some (OVal (extractorArgs args)) else None)
  /\ lookup "writeauto" d = (if subs args then Some OTrue else None)
  /\ lookup "subLangs" d = (if subs args then Some (OVal (subsLang args)) else None)
  /\ lookup "subFormat" d = (if subs args then Some (OVal (Str "srt/best")) else None)
  /\ lookup "embedSubs" d = (if (subs args && subsEmbed args)%bool then Some OTrue else None).
Proof.
  intros H. pose proof (ytdlpArgs_NoDup _ _ H) as N.
  assert (K1 : has_key "no-mtime" d = noMtime args) by key_eval H.
  assert (K2 : has_key "limitRate" d = truthy (rateLimit args)) by key_eval H.
  assert (K3 : has_key "cookies" d = truthy (cookies args)) by key_eval H.
  assert (K4 : has_key "proxy" d = truthy (proxy args)) by key_eval H.
  assert (K5 : has_key "geoBypassCountry" d = truthy (geoBypassCountry args)) by key_eval H.
  assert (K6 : has_key "extractorArgs" d = truthy (extractorArgs args)) by key_eval H.
  assert (K7 : has_key "writeauto" d = subs args) by key_eval H.
  assert (K8 : has_key "subLangs" d = subs args) by key_eval H.
  assert (K9 : has_key "subFormat" d = subs args) by key_eval H.
  assert (K10 : has_key "embedSubs" d = (subs args && subsEmbed args)%bool) by key_eval H.
  unfold ytdlpArgs, spread_if in H.
  destruct (outDir args) as [| |dir]; try discriminate.
  destruct (outTemplate args) as [| |template]; try discriminate.
  apply Some_inj in H.
  repeat match goal with |- _ /\ _ => split end.
  - destruct (noMtime args); [|now apply lookup_has_key].
    apply In_lookup; [exact N|]. subst d. find_entry.
  - destruct (truthy (rateLimit args)); [|now apply lookup_has_key].
    apply In_lookup; [exact N|]. subst d. find_entry.
  - destruct (truthy (cookies args)); [|now apply lookup_has_key].
    apply In_lookup; [exact N|]. subst d. find_entry.
  - destruct (truthy (proxy args)); [|now apply lookup_has_key].
    apply In_lookup; [exact N|]. subst d. find_entry.
  - destruct (truthy (geoBypassCountry args)); [|now apply lookup_has_key].
    apply In_lookup; [exact N|]. subst d. find_entry.
  - destruct (truthy (extractorArgs args)); [|now apply lookup_has_key].
    apply In_lookup; [exact N|]. subst d. find_entry.
  - destruct (subs args); [|now apply lookup_has_key].
    apply In_lookup; [exact N|]. subst d. find_entry.
  - destruct (subs args); [|now apply lookup_has_key].
    apply In_lookup; [exact N|]. subst d. find_entry.
  - destruct (subs args); [|now apply lookup_has_key].
    apply In_lookup; [exact N|]. subst d. find_entry.
  - destruct (subs args); [|now apply lookup_has_key].
    destruct (subsEmbed args); [|now apply lookup_has_key].
    apply In_lookup; [exact N|]. subst d. find_entry.
Qed.

Lemma descriptor_optional_entries_witness :
  exists d,
    ytdlpArgs (set_proxy (Str "socks5://127.0.0.1:1080")
                 (set_rateLimit (Str "") initialArgs)) = Some d
    /\ lookup "proxy" d = Some (OVal (Str "socks5://127.0.0.1:1080"))
    /\ lookup "limitRate" d = None.
Proof.
  eexists. split; [reflexivity|].
  match goal with
  | |- lookup _ ?d = _ /\ _ =>
      pose proof (descriptor_optional_entries
                    (set_proxy (Str "socks5://127.0.0.1:1080")
                       (set_rateLimit (Str "") initialArgs)) d eq_refl)
        as (_ & L & _ & P & _)
  end.
  exact (conj P L).
Defined.

(** ** The retry wrapper, for any value of the retry limit *)

Lemma int_le_floor j q : int_le j (Fin q) = (j <=? Qfloor q).
Proof.
  cbn [int_le]. destruct (j <=? Qfloor q) eqn:E.
  - apply Qle_bool_iff. apply Z.leb_le in E.
    eapply Qle_trans; [|apply Qfloor_le]. now rewrite <- Zle_Qle.
  - destruct (Qle_bool (inject_Z j) q) eqn:L; [|reflexivity].
    apply Qle_bool_iff, Qfloor_resp_le in L. rewrite Qfloor_Z in L.
    apply Z.leb_gt in E. lia.
Qed.

Lemma maxAttempts_retry r n :
  maxAttempts r = Some n ->
  1 <= n /\ forall j, 1 <= j -> int_le j r = (j <=? n - 1).
Proof.
  destruct r as [|q| |]; cbn [maxAttempts]; intros H; try discriminate;
    injection H as <-.
  - split; [lia|]. intros j Hj. cbn. symmetry. apply Z.leb_gt. lia.
  - split; [lia|]. intros j Hj. rewrite int_le_floor.
    destruct (Z.leb_spec j (Qfloor q)), (Z.leb_spec j (Z.max 1 (Qfloor q + 1) - 1));
      try reflexivity; lia.
  - split; [lia|]. intros j Hj. cbn. symmetry. apply Z.leb_gt. lia.
Qed.

Section RetryLimit.

Variable url : string.
Variable args : Args.
Variable d : descriptor.
Variable r : Z.
Variable ext : Z -> bool.
Hypothesis bag : ytdlpArgs args = Some d.
Hypothesis retry : forall j, 1 <= j -> int_le j (retries args) = (j <=? r).

Lemma downloadOne_succeeds_by (m : nat) :
  forall k fuel,
    1 <= k ->
    (m < fuel)%nat ->
    k + Z.of_nat m <= r + 1 ->
    (forall j, k <= j < k + Z.of_nat m -> ext j = false) ->
    ext (k + Z.of_nat m) = true ->
    exists tr,
      downloadOne fuel ext url args k = Some (true, tr)
      /\ callsAndWaits tr = attemptPattern url d k (S m).
Proof.
  induction m as [|m IH]; intros k fuel Hk1 Hf Hk Hfail Hok.
  - destruct fuel as [|fuel]; [lia|]. cbn [downloadOne]. rewrite bag.
    replace (k + Z.of_nat 0) with k in Hok by lia. rewrite Hok.
    eexists. split; reflexivity.
  - destruct fuel as [|fuel]; [lia|]. cbn [downloadOne]. rewrite bag.
    rewrite (Hfail k) by lia. rewrite retry by lia.
    replace (k <=? r) with true by (symmetry; apply Z.leb_le; lia).
    destruct (IH (k + 1) fuel) as (tr & E & P); try lia.
    + intros j Hj. apply Hfail. lia.
    + replace (k + 1 + Z.of_nat m) with (k + Z.of_nat (S m)) by lia. exact Hok.
    + rewrite E. eexists. split; [reflexivity|].
      change (?x ++ Sleep ?ms :: tr) with (x ++ [Sleep ms] ++ tr).
      rewrite callsAndWaits_failed. cbn [callsAndWaits filter app].
      fold (callsAndWaits tr). rewrite P. reflexivity.
Qed.

Lemma downloadOne_exhausts_by (m : nat) :
  forall k fuel,
    1 <= k ->
    (m < fuel)%nat ->
    k + Z.of_nat m = r + 1 ->
    (forall j, k <= j <= r + 1 -> ext j = false) ->
    exists tr,
      downloadOne fuel ext url args k = Some (false, tr)
      /\ callsAndWaits tr = attemptPattern url d k (S m).
Proof.
  induction m as [|m IH]; intros k fuel Hk1 Hf Hk Hfail.
  - destruct fuel as [|fuel]; [lia|]. cbn [downloadOne]. rewrite bag.
    rewrite (Hfail k) by lia. rewrite retry by lia.
    replace (k <=? r) with false by (symmetry; apply Z.leb_gt; lia).
    eexists. split; [reflexivity|].
    rewrite <- (app_nil_r (_ ++ _)). rewrite callsAndWaits_failed. reflexivity.
  - destruct fuel as [|fuel]; [lia|]. cbn [downloadOne]. rewrite bag.
    rewrite (Hfail k) by lia. rewrite retry by lia.
    replace (k <=? r) with true by (symmetry; apply Z.leb_le; lia).
    destruct (IH (k + 1) fuel) as (tr & E & P); try lia.
    + intros j Hj. apply Hfail. lia.
    + rewrite E. eexists. split; [reflexivity|].
      change (?x ++ Sleep ?ms :: tr) with (x ++ [Sleep ms] ++ tr).
      rewrite callsAndWaits_failed. cbn [callsAndWaits filter app].
      fold (callsAndWaits tr). rewrite P. reflexivity.
Qed.

End RetryLimit.

(** X12.  The number of attempts for any retry limit that is not
    [Infinity]: a limit that is not a number ([--retries abc], or [--retries]
    given last) or below 1 allows one attempt and no retry; a limit [q >= 1]
    allows [floor q + 1] attempts.  A job whose calls all fail makes exactly
    that many, with the waits 1500, 3000, ... between them, and rejects; a
    job whose first success is at an attempt within the bound stops there and
    fulfils. *)
Theorem attempts_by_retry_limit
        (url : string) (args : Args) (d : descriptor) (n : Z) (ext : Z -> bool)
        (fuel : nat) :
  ytdlpArgs args = Some d ->
  maxAttempts (retries args) = Some n ->
  (Z.to_nat n <= fuel)%nat ->
  ((forall j, 1 <= j <= n -> ext j = false) ->
   exists tr,
     downloadOne fuel ext url args 1 = Some (false, tr)
     /\ calls tr = Z.to_nat n
     /\ waits tr = map (fun i => 1500 * (1 + Z.of_nat i)) (seq 0 (Z.to_nat n - 1)))
  /\ (forall k,
        1 <= k <= n ->
        (forall j, 1 <= j < k -> ext j = false) ->
        ext k = true ->
        exists tr,
          downloadOne fuel ext url args 1 = Some (true, tr)
          /\ calls tr = Z.to_nat k
          /\ waits tr = map (fun i => 1500 * (1 + Z.of_nat i)) (seq 0 (Z.to_nat k - 1))).
Proof.
  intros Hd Hn Hf. destruct (maxAttempts_retry _ _ Hn) as [N1 Hle]. split.
  - intros Hfail.
    destruct (downloadOne_exhausts_by url args d (n - 1) ext Hd Hle
                (Z.to_nat (n - 1)) 1 fuel) as (tr & E & P); try lia.
    { intros j Hj. apply Hfail. lia. }
    exists tr. split; [exact E|].
    replace (Z.to_nat n) with (S (Z.to_nat (n - 1))) by lia.
    replace (S (Z.to_nat (n - 1)) - 1)%nat with (Z.to_nat (n - 1)) by lia.
    split.
    + rewrite <- calls_callsAndWaits, P. apply calls_attemptPattern.
    + rewrite <- waits_callsAndWaits, P. apply waits_attemptPattern.
  - intros k Hk Hfail Hok.
    destruct (downloadOne_succeeds_by url args d (n - 1) ext Hd Hle
                (Z.to_nat (k - 1)) 1 fuel) as (tr & E & P); try lia.
    { intros j Hj. apply Hfail. lia. }
    { replace (1 + Z.of_nat (Z.to_nat (k - 1))) with k by lia. exact Hok. }
    exists tr. split; [exact E|].
    replace (Z.to_nat k) with (S (Z.to_nat (k - 1))) by lia.
    replace (S (Z.to_nat (k - 1)) - 1)%nat with (Z.to_nat (k - 1)) by lia.
    split.
    + rewrite <- calls_callsAndWaits, P. apply calls_attemptPattern.
    + rewrite <- waits_callsAndWaits, P. apply waits_attemptPattern.
Qed.

Lemma attempts_by_retry_limit_witness :
  (exists tr,
     downloadOne 4 (fun _ => false) "u" (set_retries (Number (Str "abc")) initialArgs) 1
     = Some (false, tr)
     /\ calls tr = 1%nat /\ waits tr = [])
  /\ (exists tr,
        downloadOne 4 (fun _ => false) "u" (set_retries (Number (Str "1.5")) initialArgs) 1
        = Some (false, tr)
        /\ calls tr = 2%nat /\ waits tr = [1500]).
Proof.
  split.
  - destruct (ytdlpArgs (set_retries (Number (Str "abc")) initialArgs)) as [d|] eqn:Hd;
      [|discriminate].
    exact (proj1 (attempts_by_retry_limit "u" _ d 1 (fun _ => false) 4 Hd eq_refl
                    ltac:(cbn; lia))
                 (fun _ _ => eq_refl)).
  - destruct (ytdlpArgs (set_retries (Number (Str "1.5")) initialArgs)) as [d|] eqn:Hd;
      [|discriminate].
    exact (proj1 (attempts_by_retry_limit "u" _ d 2 (fun _ => false) 4 Hd eq_refl
                    ltac:(cbn; lia))
                 (fun _ _ => eq_refl)).
Defined.

Lemma downloadOne_unbounded url args d ext :
  ytdlpArgs args = Some d ->
  retries args = PosInf ->
  (forall j, ext j = false) ->
  forall n k, downloadOne n ext url args k = None.
Proof.
  intros Hd Hr Hfail n. induction n as [|n IH]; intros k; [reflexivity|].
  cbn [downloadOne]. rewrite Hd, Hfail, Hr. cbn [int_le]. now rewrite IH.
Qed.

(** X13.  With the retry limit [Infinity] a job whose calls all fail never
    settles: however many nested calls are allowed, [downloadOne] has not
    returned, so the scheduler never sees an outcome for it. *)
Theorem infinite_retries_never_settle
        (w : World) (url : string) (args : Args) (d : descriptor) (id : nat) :
  ytdlpArgs args = Some d ->
  retries args = PosInf ->
  (forall j, ext w id j = false) ->
  (forall n k, downloadOne n (ext w id) url args k = None)
  /\ (forall ok, job_settles w args id url ok = false).
Proof.
  intros Hd Hr Hfail.
  assert (N : forall n k, downloadOne n (ext w id) url args k = None)
    by (intros n k; eapply downloadOne_unbounded; eauto).
  split; [exact N|]. intros ok. unfold job_settles. now rewrite N.
Qed.

Lemma infinite_retries_never_settle_witness :
  exists a,
    parseArgs quiet (argv0 ++ ["--retries"; "Infinity"; "u"]) = Ok a
    /\ retries a = PosInf
    /\ forall ok,
         job_settles (mkWorld quiet (fun _ => true) "" (fun _ _ => false) 1000 []) a
                     0 "u" ok = false.
Proof.
  eexists. split; [vm_compute; reflexivity|]. split; [reflexivity|].
  destruct (ytdlpArgs (set_retries PosInf (set_urls ["u"] initialArgs))) as [d|] eqn:Hd;
    [|discriminate].
  exact (proj2 (infinite_retries_never_settle
                  (mkWorld quiet (fun _ => true) "" (fun _ _ => false) 1000 [])
                  "u" _ d 0%nat Hd eq_refl (fun _ => eq_refl))).
Defined.

(** ** The scheduler, for any value of the limit *)

Lemma exec_preserves (I : Sched -> Prop) allowed limit :
  (forall e s s', I s -> fire allowed limit e s = Some s' -> I s') ->
  forall evs s s', I s -> exec allowed limit evs s = Some s' -> I s'.
Proof.
  intros Step. induction evs as [|e r IH]; intros s s' Hs H; cbn [exec] in H.
  - now injection H as <-.
  - destruct (fire allowed limit e s) as [s1|] eqn:F; [|discriminate].
    eapply IH; [|exact H]. eapply Step; eauto.
Qed.

Lemma choose_preserves answer a :
  let a' := fst (chooseFormatInteractive answer a) in
  urls a' = urls a /\ concurrent a' = concurrent a /\ retries a' = retries a
  /\ outDir a' = outDir a /\ outTemplate a' = outTemplate a.
Proof.
  unfold chooseFormatInteractive.
  repeat match goal with
         | |- context [if ?b then _ else _] => destruct b
         end; cbn; repeat split; reflexivity.
Qed.

(** [run] once the arguments are parsed. *)
Lemma run_scheduled w argv a0 :
  parseArgs (fs w) argv = Ok a0 ->
  let args := fst (chooseFormatInteractive (answer w) a0) in
  let asked := snd (chooseFormatInteractive (answer w) a0) in
  run w argv
  = match ensureDir (dirs w) (outDir a0) with
    | Ok _ =>
        match exec (job_settles w args) (concurrent args) (events w)
                   (pump (concurrent args) (initSched (urls args))) with
        | Some s =>
            if drained s
            then Exited (fst (report (failures s))) (asked ++ snd (report (failures s)))
            else Waiting s
        | None => NoSuchRun
        end
    | _ => Exited 1 [ErrUncaught]
    end.
Proof.
  intros HP args asked. unfold run. rewrite HP. subst args asked.
  destruct (ensureDir (dirs w) (outDir a0)); try reflexivity.
  destruct (chooseFormatInteractive (answer w) a0) as [a1 o1]. cbn [fst snd].
  destruct (exec _ _ _ _) as [s|]; [|reflexivity].
  destruct (drained s); [|reflexivity]. now destruct (report (failures s)).
Qed.

Lemma pump_while_outcomes limit q :
  forall s, outcomes (pump_while limit q s) = outcomes s.
Proof.
  induction q as [|u rest IH]; intros s; cbn [pump_while]; [reflexivity|].
  destruct (int_lt (active s) limit); [|reflexivity]. now rewrite IH.
Qed.

Lemma pump_outcomes limit s : outcomes (pump limit s) = outcomes s.
Proof.
  unfold pump. destruct (queue s) as [|u rest]; [reflexivity|].
  destruct (int_ge (active s) limit); [reflexivity|]. now rewrite pump_while_outcomes.
Qed.

Lemma failedUrls_all os :
  Forall (fun o : string * bool => snd o = false) os -> failedUrls os = map fst os.
Proof.
  unfold failedUrls. induction 1 as [|[u b] r Hb _ IH]; [reflexivity|].
  cbn in Hb. subst b. cbn. now rewrite IH.
Qed.


(** In a world whose input gives a line: without an output template every
    job rejects at once and the run does not end with status 0. *)
Lemma missing_template_answered (w : World) (argv : list string) (a0 : Args) :
  parseArgs (fs w) argv = Ok a0 ->
  given F_outTemplate (commandLine argv) = Some Undefined ->
  let args := fst (chooseFormatInteractive (answer w) a0) in
  (forall n ext url k, downloadOne (S n) ext url args k = Some (false, []))
  /\ (forall s,
        exec (job_settles w args) (concurrent args) (events w)
             (pump (concurrent args) (initSched (urls args))) = Some s ->
        failures s = map fst (outcomes s)
        /\ (drained s = true -> Permutation (failures s) (urls args)))
  /\ (forall code out, run w argv = Exited code out -> code <> 0).
Proof.
  intros HP G args.
  destruct (choose_preserves (answer w) a0) as (Eu & _ & _ & _ & Et). fold args in Eu, Et.
  assert (T : outTemplate args = Undefined).
  { rewrite Et. destruct (parsed_fields _ _ _ HP) as (_ & _ & _ & S).
    pose proof (S F_outTemplate) as O. rewrite G in O. cbn in O. now injection O. }
  assert (B : ytdlpArgs args = None).
  { unfold ytdlpArgs. rewrite T. now destruct (outDir args). }
  assert (D : forall n ext url k, downloadOne (S n) ext url args k = Some (false, [])).
  { intros n ext url k. cbn [downloadOne]. now rewrite B. }
  assert (Sched : forall s,
             exec (job_settles w args) (concurrent args) (events w)
                  (pump (concurrent args) (initSched (urls args))) = Some s ->
             failures s = map fst (outcomes s)
             /\ (drained s = true -> Permutation (failures s) (urls args))).
  { intros s E.
    assert (F : Forall (fun o : string * bool => snd o = false) (outcomes s)).
    { refine (exec_preserves
                (fun s => Forall (fun o : string * bool => snd o = false) (outcomes s))
                _ _ _ _ _ _ _ E).
      - intros e s1 s2 I1 Fi. destruct e as [i ok|i]; cbn [fire] in Fi.
        + destruct (nth_error (jobs s1) i) as [j|]; [|discriminate].
          destruct (job_settles w args (jid j) (jurl j) ok) eqn:J; [|discriminate].
          assert (ok = false).
          { unfold job_settles in J. destruct (fuel w) as [|n]; [discriminate|].
            rewrite D in J. now destruct ok. }
          subst ok. destruct (settle_inv _ _ _ _ Fi) as (id & url & _ & ->).
          cbn [outcomes]. apply Forall_app. split; [exact I1 | repeat constructor].
        + destruct (finish_inv _ _ _ _ Fi) as (id & url & _ & ->).
          rewrite pump_outcomes. exact I1.
      - rewrite pump_outcomes. constructor. }
    assert (Re : reachable (concurrent args) (urls args) s).
    { exists (events w). eapply exec_any_outcome. exact E. }
    destruct (reachable_accounted _ _ _ Re) as (_ & _ & Fa & Dn).
    rewrite Fa, (failedUrls_all _ F). split; [reflexivity|].
    intros Dr. now destruct (Dn Dr) as (_ & _ & P). }
  split; [exact D|]. split; [exact Sched|].
  intros code out R. rewrite (run_scheduled _ _ _ HP) in R. fold args in R.
  destruct (ensureDir (dirs w) (outDir a0)); try (injection R as <- _; discriminate).
  destruct (exec _ _ _ _) as [s|] eqn:E; [|discriminate].
  destruct (drained s) eqn:Dr; [|discriminate].
  destruct (Sched s eq_refl) as (Fa & P). specialize (P Dr).
  destruct (parseArgs_Ok _ _ _ HP) as (_ & _ & _ & _ & Ne). rewrite <- Eu in Ne.
  assert (Nf : failures s <> []).
  { intros Z0. rewrite Z0 in P. apply Permutation_nil in P. contradiction. }
  destruct (report_cases (failures s)) as [RF _]. rewrite (RF Nf) in R.
  injection R as <- _. discriminate.
Qed.

(** X14.  When the output template is not a string ([--outTemplate] given
    last, without a value) the option bag cannot be built: whatever is
    answered at the prompt, every job rejects at once, without a call of the
    external downloader, a retry or a wait, and all locators end up as
    failures.  The process then ends with status 0 in one case only: the
    question was asked and standard input ended before a line, so that no
    job was started. *)
Theorem missing_template_fails_every_job (w : World) (argv : list string) (a0 : Args) :
  parseArgs (fs w) argv = Ok a0 ->
  given F_outTemplate (commandLine argv) = Some Undefined ->
  (forall line,
     let args := fst (chooseFormatInteractive line a0) in
     (forall n ext url k, downloadOne (S n) ext url args k = Some (false, []))
     /\ (forall s,
           exec (job_settles w args) (concurrent args) (events w)
                (pump (concurrent args) (initSched (urls args))) = Some s ->
           failures s = map fst (outcomes s)
           /\ (drained s = true -> Permutation (failures s) (urls args))))
  /\ (forall input code out,
        runOn input w argv = Exited code out ->
        code = 0 ->
        input = None /\ asks a0 = true /\ out = [LogMenu; AskChoice]).
Proof.
  intros HP G. split.
  - intros line args.
    destruct (missing_template_answered (withAnswer line w) argv a0 HP G) as (D & S & _).
    split; [exact D | exact S].
  - intros input code out R C0. destruct input as [line|]; cbn [runOn] in R.
    + destruct (missing_template_answered (withAnswer line w) argv a0 HP G) as (_ & _ & N).
      elim (N _ _ R C0).
    + destruct (missing_template_answered w argv a0 HP G) as (_ & _ & N).
      rewrite HP in R.
      destruct (ensureDir (dirs w) (outDir a0)); try (elim (N _ _ R C0)).
      destruct (asks a0); [|elim (N _ _ R C0)].
      injection R as _ <-. auto.
Qed.

Lemma missing_template_fails_every_job_witness :
  (exists a,
     parseArgs quiet (argv0 ++ ["--noPrompt"; "u"; "--outTemplate"]) = Ok a
     /\ downloadOne 3 (fun _ => true) "u" a 1 = Some (false, []))
  /\ runOn None (calm []) (argv0 ++ ["u"; "--outTemplate"]) = Exited 0 [LogMenu; AskChoice].
Proof.
  split.
  - eexists. split; [vm_compute; reflexivity|].
    match goal with
    | |- downloadOne _ _ _ ?a _ = _ =>
        exact (proj1 (proj1 (missing_template_fails_every_job (calm [])
                               (argv0 ++ ["--noPrompt"; "u"; "--outTemplate"]) a
                               eq_refl eq_refl) "")
                     2%nat (fun _ => true) "u" 1)
    end.
  - destruct (runOn None (calm []) (argv0 ++ ["u"; "--outTemplate"]))
      as [code out| |] eqn:R; try (exfalso; vm_compute in R; discriminate).
    assert (C0 : code = 0).
    { assert (Rc : Exited code out = runOn None (calm []) (argv0 ++ ["u"; "--outTemplate"]))
        by (now rewrite R).
      vm_compute in Rc. now injection Rc. }
    destruct (parseArgs (fs (calm [])) (argv0 ++ ["u"; "--outTemplate"]))
      as [a| |] eqn:HP; try (exfalso; vm_compute in HP; discriminate).
    destruct (proj2 (missing_template_fails_every_job (calm [])
                       (argv0 ++ ["u"; "--outTemplate"]) a HP eq_refl)
                    None code out R C0) as (_ & _ & O).
    now rewrite C0, O.
Defined.

Lemma exec_no_jobs allowed limit evs s s' :
  jobs s = [] -> exec allowed limit evs s = Some s' -> evs = [] /\ s' = s.
Proof.
  intros J H. destruct evs as [|e r]; cbn [exec] in H.
  - injection H as <-. auto.
  - assert (F : fire allowed limit e s = None).
    { destruct e as [[|i] ok|[|i]]; unfold fire, finish; rewrite J; reflexivity. }
    rewrite F in H. discriminate.
Qed.

Lemma pump_closed limit locs :
  int_ge 0 limit = true -> pump limit (initSched locs) = initSched locs.
Proof.
  intros H. unfold pump. cbn [queue active initSched].
  destruct locs; [reflexivity|]. now rewrite H.
Qed.

(** With a limit at or below 0 nothing is started, and in a world whose
    input gives a line the run never exits. *)
Lemma nonpositive_limit_answered (limit : jsnum) (locs : list string) :
  int_ge 0 limit = true ->
  (forall s, reachable limit locs s -> s = initSched locs)
  /\ (locs <> [] -> forall s, reachable limit locs s -> drained s = false)
  /\ (forall w argv a0 dir,
        parseArgs (fs w) argv = Ok a0 ->
        ensureDir (dirs w) (outDir a0) = Ok dir ->
        concurrent a0 = limit ->
        forall code out, run w argv <> Exited code out).
Proof.
  intros H.
  assert (R : forall l s, reachable limit l s -> s = initSched l).
  { intros l s (evs & E). rewrite pump_closed in E by exact H.
    now destruct (exec_no_jobs any_outcome limit evs (initSched l) s eq_refl E). }
  assert (N : forall l s, l <> [] -> reachable limit l s -> drained s = false).
  { intros l s Hne Re. rewrite (R _ _ Re). destruct l; [congruence | reflexivity]. }
  split; [apply R|]. split; [intros Hne s; now apply N|].
  intros w argv a0 dir HP HE HC code out Run.
  rewrite (run_scheduled _ _ _ HP), HE in Run.
  destruct (choose_preserves (answer w) a0) as (Eu & Ec & _).
  destruct (exec _ _ _ _) as [s|] eqn:E; [|discriminate].
  assert (Re : reachable limit (urls a0) s).
  { exists (events w). rewrite Ec, Eu, HC in E. eapply exec_any_outcome. exact E. }
  destruct (parseArgs_Ok _ _ _ HP) as (_ & _ & _ & _ & Ne).
  rewrite (N _ _ Ne Re) in Run. discriminate.
Qed.

(** X15.  With a limit at or below 0 ([--concurrent 0], a negative number or
    [-Infinity]) no job is ever started: the scheduler stays in its first
    state, and as soon as there is a locator the drain loop never ends.  A
    run that passed the parser and [ensureDir] then exits in one case only:
    the question was asked and standard input ended before a line, which
    ends the process with status 0 before the scheduler is reached. *)
Theorem nonpositive_limit_starts_nothing (limit : jsnum) (locs : list string) :
  int_ge 0 limit = true ->
  (forall s, reachable limit locs s -> s = initSched locs)
  /\ (locs <> [] -> forall s, reachable limit locs s -> drained s = false)
  /\ (forall input w argv a0 dir,
        parseArgs (fs w) argv = Ok a0 ->
        ensureDir (dirs w) (outDir a0) = Ok dir ->
        concurrent a0 = limit ->
        forall code out,
          runOn input w argv = Exited code out ->
          input = None /\ asks a0 = true /\ code = 0 /\ out = [LogMenu; AskChoice]).
Proof.
  intros H. destruct (nonpositive_limit_answered limit locs H) as (R & N & E).
  split; [exact R|]. split; [exact N|].
  intros input w argv a0 dir HP HE HC code out Run.
  destruct input as [line|]; cbn [runOn] in Run.
  - elim (E (withAnswer line w) argv a0 dir HP HE HC _ _ Run).
  - rewrite HP, HE in Run. destruct (asks a0).
    + injection Run as <- <-. auto.
    + elim (E w argv a0 dir HP HE HC _ _ Run).
Qed.

Lemma nonpositive_limit_starts_nothing_witness :
  runOn (Some "1") (calm []) (argv0 ++ ["--concurrent"; "-1"; "u"])
  <> Exited 0 [LogAllCompleted].
Proof.
  destruct (parseArgs (fs (calm [])) (argv0 ++ ["--concurrent"; "-1"; "u"]))
    as [a| |] eqn:HP; try (exfalso; vm_compute in HP; discriminate).
  assert (Ha : Ok a = parseArgs (fs (calm [])) (argv0 ++ ["--concurrent"; "-1"; "u"]))
    by (now rewrite HP).
  vm_compute in Ha. injection Ha as Ha.
  intros Run.
  assert (HE : ensureDir (dirs (calm [])) (outDir a) = Ok "./downloads")
    by (rewrite Ha; reflexivity).
  assert (HC : concurrent a = Fin (-1)) by (rewrite Ha; reflexivity).
  destruct (proj2 (proj2 (nonpositive_limit_starts_nothing (Fin (-1)) ["u"] eq_refl))
                  (Some "1") (calm []) _ a "./downloads" HP HE HC _ _ Run) as (I & _).
  discriminate I.
Defined.

Lemma pump_NaN_active s : active (pump NaN s) <= active s + 1.
Proof.
  unfold pump. destruct (queue s) as [|u rest]; [lia|]. cbn [int_ge].
  rewrite pump_while_stop by reflexivity. cbn. lia.
Qed.

(** X16.  With a limit that is not a number ([--concurrent abc], or
    [--concurrent] given last) the jobs run one at a time: the counter never
    passes 1, and it is 1 as long as locators wait. *)
Theorem nan_limit_one_at_a_time (locs : list string) (s : Sched) :
  reachable NaN locs s ->
  active s <= 1 /\ (queue s <> [] -> active s = 1).
Proof.
  intros (evs & E).
  assert (I : Stable NaN locs s /\ Busy s /\ active s <= 1).
  { refine (exec_preserves (fun s => Stable NaN locs s /\ Busy s /\ active s <= 1)
              any_outcome NaN _ evs _ s _ E).
    - intros e s1 s2 (St & B & A) F. split; [eapply fire_Stable; eauto|].
      destruct e as [i ok|i]; cbn [fire] in F.
      + destruct (nth_error (jobs s1) i) as [j|]; [|discriminate].
        cbn in F. destruct (settle_same _ _ _ _ F) as (Q & Ac & _).
        unfold Busy. rewrite Q, Ac. auto.
      + split; [eapply finish_Busy; eauto; reflexivity|].
        destruct (finish_inv _ _ _ _ F) as (id & url & _ & ->).
        match goal with |- active (pump NaN ?s0) <= 1 =>
          pose proof (pump_NaN_active s0) as P; cbn [active] in P end.
        lia.
    - split; [apply initial_Stable|]. split.
      + apply pump_Busy; [reflexivity | cbn; lia].
      + pose proof (pump_NaN_active (initSched locs)) as P. cbn [active initSched] in P. lia. }
  destruct I as (_ & B & A). split; [exact A|].
  intros Q. specialize (B Q). lia.
Qed.

Lemma nan_limit_one_at_a_time_witness :
  exists s,
    exec any_outcome (Number Undefined) [Settle 0 true; Finally 0]
         (pump (Number Undefined) (initSched ["A"; "B"; "C"])) = Some s
    /\ active s = 1.
Proof.
  eexists. split; [vm_compute; reflexivity|].
  match goal with
  | |- active ?s = 1 =>
      exact (proj2 (nan_limit_one_at_a_time ["A"; "B"; "C"] s
                      (ex_intro _ [Settle 0 true; Finally 0] eq_refl))
                   ltac:(discriminate))
  end.
Defined.

Lemma int_lt_whole a c : int_lt a (Fin (inject_Z c)) = (a <? c).
Proof.
  cbn [int_lt]. destruct (a <? c) eqn:E.
  - apply negb_true_iff. destruct (Qle_bool (inject_Z c) (inject_Z a)) eqn:L; [|reflexivity].
    apply Qle_bool_iff in L. rewrite <- Zle_Qle in L. apply Z.ltb_lt in E. lia.
  - apply negb_false_iff, Qle_bool_iff. rewrite <- Zle_Qle. apply Z.ltb_ge in E. lia.
Qed.

(** X17.  With a whole limit [C >= 1] the pool is full whenever locators
    wait: in every state of a run with a non-empty queue exactly [C] jobs are
    pending. *)
Theorem pool_full_while_waiting (c : Z) (locs : list string) (s : Sched) :
  1 <= c ->
  reachable (Fin (inject_Z c)) locs s ->
  queue s <> [] ->
  active s = c.
Proof.
  intros Hc R Q. destruct (reachable_Stable _ _ _ R) as (_ & S & W).
  specialize (S Q). rewrite int_lt_whole in S. apply Z.ltb_ge in S.
  assert (U : active s <= Qceiling (inject_Z c)).
  { apply within_ceiling; [|exact W].
    change (inject_Z 1 <= inject_Z c)%Q. now rewrite <- Zle_Qle. }
  rewrite Qceiling_Z in U. lia.
Qed.

Lemma pool_full_while_waiting_witness :
  exists s,
    exec any_outcome (Fin 2) [Settle 1 false; Finally 1]
         (pump (Fin 2) (initSched ["A"; "B"; "C"; "D"])) = Some s
    /\ queue s = ["D"]
    /\ active s = 2.
Proof.
  eexists. split; [vm_compute; reflexivity|]. split; [reflexivity|].
  match goal with
  | |- active ?s = 2 =>
      exact (pool_full_while_waiting 2 ["A"; "B"; "C"; "D"] s ltac:(lia)
               (ex_intro _ [Settle 1 false; Finally 1] eq_refl) ltac:(discriminate))
  end.
Defined.

Lemma pump_while_whole c q :
  forall s,
    queue s = q ->
    let m := Z.to_nat (c - active s) in
    started (pump_while (Fin (inject_Z c)) q s) = started s ++ firstn m q
    /\ queue (pump_while (Fin (inject_Z c)) q s) = skipn m q
    /\ active (pump_while (Fin (inject_Z c)) q s) = active s + Z.of_nat (length (firstn m q)).
Proof.
  induction q as [|u rest IH]; intros s Q m; subst m; cbn [pump_while].
  - rewrite firstn_nil, skipn_nil, app_nil_r. cbn. repeat split; [exact Q | lia].
  - rewrite int_lt_whole. destruct (active s <? c) eqn:E.
    + apply Z.ltb_lt in E.
      destruct (IH (startJob u rest s) eq_refl) as (I1 & I2 & I3).
      cbn [startJob active started] in I1, I2, I3.
      replace (Z.to_nat (c - active s)) with (S (Z.to_nat (c - (active s + 1)))) by lia.
      cbn [firstn skipn length]. rewrite I1, I2, I3, <- app_assoc.
      repeat split. lia.
    + apply Z.ltb_ge in E. replace (Z.to_nat (c - active s)) with 0%nat by lia.
      cbn [firstn skipn length]. rewrite app_nil_r. repeat split; [exact Q | lia].
Qed.

(** X18.  With a whole limit [C >= 0], [await pump()] starts jobs for the
    first [C] locators, in order (for all of them when there are fewer), and
    leaves the others in the queue. *)
Theorem initial_pump_starts_first (c : Z) (locs : list string) :
  0 <= c ->
  let s := pump (Fin (inject_Z c)) (initSched locs) in
  started s = firstn (Z.to_nat c) locs
  /\ queue s = skipn (Z.to_nat c) locs
  /\ active s = Z.min c (Z.of_nat (length locs)).
Proof.
  intros Hc s. subst s. unfold pump. cbn [queue active initSched].
  destruct locs as [|u rest].
  - rewrite firstn_nil, skipn_nil. cbn. repeat split. lia.
  - cbn [int_ge]. destruct (Qle_bool (inject_Z c) (inject_Z 0)) eqn:E.
    + apply Qle_bool_iff in E. rewrite <- Zle_Qle in E.
      replace c with 0 by lia. cbn. repeat split.
    + assert (P : 1 <= c).
      { destruct (Z_lt_le_dec 0 c) as [L|L]; [lia|].
        assert (Q : Qle_bool (inject_Z c) (inject_Z 0) = true)
          by (apply Qle_bool_iff; now rewrite <- Zle_Qle).
        congruence. }
      destruct (pump_while_whole c rest (startJob u rest (initSched (u :: rest))) eq_refl)
        as (I1 & I2 & I3).
      cbn [startJob active started initSched app] in I1, I2, I3.
      replace (Z.to_nat c) with (S (Z.to_nat (c - (0 + 1)))) by lia.
      cbn [firstn skipn]. rewrite I1, I2, I3. repeat split.
      rewrite length_firstn. cbn [length]. lia.
Qed.

Lemma initial_pump_starts_first_witness :
  started (pump (Fin 2) (initSched ["A"; "B"; "C"])) = ["A"; "B"]
  /\ queue (pump (Fin 2) (initSched ["A"; "B"; "C"])) = ["C"].
Proof.
  destruct (initial_pump_starts_first 2 ["A"; "B"; "C"] ltac:(lia)) as (S & Q & _).
  exact (conj S Q).
Defined.

(** X19.  Once the drain loop's condition has turned false it stays false:
    in a state of a run where nothing is pending and the queue is empty no
    further event can happen. *)
Theorem drained_is_final (limit : jsnum) (locs : list string) (s : Sched) :
  reachable limit locs s ->
  drained s = true ->
  jobs s = [] /\ forall e, fire any_outcome limit e s = None.
Proof.
  intros R D. pose proof (reachable_Stable _ _ _ R) as St. split.
  - destruct St as ((_ & I2 & _ & _) & _ & _). apply drained_iff in D as [D _].
    destruct (jobs s); [reflexivity | cbn [length] in I2; lia].
  - intros e. eapply drained_final; eauto.
Qed.

Lemma drained_is_final_witness :
  exists s,
    exec any_outcome (Fin 2) [Settle 0 true; Finally 0]
         (pump (Fin 2) (initSched ["A"])) = Some s
    /\ fire any_outcome (Fin 2) (Finally 0) s = None.
Proof.
  eexists. split; [vm_compute; reflexivity|].
  match goal with
  | |- fire _ _ _ ?s = None =>
      exact (proj2 (drained_is_final (Fin 2) ["A"] s
                      (ex_intro _ [Settle 0 true; Finally 0] eq_refl) eq_refl)
                   (Finally 0))
  end.
Defined.

Lemma pump_while_events limit q :
  forall s, eventsSoFar (pump_while limit q s) = eventsSoFar s.
Proof.
  induction q as [|u rest IH]; intros s; cbn [pump_while]; [reflexivity|].
  destruct (int_lt (active s) limit); [|reflexivity].
  rewrite IH. unfold eventsSoFar. cbn [startJob outcomes started jobs].
  rewrite !length_app. cbn [length]. lia.
Qed.

Lemma pump_events limit s : eventsSoFar (pump limit s) = eventsSoFar s.
Proof.
  unfold pump. destruct (queue s) as [|u rest]; [reflexivity|].
  destruct (int_ge (active s) limit); [reflexivity|].
  rewrite pump_while_events. unfold eventsSoFar. cbn [startJob outcomes started jobs].
  rewrite !length_app. cbn [length]. lia.
Qed.

Lemma fire_events allowed limit e s s' :
  fire allowed limit e s = Some s' -> eventsSoFar s' = eventsSoFar s + 1.
Proof.
  destruct e as [i ok|i]; cbn [fire].
  - destruct (nth_error (jobs s) i) as [j|]; [|discriminate].
    destruct (allowed (jid j) (jurl j) ok); [|discriminate].
    intros H. destruct (settle_inv _ _ _ _ H) as (id & url & N & ->).
    unfold eventsSoFar. cbn [outcomes started jobs].
    rewrite (replace_nth_length _ _ _ _ N), length_app. cbn [length]. lia.
  - intros H. destruct (finish_inv _ _ _ _ H) as (id & url & N & ->).
    rewrite pump_events. unfold eventsSoFar. cbn [outcomes started jobs].
    pose proof (remove_nth_length _ _ _ N). lia.
Qed.

Lemma exec_events allowed limit evs :
  forall s s',
    exec allowed limit evs s = Some s' ->
    eventsSoFar s' = eventsSoFar s + Z.of_nat (length evs).
Proof.
  induction evs as [|e r IH]; intros s s' H; cbn [exec] in H.
  - injection H as <-. cbn. lia.
  - destruct (fire allowed limit e s) as [s1|] eqn:F; [|discriminate].
    rewrite (IH _ _ H), (fire_events _ _ _ _ _ F). cbn [length]. lia.
Qed.

(** X20.  A run that reaches the end of the drain loop has seen exactly two
    events for each locator: its job settling and its [finally] reaction. *)
Theorem complete_run_event_count
        (limit : jsnum) (locs : list string) (evs : list event) (s : Sched) :
  exec any_outcome limit evs (pump limit (initSched locs)) = Some s ->
  drained s = true ->
  length evs = (2 * length locs)%nat.
Proof.
  intros E D.
  pose proof (exec_events _ _ _ _ _ E) as M. rewrite pump_events in M.
  assert (R : reachable limit locs s) by (exists evs; exact E).
  destruct (reachable_accounted _ _ _ R) as (_ & _ & _ & Dn).
  destruct (Dn D) as (St & Lo & _).
  destruct (reachable_Stable _ _ _ R) as ((_ & I2 & _ & _) & _ & _).
  apply drained_iff in D as [D _].
  assert (J : length (jobs s) = 0%nat) by lia.
  unfold eventsSoFar in M. cbn [initSched outcomes started jobs length] in M.
  rewrite St, Lo, J in M. lia.
Qed.

Lemma complete_run_event_count_witness :
  exists s,
    exec any_outcome (Fin 1) [Settle 0 false; Finally 0; Settle 0 true; Finally 0]
         (pump (Fin 1) (initSched ["A"; "B"])) = Some s
    /\ drained s = true
    /\ length [Settle 0 false; Finally 0; Settle 0 true; Finally 0] = 4%nat.
Proof.
  eexists. split; [vm_compute; reflexivity|]. split; [reflexivity|].
  exact (complete_run_event_count (Fin 1) ["A"; "B"]
           [Settle 0 false; Finally 0; Settle 0 true; Finally 0] _ eq_refl eq_refl).
Defined.



